(** * GoGit: a shallow embedding of the object store, the staging index,
      the tree builder and the line diff, with their specification.

    The development follows the package layout of the Go sources:
    [utils] (hashing), [diff], [index], [object] and [repository].
    Go strings are byte strings and are embedded as [string]; [[]byte]
    values are embedded as [list byte]; Go's [int] and [uint32] are
    embedded as [Z] (the ranges involved are stated where they matter). *)

From Stdlib Require Import ZArith List String Ascii Lia DecimalString.
From Stdlib Require Import Permutation Sorted DecimalPos.
From Stdlib.Strings Require Import Byte.
From stdpp Require Import gmap strings list fin_maps.

Set Warnings "-register-all".
Local Open Scope Z_scope.

(* ===================================================================== *)
(** * Part I: definitions                                                 *)
(* ===================================================================== *)

(** ** Results

    A Go function returning [(T, error)] returns [Ok t] or [Err e]. *)

Inductive result (E A : Type) : Type :=
| Ok (a : A)
| Err (e : E).
Arguments Ok {E A} a.
Arguments Err {E A} e.

(** ** Bytes, words and the formatting verbs of [fmt] *)

Definition Z_of_byte (b : byte) : Z := Z.of_N (Byte.to_N b).

Definition byte_of_Z (z : Z) : byte :=
  match Byte.of_N (Z.to_N (z mod 256)) with
  | Some b => b
  | None => x00
  end.

(** [binary.BigEndian] encoders and decoders. *)
Definition be16 (v : Z) : list byte :=
  [byte_of_Z (Z.shiftr v 8); byte_of_Z v].

Definition be32 (v : Z) : list byte :=
  [byte_of_Z (Z.shiftr v 24); byte_of_Z (Z.shiftr v 16);
   byte_of_Z (Z.shiftr v 8); byte_of_Z v].

Definition be64 (v : Z) : list byte :=
  be32 (Z.shiftr v 32) ++ be32 v.

Definition byte_at (data : list byte) (i : nat) : Z :=
  Z_of_byte (nth i data x00).

Definition Uint16 (data : list byte) : Z :=
  Z.lor (Z.shiftl (byte_at data 0) 8) (byte_at data 1).

Definition Uint32 (data : list byte) : Z :=
  Z.lor (Z.lor (Z.lor (Z.shiftl (byte_at data 0) 24)
                      (Z.shiftl (byte_at data 1) 16))
               (Z.shiftl (byte_at data 2) 8))
        (byte_at data 3).

(** The character with code 0 and the line feed. *)
Definition NUL : ascii := "000"%char.
Definition LF : ascii := "010"%char.
Definition ESC : ascii := "027"%char.

(** [%d] on a Go [int]. *)
Definition fmt_d (n : Z) : string := NilZero.string_of_int (Z.to_int n).

(** [%o] on an unsigned value: octal digits, most significant first. *)
Definition octal_digit (d : Z) : ascii := ascii_of_N (Z.to_N (48 + d)).

Fixpoint octal_pos (fuel : nat) (n : Z) (acc : string) : string :=
  match fuel with
  | O => acc
  | S fuel' =>
      if n <? 8 then String (octal_digit n) acc
      else octal_pos fuel' (n / 8) (String (octal_digit (n mod 8)) acc)
  end.

Definition fmt_o (n : Z) : string := octal_pos (S (Z.to_nat (Z.log2 n))) n "".

(** ** [encoding/hex] *)

Definition hextable : string := "0123456789abcdef".

Definition hex_digit (d : Z) : ascii :=
  match String.get (Z.to_nat d) hextable with
  | Some c => c
  | None => "0"%char
  end.

Fixpoint EncodeToString (src : list byte) : string :=
  match src with
  | [] => EmptyString
  | b :: rest =>
      String (hex_digit (Z.shiftr (Z_of_byte b) 4))
        (String (hex_digit (Z.land (Z_of_byte b) 15)) (EncodeToString rest))
  end.

Definition fromHexChar (c : ascii) : option Z :=
  let n := Z.of_N (N_of_ascii c) in
  if (48 <=? n) && (n <=? 57) then Some (n - 48)
  else if (97 <=? n) && (n <=? 102) then Some (n - 97 + 10)
  else if (65 <=? n) && (n <=? 70) then Some (n - 65 + 10)
  else None.

(** [hex.DecodeString] returns the bytes decoded before the first
    invalid or unpaired character; its callers here drop the error. *)
Fixpoint DecodeString (s : string) : list byte :=
  match s with
  | String c1 (String c2 rest) =>
      match fromHexChar c1, fromHexChar c2 with
      | Some a, Some b => byte_of_Z (Z.lor (Z.shiftl a 4) b) :: DecodeString rest
      | _, _ => []
      end
  | _ => []
  end.

(** A digit of [hextable]: what [EncodeToString] writes. *)
Definition lower_hex (c : ascii) : bool :=
  let n := Z.of_N (N_of_ascii c) in
  ((48 <=? n) && (n <=? 57)) || ((97 <=? n) && (n <=? 102)).

(** A string of an even number of digits of [hextable]. *)
Fixpoint hex_pairs (s : string) : bool :=
  match s with
  | EmptyString => true
  | String c1 (String c2 rest) => lower_hex c1 && lower_hex c2 && hex_pairs rest
  | String _ EmptyString => false
  end.

(** ** [crypto/sha1]

    [sha1.Sum] of the library is the digest of FIPS 180-4; it is computed
    here on 32-bit words held in [Z], and checked below on the test
    vectors of the standard. *)

Module sha1.

Definition mask32 : Z := 0xFFFFFFFF.

Definition add32 (a b : Z) : Z := Z.land (a + b) mask32.

Definition rotl32 (n : Z) (x : Z) : Z :=
  Z.land (Z.lor (Z.shiftl x n) (Z.shiftr x (32 - n))) mask32.

Definition not32 (x : Z) : Z := Z.lxor x mask32.

(** The message followed by the bit 1, zeros up to 56 modulo 64, and the
    bit length on 64 bits. *)
Definition pad (msg : list byte) : list byte :=
  let len := Z.of_nat (length msg) in
  msg ++ [x80] ++ repeat x00 (Z.to_nat ((55 - len) mod 64)) ++ be64 (8 * len).

Fixpoint words (n : nat) (data : list byte) : list Z :=
  match n with
  | O => []
  | S n' => Uint32 data :: words n' (skipn 4 data)
  end.

Fixpoint extend (n : nat) (w : list Z) : list Z :=
  match n with
  | O => w
  | S n' =>
      let t := length w in
      let x := Z.lxor (Z.lxor (Z.lxor (nth (t - 3) w 0) (nth (t - 8) w 0))
                              (nth (t - 14) w 0)) (nth (t - 16) w 0) in
      extend n' (w ++ [rotl32 1 x])
  end.

Definition schedule (block : list byte) : list Z := extend 64 (words 16 block).

Record state := mkState { h0 : Z; h1 : Z; h2 : Z; h3 : Z; h4 : Z }.

Definition init : state :=
  mkState 0x67452301 0xEFCDAB89 0x98BADCFE 0x10325476 0xC3D2E1F0.

Definition round (t : nat) (wt : Z) (s : state) : state :=
  let '(mkState a b c d e) := s in
  let '(f, k) :=
    if (t <? 20)%nat then (Z.lor (Z.land b c) (Z.land (not32 b) d), 0x5A827999)
    else if (t <? 40)%nat then (Z.lxor (Z.lxor b c) d, 0x6ED9EBA1)
    else if (t <? 60)%nat then
      (Z.lor (Z.lor (Z.land b c) (Z.land b d)) (Z.land c d), 0x8F1BBCDC)
    else (Z.lxor (Z.lxor b c) d, 0xCA62C1D6) in
  let temp := add32 (add32 (add32 (add32 (rotl32 5 a) f) e) k) wt in
  mkState temp a (rotl32 30 b) c d.

Fixpoint rounds (t : nat) (w : list Z) (s : state) : state :=
  match w with
  | [] => s
  | wt :: w' => rounds (S t) w' (round t wt s)
  end.

Definition block (s : state) (blk : list byte) : state :=
  let s' := rounds 0 (schedule blk) s in
  mkState (add32 (h0 s) (h0 s')) (add32 (h1 s) (h1 s')) (add32 (h2 s) (h2 s'))
          (add32 (h3 s) (h3 s')) (add32 (h4 s) (h4 s')).

Fixpoint blocks (n : nat) (s : state) (data : list byte) : state :=
  match n with
  | O => s
  | S n' => blocks n' (block s (firstn 64 data)) (skipn 64 data)
  end.

Definition Sum (data : list byte) : list byte :=
  let p := pad data in
  let s := blocks (length p / 64) init p in
  be32 (h0 s) ++ be32 (h1 s) ++ be32 (h2 s) ++ be32 (h3 s) ++ be32 (h4 s).

End sha1.

(** ** Package [utils] *)

Module utils.

(** [header := fmt.Sprintf("%s %d\x00", objType, len(data))] *)
Definition header (objType : string) (len : Z) : string :=
  objType +:+ " " +:+ fmt_d len +:+ String NUL "".

Definition HashObject (objType : string) (data : list byte) : string :=
  let header := header objType (Z.of_nat (length data)) in
  let store := list_byte_of_string header ++ data in
  let hash := sha1.Sum store in
  EncodeToString hash.

Definition HashBytes (data : list byte) : string :=
  let hash := sha1.Sum data in
  EncodeToString hash.

Definition HexToBytes (hexStr : string) : list byte := DecodeString hexStr.

Definition BytesToHex (data : list byte) : string := EncodeToString data.

End utils.

(** ** Package [diff] *)

Module diff.

Inductive ChangeType := ChangeEqual | ChangeInsert | ChangeDelete.

Definition ChangeType_eqb (a b : ChangeType) : bool :=
  match a, b with
  | ChangeEqual, ChangeEqual | ChangeInsert, ChangeInsert
  | ChangeDelete, ChangeDelete => true
  | _, _ => false
  end.

(** [Type] is reserved, the field is called [Type_]. Fields left out of a
    Go struct literal hold 0. *)
Record Change := mkChange {
  Type_ : ChangeType;
  OldLine : Z;
  NewLine : Z;
  Text : string
}.

(** [strings.Split(s, "\n")]: the pieces between line feeds; a text
    without line feed, the empty text included, is one piece. *)
Fixpoint Split (s : string) : list string :=
  match s with
  | EmptyString => [EmptyString]
  | String c rest =>
      if Ascii.eqb c LF then EmptyString :: Split rest
      else match Split rest with
           | l :: ls => String c l :: ls
           | [] => [String c EmptyString]
           end
  end.

Definition max (a b : Z) : Z := if a >? b then a else b.

(** The table [lcs [][]int]: rows are read with [at2] and written with
    [set2]; every access of [diffLines] is within the [m+1] by [n+1]
    bounds. *)
Definition table := list (list Z).

Definition at2 (lcs : table) (i j : nat) : Z := nth j (nth i lcs []) 0.

Definition set2 (lcs : table) (i j : nat) (v : Z) : table :=
  <[i := <[j := v]> (nth i lcs [])]> lcs.

Definition line (ls : list string) (i : nat) : string := nth i ls EmptyString.

Definition fill_cell (oldLines newLines : list string) (lcs : table)
    (i j : nat) : table :=
  if String.eqb (line oldLines (i - 1)) (line newLines (j - 1))
  then set2 lcs i j (at2 lcs (i - 1) (j - 1) + 1)
  else set2 lcs i j (max (at2 lcs (i - 1) j) (at2 lcs i (j - 1))).

Definition fill_table (oldLines newLines : list string) : table :=
  let m := length oldLines in
  let n := length newLines in
  fold_left
    (fun lcs i => fold_left (fun lcs j => fill_cell oldLines newLines lcs i j)
                            (seq 1 n) lcs)
    (seq 1 m)
    (repeat (repeat 0 (n + 1)%nat) (m + 1)%nat).

(** The backtracking loop [for i > 0 || j > 0], by recursion on [(i, j)]:
    one call is one iteration and returns the changes in the order the
    loop appends them. With [i = 0] only the insert branch applies, with
    [j = 0] only the delete branch. *)
Fixpoint backtrack (lcs : table) (oldLines newLines : list string)
    (i : nat) : nat -> list Change :=
  match i with
  | O =>
      fix ins (j : nat) : list Change :=
        match j with
        | O => []
        | S j' =>
            mkChange ChangeInsert 0 (Z.of_nat j) (line newLines j') :: ins j'
        end
  | S i' =>
      fix row (j : nat) : list Change :=
        match j with
        | O =>
            mkChange ChangeDelete (Z.of_nat i) 0 (line oldLines i')
              :: backtrack lcs oldLines newLines i' O
        | S j' =>
            if String.eqb (line oldLines i') (line newLines j')
            then mkChange ChangeEqual (Z.of_nat i) (Z.of_nat j) (line oldLines i')
                   :: backtrack lcs oldLines newLines i' j'
            else if at2 lcs i j' >=? at2 lcs i' j
            then mkChange ChangeInsert 0 (Z.of_nat j) (line newLines j') :: row j'
            else mkChange ChangeDelete (Z.of_nat i) 0 (line oldLines i')
                   :: backtrack lcs oldLines newLines i' j
        end
  end.

Definition diffLines (oldLines newLines : list string) : list Change :=
  let m := length oldLines in
  let n := length newLines in
  let lcs := fill_table oldLines newLines in
  let result := backtrack lcs oldLines newLines m n in
  rev result.

Definition Diff (oldText newText : string) : list Change :=
  let oldLines := Split oldText in
  let newLines := Split newText in
  diffLines oldLines newLines.

(** [for j := lo; j < hi; j++ { h = append(h, changes[j]) }] *)
Definition append_range (changes : list Change) (lo hi : Z)
    (h : list Change) : list Change :=
  h ++ firstn (Z.to_nat (hi - lo)) (skipn (Z.to_nat lo) changes).

Record hunkState := mkHunkState {
  hunks : list (list Change);
  currentHunk : list Change;
  lastChangeIdx : Z
}.

Definition hunk_step (changes : list Change) (context : Z)
    (st : hunkState) (i : Z) (change : Change) : hunkState :=
  if negb (ChangeType_eqb (Type_ change) ChangeEqual) then
    let '(hs, cur) :=
      if (lastChangeIdx st =? -1) || (i - lastChangeIdx st >? context * 2) then
        let hs := if (0 <? Z.of_nat (length (currentHunk st)))
                  then hunks st ++ [currentHunk st] else hunks st in
        let start := i - context in
        let start := if start <? 0 then 0 else start in
        (hs, append_range changes start i [])
      else
        (hunks st, append_range changes (lastChangeIdx st + 1) i (currentHunk st)) in
    mkHunkState hs (cur ++ [change]) i
  else st.

Fixpoint hunk_loop (changes : list Change) (context : Z) (i : Z)
    (rest : list Change) (st : hunkState) : hunkState :=
  match rest with
  | [] => st
  | change :: rest' =>
      hunk_loop changes context (i + 1) rest' (hunk_step changes context st i change)
  end.

Definition groupIntoHunks (changes : list Change) (context : Z)
    : list (list Change) :=
  if (length changes =? 0)%nat then []
  else
    let st := hunk_loop changes context 0 changes (mkHunkState [] [] (-1)) in
    if negb (lastChangeIdx st =? -1) then
      let end_ := lastChangeIdx st + context + 1 in
      let end_ := if end_ >? Z.of_nat (length changes)
                  then Z.of_nat (length changes) else end_ in
      let cur := append_range changes (lastChangeIdx st + 1) end_ (currentHunk st) in
      hunks st ++ [cur]
    else hunks st.

Fixpoint first_positive (f : Change -> Z) (hunk : list Change) : Z :=
  match hunk with
  | [] => 0
  | change :: rest => if f change >? 0 then f change else first_positive f rest
  end.

Definition count_step (acc : Z * Z) (change : Change) : Z * Z :=
  let '(oldCount, newCount) := acc in
  match Type_ change with
  | ChangeEqual => (oldCount + 1, newCount + 1)
  | ChangeDelete => (oldCount + 1, newCount)
  | ChangeInsert => (oldCount, newCount + 1)
  end.

Definition hunkHeader (hunk : list Change) : Z * Z * Z * Z :=
  if (length hunk =? 0)%nat then (1, 0, 1, 0)
  else
    let oldStart := first_positive OldLine hunk in
    let newStart := first_positive NewLine hunk in
    let oldStart := if oldStart =? 0 then 1 else oldStart in
    let newStart := if newStart =? 0 then 1 else newStart in
    let '(oldCount, newCount) := fold_left count_step hunk (0, 0) in
    (oldStart, oldCount, newStart, newCount).

(** [strings.Builder]: the text written so far. *)
Definition WriteString (sb : string) (s : string) : string := sb +:+ s.

Definition eol : string := String LF "".

Definition write_change (sb : string) (change : Change) : string :=
  match Type_ change with
  | ChangeEqual => WriteString sb (" " +:+ Text change +:+ eol)
  | ChangeInsert =>
      WriteString sb (String ESC "[32m+" +:+ Text change +:+ String ESC "[0m" +:+ eol)
  | ChangeDelete =>
      WriteString sb (String ESC "[31m-" +:+ Text change +:+ String ESC "[0m" +:+ eol)
  end.

Definition write_hunk (sb : string) (hunk : list Change) : string :=
  let '(oldStart, oldCount, newStart, newCount) := hunkHeader hunk in
  let sb := WriteString sb
    ("@@ -" +:+ fmt_d oldStart +:+ "," +:+ fmt_d oldCount +:+ " +" +:+
     fmt_d newStart +:+ "," +:+ fmt_d newCount +:+ " @@" +:+ eol) in
  fold_left write_change hunk sb.

Definition Format (oldName newName : string) (changes : list Change) : string :=
  let sb := EmptyString in
  let sb := WriteString sb ("--- a/" +:+ oldName +:+ eol) in
  let sb := WriteString sb ("+++ b/" +:+ newName +:+ eol) in
  let hunks := groupIntoHunks changes 3 in
  fold_left write_hunk hunks sb.

End diff.

(** ** [sort.Slice]

    The library sorts a slice in place with a comparison given by the
    caller and does not promise stability. The program only ever sorts by
    a string key, so the function is a parameter [sort_Slice] of the
    definitions that call it, and [sort_contract] is what the library
    documents: the result is a rearrangement of the input, in
    non-decreasing key order. [insertion_sort] is one function that meets
    the contract. *)

Definition sorter : Type := forall A : Type, (A -> A -> bool) -> list A -> list A.

Definition less_by {A : Type} (key : A -> string) (a b : A) : bool :=
  String.ltb (key a) (key b).

(** [key a <= key b] in byte order: [b] is not less than [a]. *)
Definition key_le {A : Type} (key : A -> string) (a b : A) : Prop :=
  less_by key b a = false.

Definition sort_contract (sort_Slice : sorter) : Prop :=
  forall (A : Type) (key : A -> string) (l : list A),
    Permutation (sort_Slice A (less_by key) l) l /\
    StronglySorted (key_le key) (sort_Slice A (less_by key) l).

Fixpoint insert_sorted {A : Type} (less : A -> A -> bool) (x : A) (l : list A)
    : list A :=
  match l with
  | [] => [x]
  | y :: l' => if less x y then x :: l else y :: insert_sorted less x l'
  end.

Definition insertion_sort : sorter :=
  fun A less l => fold_right (insert_sorted less) [] l.

(** ** Package [index] *)

Module index.

Definition IndexSignature : string := "DIRC".
Definition IndexVersion : Z := 2.

(** The integer fields are [uint32] ([Flags] is [uint16]) and [Hash] is
    [[20]byte]; [wf_Entry] below states these ranges. *)
Record Entry := mkEntry {
  CTimeSec : Z;
  CTimeNano : Z;
  MTimeSec : Z;
  MTimeNano : Z;
  Dev : Z;
  Ino : Z;
  Mode : Z;
  UID : Z;
  GID : Z;
  Size : Z;
  Hash : list byte;
  Flags : Z;
  Path : string
}.

Record Index := mkIndex { Entries : list Entry }.

Definition NewIndex : Index := mkIndex [].

Inductive error :=
| ErrTooSmall
| ErrSignature (sig : string)
| ErrVersion (version : Z)
| ErrTruncated
| ErrNoTerminator.

(** [bytes.IndexByte(b, c)]: the index of the first [c] in [b]; [None]
    stands for the -1 of the library. *)
Fixpoint IndexByte (b : list byte) (c : byte) : option nat :=
  match b with
  | [] => None
  | x :: rest =>
      if Byte.eqb x c then Some O
      else match IndexByte rest c with
           | Some i => Some (S i)
           | None => None
           end
  end.

(** [data[lo:hi]] and [data[lo:]]; the parser only slices within bounds. *)
Definition slice (data : list byte) (lo hi : nat) : list byte :=
  firstn (hi - lo) (skipn lo data).

Definition padding_of (entryLen : nat) : nat := ((8 - (entryLen mod 8)) mod 8)%nat.

(** One iteration of the entry loop of [parseIndex]: the entry read at
    [pos] and the position after its padding. *)
Definition parse_entry (data : list byte) (pos : nat) : result error (Entry * nat) :=
  if (length data <? pos + 62)%nat then Err ErrTruncated
  else
    let entry_CTimeSec := Uint32 (skipn pos data) in
    let entry_CTimeNano := Uint32 (skipn (pos + 4) data) in
    let entry_MTimeSec := Uint32 (skipn (pos + 8) data) in
    let entry_MTimeNano := Uint32 (skipn (pos + 12) data) in
    let entry_Dev := Uint32 (skipn (pos + 16) data) in
    let entry_Ino := Uint32 (skipn (pos + 20) data) in
    let entry_Mode := Uint32 (skipn (pos + 24) data) in
    let entry_UID := Uint32 (skipn (pos + 28) data) in
    let entry_GID := Uint32 (skipn (pos + 32) data) in
    let entry_Size := Uint32 (skipn (pos + 36) data) in
    let entry_Hash := slice data (pos + 40) (pos + 60) in
    let entry_Flags := Uint16 (skipn (pos + 60) data) in
    let pos := (pos + 62)%nat in
    match IndexByte (skipn pos data) x00 with
    | None => Err ErrNoTerminator
    | Some pathEnd =>
        let entry_Path := string_of_list_byte (slice data pos (pos + pathEnd)) in
        let pos := (pos + (pathEnd + 1))%nat in
        let entryLen := (62 + pathEnd + 1)%nat in
        let padding := padding_of entryLen in
        let pos := (pos + padding)%nat in
        Ok (mkEntry entry_CTimeSec entry_CTimeNano entry_MTimeSec entry_MTimeNano
                    entry_Dev entry_Ino entry_Mode entry_UID entry_GID entry_Size
                    entry_Hash entry_Flags entry_Path, pos)
    end.

(** The loop [for i := uint32(0); i < entryCount; i++], by recursion on
    the number of entries left to read. *)
Fixpoint parse_entries (data : list byte) (count : nat) (pos : nat)
    (entries : list Entry) : result error (list Entry * nat) :=
  match count with
  | O => Ok (entries, pos)
  | S count' =>
      match parse_entry data pos with
      | Err e => Err e
      | Ok (entry, pos') => parse_entries data count' pos' (entries ++ [entry])
      end
  end.

(** [parseIndex] together with the position at which the loop stopped. *)
Definition parseIndex_pos (data : list byte) : result error (Index * nat) :=
  if (length data <? 12)%nat then Err ErrTooSmall
  else
    let sig := string_of_list_byte (slice data 0 4) in
    if negb (String.eqb sig IndexSignature) then Err (ErrSignature sig)
    else
      let version := Uint32 (slice data 4 8) in
      if negb (version =? IndexVersion) then Err (ErrVersion version)
      else
        let entryCount := Uint32 (slice data 8 12) in
        match parse_entries data (Z.to_nat entryCount) 12 [] with
        | Err e => Err e
        | Ok (entries, pos) => Ok (mkIndex entries, pos)
        end.

Definition parseIndex (data : list byte) : result error Index :=
  match parseIndex_pos data with
  | Ok (idx, _) => Ok idx
  | Err e => Err e
  end.

(** [binary.Write] of a [uint32] and of a [uint16] drop the bits above
    the width. *)
Definition write_entry (entry : Entry) : list byte :=
  be32 (CTimeSec entry) ++ be32 (CTimeNano entry) ++
  be32 (MTimeSec entry) ++ be32 (MTimeNano entry) ++
  be32 (Dev entry) ++ be32 (Ino entry) ++ be32 (Mode entry) ++
  be32 (UID entry) ++ be32 (GID entry) ++ be32 (Size entry) ++
  Hash entry ++ be16 (Flags entry) ++
  list_byte_of_string (Path entry) ++ [x00] ++
  repeat x00 (padding_of (62 + String.length (Path entry) + 1)).

Section Write.
Variable sort_Slice : sorter.

(** The bytes before the checksum: header and entries. *)
Definition body (entries : list Entry) : list byte :=
  list_byte_of_string IndexSignature ++ be32 IndexVersion ++
  be32 (Z.of_nat (length entries)) ++
  flat_map write_entry entries.

(** [Write] sorts [idx.Entries] in place and writes the buffer to the
    index file: the result is the index as [Write] leaves it and the
    bytes handed to [os.WriteFile]. *)
Definition Write (idx : Index) : Index * list byte :=
  let entries := sort_Slice Entry (less_by Path) (Entries idx) in
  let buf := body entries in
  let checksum := sha1.Sum buf in
  (mkIndex entries, buf ++ checksum).

End Write.

(** [UpdateEntry]: the first entry with the path is overwritten, and
    without one the entry is appended. *)
Fixpoint update (entries : list Entry) (entry : Entry) : list Entry :=
  match entries with
  | [] => [entry]
  | e :: rest =>
      if String.eqb (Path e) (Path entry) then entry :: rest
      else e :: update rest entry
  end.

Definition UpdateEntry (idx : Index) (entry : Entry) : Index :=
  mkIndex (update (Entries idx) entry).

(** [RemoveEntry]: the first entry with the path is cut out. *)
Fixpoint remove (entries : list Entry) (path : string) : list Entry :=
  match entries with
  | [] => []
  | e :: rest =>
      if String.eqb (Path e) path then rest else e :: remove rest path
  end.

Definition RemoveEntry (idx : Index) (path : string) : Index :=
  mkIndex (remove (Entries idx) path).

Fixpoint GetEntry_in (entries : list Entry) (path : string) : option Entry :=
  match entries with
  | [] => None
  | e :: rest => if String.eqb (Path e) path then Some e else GetEntry_in rest path
  end.

Definition GetEntry (idx : Index) (path : string) : option Entry :=
  GetEntry_in (Entries idx) path.

Definition HashString (e : Entry) : string := utils.BytesToHex (Hash e).

(** The length of the record of an entry: 62 bytes, the path, its
    terminator and the padding. *)
Definition entry_size (e : Entry) : nat :=
  (62 + String.length (Path e) + 1
   + padding_of (62 + String.length (Path e) + 1))%nat.

(** [same_upto m d d']: the two byte sequences have the same first [m]
    bytes. *)
Definition same_upto (m : nat) (d d' : list byte) : Prop :=
  firstn m d' = firstn m d.

(** The ranges of the Go types of an entry. *)
Definition uint32 (v : Z) : Prop := 0 <= v < 2 ^ 32.
Definition uint16 (v : Z) : Prop := 0 <= v < 2 ^ 16.

Record wf_Entry (e : Entry) : Prop := mk_wf_Entry {
  wf_CTimeSec : uint32 (CTimeSec e);
  wf_CTimeNano : uint32 (CTimeNano e);
  wf_MTimeSec : uint32 (MTimeSec e);
  wf_MTimeNano : uint32 (MTimeNano e);
  wf_Dev : uint32 (Dev e);
  wf_Ino : uint32 (Ino e);
  wf_Mode : uint32 (Mode e);
  wf_UID : uint32 (UID e);
  wf_GID : uint32 (GID e);
  wf_Size : uint32 (Size e);
  wf_Hash : length (Hash e) = 20%nat;
  wf_Flags : uint16 (Flags e)
}.

(** A path that the index format can hold: no byte of it is 0. *)
Definition nul_free (path : string) : Prop :=
  ~ In x00 (list_byte_of_string path).

End index.

(** ** What lies outside the program

    The file system is a finite map from paths to contents. Storage
    calls can fail and Go visits the keys of a map in an order of its
    own choosing: a [World] carries both as scripts. Each fallible
    storage call takes the next flag of [faults] ([true]: the call
    fails; no flag left: it succeeds), and each [range] over a map takes
    the next function of [orders] and visits the keys in the order it
    gives (none left: the order of [map_to_list]). *)

Module os.

Record World := mkWorld {
  files : gmap string (list byte);
  faults : list bool;
  orders : list (list string -> list string)
}.

Definition next_fault (w : World) : World * bool :=
  match faults w with
  | [] => (w, false)
  | failed :: rest => (mkWorld (files w) rest (orders w), failed)
  end.

Definition next_order (w : World) (keys : list string) : World * list string :=
  match orders w with
  | [] => (w, keys)
  | order :: rest => (mkWorld (files w) (faults w) rest, order keys)
  end.

(** The calls return the world and whether [err == nil]. *)
Definition MkdirAll (w : World) (dir : string) : World * bool :=
  let '(w, failed) := next_fault w in (w, negb failed).

(** [Stat] finds a file exactly when the map holds one at the path. *)
Definition Stat (w : World) (path : string) : bool :=
  match files w !! path with
  | Some _ => true
  | None => false
  end.

Definition WriteFile (w : World) (path : string) (data : list byte)
    : World * bool :=
  let '(w, failed) := next_fault w in
  if failed then (w, false)
  else (mkWorld (<[path := data]> (files w)) (faults w) (orders w), true).

Definition Rename (w : World) (oldpath newpath : string) : World * bool :=
  let '(w, failed) := next_fault w in
  if failed then (w, false)
  else match files w !! oldpath with
       | Some data =>
           (mkWorld (<[newpath := data]> (delete oldpath (files w)))
                    (faults w) (orders w), true)
       | None => (w, false)
       end.

Definition Remove (w : World) (path : string) : World :=
  mkWorld (delete path (files w)) (faults w) (orders w).

(** A world without storage failure, in which every visiting order is a
    rearrangement of the keys. *)
Definition quiet (w : World) : Prop :=
  Forall (fun failed => failed = false) (faults w) /\
  Forall (fun order => forall keys : list string, Permutation (order keys) keys)
         (orders w).

End os.

(** ** [path/filepath], with the separator [/] *)

Module filepath.

Definition isSep (c : ascii) : bool := Ascii.eqb c "/"%char.
Definition isDot (c : ascii) : bool := Ascii.eqb c "."%char.

(** [Split]: the path up to and including its last separator, and what
    follows. *)
Fixpoint Split_chars (path : list ascii) : list ascii * list ascii :=
  match path with
  | [] => ([], [])
  | c :: rest =>
      let '(dir, file) := Split_chars rest in
      if isSep c then (c :: dir, file)
      else match dir with
           | [] => ([], c :: file)
           | _ => (c :: dir, file)
           end
  end.

Definition Split (path : string) : string * string :=
  let '(dir, file) := Split_chars (list_ascii_of_string path) in
  (string_of_list_ascii dir, string_of_list_ascii file).

(** The start of the next separator-free element and what follows it. *)
Fixpoint element (path : list ascii) : list ascii * list ascii :=
  match path with
  | [] => ([], [])
  | c :: rest =>
      if isSep c then ([], path)
      else let '(elem, rest') := element rest in (c :: elem, rest')
  end.

(** The write index after backing over one element: [w] is decremented
    while it is above [dotdot] and [out[w]] is no separator. *)
Fixpoint back_over (out : list ascii) (dotdot : nat) (w : nat) : nat :=
  match w with
  | O => O
  | S w' =>
      if (dotdot <? w)%nat && negb (isSep (nth w out "000"%char))
      then back_over out dotdot w'
      else w
  end.

Definition at_end_or_sep (path : list ascii) : bool :=
  match path with
  | [] => true
  | c :: _ => isSep c
  end.

(** The loop of [Clean] over the unread part of the path; [out] is the
    buffer written so far. Every iteration reads at least one byte. *)
Fixpoint Clean_loop (fuel : nat) (rooted : bool) (path : list ascii)
    (out : list ascii) (dotdot : nat) : list ascii :=
  match fuel with
  | O => out
  | S fuel' =>
      match path with
      | [] => out
      | c :: rest =>
          if isSep c then
            Clean_loop fuel' rooted rest out dotdot
          else if isDot c && at_end_or_sep rest then
            Clean_loop fuel' rooted rest out dotdot
          else if isDot c && isDot (hd "000"%char rest)
                  && at_end_or_sep (tl rest) then
            if (dotdot <? length out)%nat then
              let w := back_over out dotdot (length out - 1) in
              Clean_loop fuel' rooted (tl rest) (firstn w out) dotdot
            else if negb rooted then
              let out := if (0 <? length out)%nat then out ++ ["/"%char] else out in
              let out := out ++ ["."%char; "."%char] in
              Clean_loop fuel' rooted (tl rest) out (length out)
            else
              Clean_loop fuel' rooted (tl rest) out dotdot
          else
            let out :=
              if (rooted && negb (length out =? 1)%nat)
                 || (negb rooted && negb (length out =? 0)%nat)
              then out ++ ["/"%char] else out in
            let '(elem, rest') := element path in
            Clean_loop fuel' rooted rest' (out ++ elem) dotdot
      end
  end.

Definition Clean (path : string) : string :=
  if String.eqb path "" then "."
  else
    let p := list_ascii_of_string path in
    let rooted := isSep (hd "000"%char p) in
    let out :=
      if rooted then Clean_loop (length p) rooted (tl p) ["/"%char] 1
      else Clean_loop (length p) rooted p [] 0 in
    if (length out =? 0)%nat then "." else string_of_list_ascii out.

(** [Join]: the elements from the first non-empty one on, joined by
    separators and cleaned. *)
Fixpoint Join (elem : list string) : string :=
  match elem with
  | [] => ""
  | e :: rest =>
      if String.eqb e "" then Join rest
      else Clean (String.concat "/" elem)
  end.

End filepath.

(** ** Package [utils]: compression

    [zlib] is the deflate stream the library writes for the data; the
    writer works on a buffer in memory. *)

Module compress.

Inductive error := ErrCompress.

Definition Compress (zlib : list byte -> list byte) (data : list byte)
    : result error (list byte) :=
  Ok (zlib data).

End compress.

(** ** Package [object] *)

Module object.

Definition TypeBlob : string := "blob".
Definition TypeTree : string := "tree".
Definition TypeCommit : string := "commit".
Definition TypeTag : string := "tag".

(** The interface [Object]; [Hash] is not used by the store. *)
Class Object (T : Type) := {
  Type_ : T -> string;
  Content : T -> list byte
}.

Record Blob := mkBlob { content : list byte }.

Definition NewBlob (content : list byte) : Blob := mkBlob content.

#[export] Instance Blob_Object : Object Blob := {|
  Type_ := fun _ => TypeBlob;
  Content := content
|}.

Record TreeEntry := mkTreeEntry {
  Mode : string;
  Name : string;
  Hash : string
}.

Record Tree := mkTree { Entries : list TreeEntry }.

Definition NewTree : Tree := mkTree [].

Definition AddEntry (t : Tree) (mode name hash : string) : Tree :=
  mkTree (Entries t ++ [mkTreeEntry mode name hash]).

(** One entry in the buffer: mode, space, name, zero byte and the hash in
    binary. *)
Definition write_tree_entry (buf : list byte) (entry : TreeEntry) : list byte :=
  buf ++ list_byte_of_string (Mode entry) ++ [x20] ++
  list_byte_of_string (Name entry) ++ [x00] ++ DecodeString (Hash entry).

Inductive error :=
| ErrMkdir
| ErrCompress
| ErrWrite
| ErrRename.

Section Store.
Variable sort_Slice : sorter.
Variable zlib : list byte -> list byte.

Definition Tree_Content (t : Tree) : list byte :=
  let sorted := sort_Slice TreeEntry (less_by Name) (Entries t) in
  fold_left write_tree_entry sorted [].

Definition Tree_Object : Object Tree := {|
  Type_ := fun _ => TypeTree;
  Content := Tree_Content
|}.

Definition objPath_of (repoPath hash : string) : string :=
  let dir := filepath.Join [repoPath; ".gogit"; "objects"; String.substring 0 2 hash] in
  filepath.Join [dir; String.substring 2 (String.length hash - 2) hash].

Definition WriteObject {T : Type} {H : Object T} (w : os.World)
    (repoPath : string) (obj : T) : os.World * result error string :=
  let content := Content obj in
  let header := utils.header (Type_ obj) (Z.of_nat (length content)) in
  let store := list_byte_of_string header ++ content in
  let hash := utils.HashBytes store in
  let dir := filepath.Join [repoPath; ".gogit"; "objects"; String.substring 0 2 hash] in
  let '(w, ok) := os.MkdirAll w dir in
  if negb ok then (w, Err ErrMkdir)
  else
    let objPath := filepath.Join [dir; String.substring 2 (String.length hash - 2) hash] in
    if os.Stat w objPath then (w, Ok hash)
    else
      match compress.Compress zlib store with
      | Err _ => (w, Err ErrCompress)
      | Ok compressed =>
          let tmpPath := objPath +:+ ".tmp" in
          let '(w, ok) := os.WriteFile w tmpPath compressed in
          if negb ok then (w, Err ErrWrite)
          else
            let '(w, ok) := os.Rename w tmpPath objPath in
            if negb ok then (os.Remove w tmpPath, Err ErrRename)
            else (w, Ok hash)
      end.

End Store.

End object.

(** ** Package [repository] *)

Module repository.

(** A [dirEntry] is built in two shapes only: a file, with [isDir] false
    and the nil map as [entries], and a directory, with [isDir] true, no
    mode or hash and a map made by [make]. *)
Inductive dirEntry :=
| FileNode (mode name hash : string)
| DirNode (name : string) (entries : gmap string dirEntry).

Definition isDir (d : dirEntry) : bool :=
  match d with
  | FileNode _ _ _ => false
  | DirNode _ _ => true
  end.

(** The loop of [splitPath]; it runs at most once per byte of the path
    unless it does not end, which is [None]. *)
Fixpoint splitPath_loop (fuel : nat) (path : string) (parts : list string)
    : option (list string) :=
  match fuel with
  | O => None
  | S fuel' =>
      if String.eqb path "" then Some parts
      else
        let '(dir, file) := filepath.Split path in
        let parts := if negb (String.eqb file "") then file :: parts else parts in
        if String.eqb dir "" then Some parts
        else
          let path := filepath.Clean dir in
          if String.eqb path "." then Some parts
          else splitPath_loop fuel' path parts
  end.

Definition splitPath (path : string) : option (list string) :=
  splitPath_loop (S (String.length path)) path [].

(** The inner loop of [BuildTreeRecursive] over the parts of one path,
    from the node [current]. Writing into the nil map of a file node
    panics: that is [None]. *)
Fixpoint insertParts (parts : list string) (mode hash : string)
    (current : dirEntry) : option dirEntry :=
  match parts with
  | [] => Some current
  | part :: rest =>
      match current with
      | FileNode _ _ _ => None
      | DirNode name entries =>
          match rest with
          | [] => Some (DirNode name (<[part := FileNode mode part hash]> entries))
          | _ :: _ =>
              let child :=
                match entries !! part with
                | Some child => child
                | None => DirNode part ∅
                end in
              match insertParts rest mode hash child with
              | Some child' => Some (DirNode name (<[part := child']> entries))
              | None => None
              end
          end
      end
  end.

Inductive failure :=
| NilMapWrite
| NoReturn
| WriteFailed (e : object.error).

Definition insertEntry (root : result failure dirEntry) (entry : index.Entry)
    : result failure dirEntry :=
  match root with
  | Err e => Err e
  | Ok root =>
      match splitPath (index.Path entry) with
      | None => Err NoReturn
      | Some parts =>
          match insertParts parts (fmt_o (index.Mode entry))
                            (index.HashString entry) root with
          | None => Err NilMapWrite
          | Some root' => Ok root'
          end
      end
  end.

Definition buildDir (entries : list index.Entry) : result failure dirEntry :=
  fold_left insertEntry entries (Ok (DirNode "" ∅)).

(** [BuildTree]: the flat tree, one entry for every index entry under
    its whole path; it returns no error. *)
Definition BuildTree (idx : index.Index) : object.Tree :=
  fold_left (fun tree entry =>
               object.AddEntry tree (fmt_o (index.Mode entry)) (index.Path entry)
                               (index.HashString entry))
            (index.Entries idx) object.NewTree.

(** A name without a separator. *)
Definition sep_free (name : string) : bool :=
  forallb (fun c => negb (filepath.isSep c)) (list_ascii_of_string name).

(** The tree entry and the file node that the builders make of an index
    entry. *)
Definition tree_entry_of (entry : index.Entry) : object.TreeEntry :=
  object.mkTreeEntry (fmt_o (index.Mode entry)) (index.Path entry)
                     (index.HashString entry).

Definition file_node_of (entry : index.Entry) : dirEntry :=
  FileNode (fmt_o (index.Mode entry)) (index.Path entry) (index.HashString entry).

Section Build.
Variable sort_Slice : sorter.
Variable zlib : list byte -> list byte.
Variable repoPath : string.

Definition build : Type := os.World -> os.World * result object.error string.

(** One iteration of the loop of [buildTreeFromDir] over a child. *)
Definition visit (name : string) (child : dirEntry * build)
    (st : os.World * result object.error object.Tree)
    : os.World * result object.error object.Tree :=
  let '(w, r) := st in
  match r with
  | Err e => (w, Err e)
  | Ok tree =>
      match fst child with
      | DirNode _ _ =>
          let '(w, rh) := snd child w in
          match rh with
          | Err e => (w, Err e)
          | Ok hash => (w, Ok (object.AddEntry tree "40000" name hash))
          end
      | FileNode mode _ hash => (w, Ok (object.AddEntry tree mode name hash))
      end
  end.

Definition visit_all (children : gmap string (dirEntry * build))
    (names : list string) (st : os.World * result object.error object.Tree)
    : os.World * result object.error object.Tree :=
  fold_left (fun st name =>
               match children !! name with
               | Some child => visit name child st
               | None => st
               end) names st.

Fixpoint buildTreeFromDir (dir : dirEntry) : build :=
  fun w =>
    let children : gmap string (dirEntry * build) :=
      match dir with
      | DirNode _ entries => (fun entry => (entry, buildTreeFromDir entry)) <$> entries
      | FileNode _ _ _ => ∅
      end in
    let '(w, names) := os.next_order w (map fst (map_to_list children)) in
    let '(w, r) := visit_all children names (w, Ok object.NewTree) in
    match r with
    | Err e => (w, Err e)
    | Ok tree =>
        object.WriteObject (H := object.Tree_Object sort_Slice) zlib w repoPath tree
    end.

Definition BuildTreeRecursive (w : os.World) (idx : index.Index)
    : os.World * result failure string :=
  match buildDir (index.Entries idx) with
  | Err e => (w, Err e)
  | Ok root =>
      let '(w, r) := buildTreeFromDir root w in
      match r with
      | Err e => (w, Err (WriteFailed e))
      | Ok hash => (w, Ok hash)
      end
  end.

End Build.

End repository.

(** ** Vocabulary of the tree builder specification *)

Module treespec.
Import repository.

(** The height of a directory structure. *)
Fixpoint depth (d : dirEntry) : nat :=
  match d with
  | FileNode _ _ _ => O
  | DirNode _ entries =>
      S (map_fold (fun _ child acc => Nat.max (depth child) acc) O entries)
  end.

(** The node reached from [t] along the names [q]. *)
Fixpoint lookup_path (q : list string) (t : dirEntry) : option dirEntry :=
  match q with
  | [] => Some t
  | name :: q' =>
      match t with
      | FileNode _ _ _ => None
      | DirNode _ entries =>
          match entries !! name with
          | Some child => lookup_path q' child
          | None => None
          end
      end
  end.

(** What one insertion puts under the name [part] of a directory with
    the given entries: the file, or the child directory after the rest
    of the path went into it. *)
Definition slot (part : string) (rest : list string) (mode hash : string)
    (entries : gmap string dirEntry) : option dirEntry :=
  match rest with
  | [] => Some (FileNode mode part hash)
  | _ :: _ =>
      insertParts rest mode hash
        match entries !! part with
        | Some child => child
        | None => DirNode part ∅
        end
  end.

(** What the loop of [BuildTreeRecursive] uses of an index entry: the
    parts of its path, its mode in octal and its id in hexadecimal. *)
Definition item : Type := list string * string * string.

Definition parts_of (path : string) : list string :=
  match splitPath path with
  | Some parts => parts
  | None => []
  end.

Definition item_of (e : index.Entry) : item :=
  (parts_of (index.Path e), fmt_o (index.Mode e), index.HashString e).

Definition insertItem (t : option dirEntry) (it : item) : option dirEntry :=
  match t with
  | Some t => insertParts (fst (fst it)) (snd (fst it)) (snd it) t
  | None => None
  end.

(** Items that can be inserted in any order: they are pairwise distinct
    and the parts of one are no prefix of the parts of another. *)
Definition compatible (its : list item) : Prop :=
  List.NoDup its /\
  forall a b : item, In a its -> In b its -> a <> b ->
                     ~ fst (fst a) `prefix_of` fst (fst b).

(** The (path, mode, id) triple of an index entry. *)
Definition triple (e : index.Entry) : string * Z * list byte :=
  (index.Path e, index.Mode e, index.Hash e).

(** Every path of the index splits into parts: [splitPath] returns. *)
Definition splits (entries : list index.Entry) : Prop :=
  forall e : index.Entry, In e entries -> splitPath (index.Path e) <> None.

(** No path of the index names a file at or above the file of another
    path: the parts of one are no prefix of the parts of the other. *)
Definition no_conflict (entries : list index.Entry) : Prop :=
  forall (e e' : index.Entry) (p p' : list string),
    In e entries -> In e' entries -> index.Path e <> index.Path e' ->
    splitPath (index.Path e) = Some p -> splitPath (index.Path e') = Some p' ->
    ~ p `prefix_of` p'.

Section TreeId.
Variable sort_Slice : sorter.

(** The tree entry of a child: a directory by the id of its tree, a file
    by its own mode and id. *)
Definition child_entry (name : string) (child : dirEntry) (id : string)
    : object.TreeEntry :=
  match child with
  | DirNode _ _ => object.mkTreeEntry "40000" name id
  | FileNode mode _ hash => object.mkTreeEntry mode name hash
  end.

(** The id of the tree of a directory structure, computed bottom-up,
    without any store. *)
Fixpoint treeId (d : dirEntry) : string :=
  let ids : gmap string (dirEntry * string) :=
    match d with
    | DirNode _ entries => (fun child => (child, treeId child)) <$> entries
    | FileNode _ _ _ => ∅
    end in
  let entries :=
    map (fun kv => child_entry (fst kv) (fst (snd kv)) (snd (snd kv)))
        (map_to_list ids) in
  utils.HashObject object.TypeTree
    (object.Tree_Content sort_Slice (object.mkTree entries)).

(** The tree entry for the name [name] of a directory. *)
Definition entry_for (entries : gmap string dirEntry) (name : string)
    : object.TreeEntry :=
  match entries !! name with
  | Some child => child_entry name child (treeId child)
  | None => object.mkTreeEntry "" name ""
  end.

End TreeId.

End treespec.

(** ** Vocabulary of the diff specification *)

Module diffspec.
Import diff.

(** The old text of a change list: the lines it keeps or deletes. *)
Definition old_side (cs : list Change) : list string :=
  flat_map (fun c => match Type_ c with
                     | ChangeInsert => []
                     | _ => [Text c]
                     end) cs.

(** The new text of a change list: the lines it keeps or inserts. *)
Definition new_side (cs : list Change) : list string :=
  flat_map (fun c => match Type_ c with
                     | ChangeDelete => []
                     | _ => [Text c]
                     end) cs.

(** Applying a change list to a line sequence, front to back: an insert
    puts its text in the output, a delete removes the current line, an
    equal keeps it. A delete or equal whose text is not the current line
    does not apply. Lines after the last change are kept. *)
Fixpoint applyChanges (cs : list Change) (lines : list string)
    : option (list string) :=
  match cs with
  | [] => Some lines
  | c :: cs' =>
      match Type_ c with
      | ChangeInsert => option_map (cons (Text c)) (applyChanges cs' lines)
      | ChangeDelete =>
          match lines with
          | l :: rest =>
              if String.eqb l (Text c) then applyChanges cs' rest else None
          | [] => None
          end
      | ChangeEqual =>
          match lines with
          | l :: rest =>
              if String.eqb l (Text c)
              then option_map (cons l) (applyChanges cs' rest) else None
          | [] => None
          end
      end
  end.

Definition count (t : ChangeType) (cs : list Change) : nat :=
  length (List.filter (fun c => ChangeType_eqb (Type_ c) t) cs).

(** Rendering as the specification words it: a one-character prefix and
    the text. *)
Definition prefix_of (t : ChangeType) : string :=
  match t with
  | ChangeEqual => " "
  | ChangeInsert => "+"
  | ChangeDelete => "-"
  end.

Definition plain_line (c : Change) : string :=
  prefix_of (Type_ c) +:+ Text c +:+ eol.

(** Rendering as the program does it: inserted and deleted lines are
    wrapped in the colour sequences ESC[32m, ESC[31m and ESC[0m. *)
Definition colour_of (t : ChangeType) : string * string :=
  match t with
  | ChangeEqual => ("", "")
  | ChangeInsert => (String ESC "[32m", String ESC "[0m")
  | ChangeDelete => (String ESC "[31m", String ESC "[0m")
  end.

Definition coloured_line (c : Change) : string :=
  fst (colour_of (Type_ c)) +:+ prefix_of (Type_ c) +:+ Text c
    +:+ snd (colour_of (Type_ c)) +:+ eol.

Definition range_header (hunk : list Change) : string :=
  let '(oldStart, oldCount, newStart, newCount) := hunkHeader hunk in
  "@@ -" +:+ fmt_d oldStart +:+ "," +:+ fmt_d oldCount +:+ " +" +:+
  fmt_d newStart +:+ "," +:+ fmt_d newCount +:+ " @@" +:+ eol.

Definition rendering (render_line : Change -> string)
    (oldName newName : string) (changes : list Change) : string :=
  "--- a/" +:+ oldName +:+ eol +:+
  "+++ b/" +:+ newName +:+ eol +:+
  String.concat ""
    (map (fun hunk => range_header hunk +:+ String.concat "" (map render_line hunk))
         (groupIntoHunks changes 3)).

End diffspec.

(** ** Example inputs *)

Module examples.
Import index.

Definition entry_of (path : string) (content : list byte) : Entry :=
  mkEntry 1700000000 0 1700000000 0 0 0 33188 0 0 (Z.of_nat (length content))
          (DecodeString (utils.HashObject "blob" content))
          (Z.of_nat (String.length path)) path.

(** The files [a.txt] and [b.txt], staged in the two orders. *)
Definition a_txt : Entry := entry_of "a.txt" (list_byte_of_string "a").
Definition b_txt : Entry := entry_of "b.txt" (list_byte_of_string "b").
Definition a_then_b : Index := mkIndex [a_txt; b_txt].
Definition b_then_a : Index := mkIndex [b_txt; a_txt].

(** An index whose only path holds a zero byte. *)
Definition nul_path : Index :=
  mkIndex [entry_of (String "a" (String NUL "")) []].

(** Two entries for the path [a], with different contents, in the two
    orders. *)
Definition a_with_x : Entry := entry_of "a" (list_byte_of_string "x").
Definition a_with_y : Entry := entry_of "a" (list_byte_of_string "y").
Definition x_then_y : Index := mkIndex [a_with_x; a_with_y].
Definition y_then_x : Index := mkIndex [a_with_y; a_with_x].

(** A file [a] and a file [a/b], in the two orders. *)
Definition file_a : Entry := entry_of "a" (list_byte_of_string "a").
Definition file_a_b : Entry := entry_of "a/b" (list_byte_of_string "b").

(** A world with no file, no storage failure and the visiting order of
    [map_to_list]; the identity stands for the compressor. *)
Definition empty_world : os.World := os.mkWorld ∅ [] [].
Definition stored (data : list byte) : list byte := data.

Definition test_blob : object.Blob :=
  object.NewBlob (list_byte_of_string ("test" +:+ String LF "")).

End examples.

(** ** Further vocabulary of the diff *)

(** ** [os.ReadFile] and [strconv.Atoi] *)

Module osread.

Inductive error := ErrNotExist | ErrIO.

(** A read fails with the next storage fault, and with [ErrNotExist] when
    the map holds no file at the path. *)
Definition ReadFile (w : os.World) (path : string)
    : os.World * result error (list byte) :=
  let '(w, failed) := os.next_fault w in
  if failed then (w, Err ErrIO)
  else match os.files w !! path with
       | Some data => (w, Ok data)
       | None => (w, Err ErrNotExist)
       end.

End osread.

Module strconv.

(** [Atoi]: an optional sign, then one decimal digit or more; the value
    has to fit [int], which has 64 bits. *)
Definition Atoi (s : string) : option Z :=
  let '(neg, digits) :=
    match s with
    | String "+"%char rest => (false, rest)
    | String "-"%char rest => (true, rest)
    | _ => (false, s)
    end in
  if String.eqb digits "" then None
  else
    match NilZero.uint_of_string digits with
    | None => None
    | Some u =>
        let n := Z.of_N (N.of_uint u) in
        let v := if neg then - n else n in
        if (- 2 ^ 63 <=? v) && (v <? 2 ^ 63) then Some v else None
    end.

End strconv.

(** ** Package [index]: the index file *)

Module indexfile.
Import index.

Inductive error := ErrRead | ErrParse (e : index.error).

Definition indexPath (repoPath : string) : string :=
  filepath.Join [repoPath; ".gogit"; "index"].

(** [ReadIndex]: a repository without an index file has the empty
    index. *)
Definition ReadIndex (w : os.World) (repoPath : string)
    : os.World * result error Index :=
  let '(w, r) := osread.ReadFile w (indexPath repoPath) in
  match r with
  | Err osread.ErrNotExist => (w, Ok NewIndex)
  | Err osread.ErrIO => (w, Err ErrRead)
  | Ok data =>
      match parseIndex data with
      | Ok idx => (w, Ok idx)
      | Err e => (w, Err (ErrParse e))
      end
  end.

(** The method [Write] with its file: the index as the call leaves it
    (sorted in place, also when the file cannot be written) and whether
    [err == nil]. *)
Definition WriteFile (sort_Slice : sorter) (w : os.World) (idx : Index)
    (repoPath : string) : os.World * Index * bool :=
  let '(idx, buf) := Write sort_Slice idx in
  let '(w, ok) := os.WriteFile w (indexPath repoPath) buf in
  (w, idx, ok).

End indexfile.

(** ** Package [object]: reading *)

Module objectread.
Import object.

Inductive tree_error := ErrNoSpace | ErrNoNull | ErrTruncatedHash.

(** The loop of [ParseTree] from [pos]; every turn moves [pos] forward,
    so the length of the content bounds the number of turns, and [None]
    is a loop that has not ended within [fuel] turns. *)
Fixpoint ParseTree_loop (fuel : nat) (content : list byte) (pos : nat)
    (tree : Tree) : option (result tree_error Tree) :=
  if (pos <? length content)%nat then
    match fuel with
    | O => None
    | S fuel' =>
        match index.IndexByte (skipn pos content) x20 with
        | None => Some (Err ErrNoSpace)
        | Some spaceIdx =>
            let mode := string_of_list_byte (index.slice content pos (pos + spaceIdx)) in
            let pos := (pos + (spaceIdx + 1))%nat in
            match index.IndexByte (skipn pos content) x00 with
            | None => Some (Err ErrNoNull)
            | Some nullIdx =>
                let name := string_of_list_byte (index.slice content pos (pos + nullIdx)) in
                let pos := (pos + (nullIdx + 1))%nat in
                if (length content <? pos + 20)%nat then Some (Err ErrTruncatedHash)
                else
                  let hash := EncodeToString (index.slice content pos (pos + 20)) in
                  let pos := (pos + 20)%nat in
                  ParseTree_loop fuel' content pos
                    (mkTree (Entries tree ++ [mkTreeEntry mode name hash]))
            end
        end
    end
  else Some (Ok tree).

Definition ParseTree (content : list byte) : option (result tree_error Tree) :=
  ParseTree_loop (length content) content 0 NewTree.

(** [GetEntryByName]: the first entry of the name. *)
Fixpoint GetEntryByName_in (entries : list TreeEntry) (name : string)
    : option TreeEntry :=
  match entries with
  | [] => None
  | e :: rest => if String.eqb (Name e) name then Some e else GetEntryByName_in rest name
  end.

Definition GetEntryByName (t : Tree) (name : string) : option TreeEntry :=
  GetEntryByName_in (Entries t) name.

(** The bytes [Content] writes for one entry. *)
Definition tree_entry_bytes (e : TreeEntry) : list byte := write_tree_entry [] e.

(** An entry that the format can hold: a mode without a space, a name
    without a zero byte and a hash of 40 lower-case hexadecimal digits. *)
Definition wf_TreeEntry (e : TreeEntry) : Prop :=
  ~ In x20 (list_byte_of_string (Mode e)) /\
  index.nul_free (Name e) /\
  hex_pairs (Hash e) = true /\
  String.length (Hash e) = 40%nat.

Section Read.
(** [zlib]'s reader, and the commit parser with its types. *)
Variable inflate : list byte -> option (list byte).
Variable Commit : Type.
Variable commit_error : Type.
Variable ParseCommit : list byte -> result commit_error Commit.

(** The objects behind the interface [Object] that the parser returns. *)
Inductive parsed :=
| ParsedBlob (b : Blob)
| ParsedTree (t : Tree)
| ParsedCommit (c : Commit).

Inductive parse_error :=
| ErrNoNullByte
| ErrHeader (header : string)
| ErrSize (sizeStr : string)
| ErrSizeMismatch (size len : Z)
| ErrUnknownType (objType : string)
| ErrTree (e : tree_error)
| ErrCommit (e : commit_error).

(** The header of a raw object: type and size. *)
Definition parse_header (header : list byte) : result parse_error (string * Z) :=
  match index.IndexByte header x20 with
  | None => Err (ErrHeader (string_of_list_byte header))
  | Some spaceIdx =>
      let objType := string_of_list_byte (firstn spaceIdx header) in
      let sizeStr := string_of_list_byte (skipn (spaceIdx + 1) header) in
      match strconv.Atoi sizeStr with
      | None => Err (ErrSize sizeStr)
      | Some size => Ok (objType, size)
      end
  end.

(** [ParseObject]; [None] is a tree parser that has not returned. *)
Definition ParseObject (data : list byte) : option (result parse_error parsed) :=
  match index.IndexByte data x00 with
  | None => Some (Err ErrNoNullByte)
  | Some nullIdx =>
      let header := firstn nullIdx data in
      let content := skipn (nullIdx + 1) data in
      match parse_header header with
      | Err e => Some (Err e)
      | Ok (objType, size) =>
          if negb (Z.of_nat (length content) =? size)
          then Some (Err (ErrSizeMismatch size (Z.of_nat (length content))))
          else if String.eqb objType TypeBlob then Some (Ok (ParsedBlob (mkBlob content)))
          else if String.eqb objType TypeTree then
            match ParseTree content with
            | None => None
            | Some (Ok t) => Some (Ok (ParsedTree t))
            | Some (Err e) => Some (Err (ErrTree e))
            end
          else if String.eqb objType TypeCommit then
            match ParseCommit content with
            | Ok c => Some (Ok (ParsedCommit c))
            | Err e => Some (Err (ErrCommit e))
            end
          else Some (Err (ErrUnknownType objType))
      end
  end.

Inductive error :=
| ErrHashTooShort
| ErrReadFile
| ErrDecompress
| ErrParse (e : parse_error).

Definition objPath (repoPath hash : string) : string :=
  filepath.Join [repoPath; ".gogit"; "objects"; String.substring 0 2 hash;
                 String.substring 2 (String.length hash - 2) hash].

Definition ReadObject (w : os.World) (repoPath hash : string)
    : os.World * option (result error parsed) :=
  if (String.length hash <? 4)%nat then (w, Some (Err ErrHashTooShort))
  else
    let '(w, r) := osread.ReadFile w (objPath repoPath hash) in
    match r with
    | Err _ => (w, Some (Err ErrReadFile))
    | Ok compressed =>
        match inflate compressed with
        | None => (w, Some (Err ErrDecompress))
        | Some data =>
            match ParseObject data with
            | None => (w, None)
            | Some (Ok obj) => (w, Some (Ok obj))
            | Some (Err e) => (w, Some (Err (ErrParse e)))
            end
        end
    end.

(** [GetObjectInfo] slices the hash without a look at its length: a
    hash of fewer than two bytes panics, which is [None]. *)
Definition GetObjectInfo (w : os.World) (repoPath hash : string)
    : os.World * option (result error (string * Z)) :=
  if (String.length hash <? 2)%nat then (w, None)
  else
    let '(w, r) := osread.ReadFile w (objPath repoPath hash) in
    match r with
    | Err _ => (w, Some (Err ErrReadFile))
    | Ok compressed =>
        match inflate compressed with
        | None => (w, Some (Err ErrDecompress))
        | Some data =>
            match index.IndexByte data x00 with
            | None => (w, Some (Err (ErrParse ErrNoNullByte)))
            | Some nullIdx =>
                match parse_header (firstn nullIdx data) with
                | Err e => (w, Some (Err (ErrParse e)))
                | Ok info => (w, Some (Ok info))
                end
            end
        end
    end.

(** The type of a parsed object, as its method [Type] gives it. *)
Definition type_of (obj : parsed) : string :=
  match obj with
  | ParsedBlob _ => TypeBlob
  | ParsedTree _ => TypeTree
  | ParsedCommit _ => TypeCommit
  end.

End Read.

Arguments ParsedBlob {Commit} b.
Arguments ParsedTree {Commit} t.
Arguments ParsedCommit {Commit} c.
Arguments ErrNoNullByte {commit_error}.
Arguments ErrHeader {commit_error} header.
Arguments ErrSize {commit_error} sizeStr.
Arguments ErrSizeMismatch {commit_error} size len.
Arguments ErrUnknownType {commit_error} objType.
Arguments ErrTree {commit_error} e.
Arguments ErrCommit {commit_error} e.
Arguments ErrHashTooShort {commit_error}.
Arguments ErrReadFile {commit_error}.
Arguments ErrDecompress {commit_error}.
Arguments ErrParse {commit_error} e.
Arguments parse_header {commit_error} header.
Arguments ParseObject {Commit commit_error} ParseCommit data.
Arguments ReadObject inflate {Commit commit_error} ParseCommit w repoPath hash.
Arguments GetObjectInfo inflate {commit_error} w repoPath hash.
Arguments type_of {Commit} obj.

End objectread.

(** ** Further examples *)

Module samples.

(** A tree of two files, added out of order. *)
Definition sample_tree : object.Tree :=
  object.AddEntry
    (object.AddEntry object.NewTree "100644" "b.txt"
                     "9daeafb9864cf43055ae93beb0afd6c7d144bfa4")
    "100755" "a.txt" "78981922613b2afb6025042ff6bd878ac1994e85".

(** A commit parser that refuses everything. *)
Definition parse_none (content : list byte) : result unit unit := Err tt.

(** The id of [examples.test_blob] and the world after it was written
    to an empty store. *)
Definition test_id : string := "9daeafb9864cf43055ae93beb0afd6c7d144bfa4".

Definition written : os.World :=
  fst (object.WriteObject (H := object.Blob_Object) examples.stored
         examples.empty_world "repo" examples.test_blob).


End samples.

Module diffmore.
Import diff.

(** The line a change stands for: an equal change its line on both
    sides, an insert its new line and no old line, a delete its old line
    and no new line, numbered from 1. *)
Definition numbered (oldLines newLines : list string) (c : Change) : Prop :=
  match Type_ c with
  | ChangeEqual =>
      1 <= OldLine c <= Z.of_nat (length oldLines) /\
      1 <= NewLine c <= Z.of_nat (length newLines) /\
      Text c = line oldLines (Z.to_nat (OldLine c - 1)) /\
      Text c = line newLines (Z.to_nat (NewLine c - 1))
  | ChangeInsert =>
      OldLine c = 0 /\
      1 <= NewLine c <= Z.of_nat (length newLines) /\
      Text c = line newLines (Z.to_nat (NewLine c - 1))
  | ChangeDelete =>
      NewLine c = 0 /\
      1 <= OldLine c <= Z.of_nat (length oldLines) /\
      Text c = line oldLines (Z.to_nat (OldLine c - 1))
  end.

(** The old and the new line numbers of a change list, in order. *)
Definition old_numbers (cs : list Change) : list Z :=
  flat_map (fun c => match Type_ c with
                     | ChangeInsert => []
                     | _ => [OldLine c]
                     end) cs.

Definition new_numbers (cs : list Change) : list Z :=
  flat_map (fun c => match Type_ c with
                     | ChangeDelete => []
                     | _ => [NewLine c]
                     end) cs.


(** The lines a change list keeps: the texts of its equal changes. *)
Definition kept (cs : list Change) : list string :=
  map Text (List.filter (fun c => ChangeType_eqb (Type_ c) ChangeEqual) cs).

(** The recurrence that [diffLines] fills its table with, as a function
    of the cell. *)
Fixpoint lcs_len (oldLines newLines : list string) (i : nat) : nat -> Z :=
  match i with
  | O => fun _ => 0
  | S i' =>
      fix row (j : nat) : Z :=
        match j with
        | O => 0
        | S j' =>
            if String.eqb (line oldLines i') (line newLines j')
            then lcs_len oldLines newLines i' j' + 1
            else max (lcs_len oldLines newLines i' j) (row j')
        end
  end.

(** The table while it is filled, before the cell [(i, j)] is written:
    it has its [m+1] rows of [n+1] cells, and the cells of the rows
    above [i], of row [i] left of [j] and of column 0 hold the value of
    the recurrence. *)
Definition filled (oldLines newLines : list string) (lcs : table)
    (i j : nat) : Prop :=
  length lcs = S (length oldLines) /\
  (forall a : nat, (a <= length oldLines)%nat ->
                   length (nth a lcs []) = S (length newLines)) /\
  (forall a b : nat,
      (a <= length oldLines)%nat -> (b <= length newLines)%nat ->
      (a < i \/ (a = i /\ b < j) \/ b = 0)%nat ->
      at2 lcs a b = lcs_len oldLines newLines a b).



End diffmore.

(* ===================================================================== *)
(** * Part II: theorems                                                   *)
(* ===================================================================== *)

Example sha1_abc :
  EncodeToString (sha1.Sum (list_byte_of_string "abc"))
  = "a9993e364706816aba3e25717850c26c9cd0d89d"%string.
Proof. vm_compute. reflexivity. Qed.

Example sha1_empty :
  EncodeToString (sha1.Sum [])
  = "da39a3ee5e6b4b0d3255bfef95601890afd80709"%string.
Proof. vm_compute. reflexivity. Qed.

Example sha1_two_blocks :
  EncodeToString (sha1.Sum (list_byte_of_string
    "abcdbcdecdefdefgefghfghighijhijkijkljklmklmnlmnomnopnopq"))
  = "84983e441c3bd26ebaae4aa1f95129e5e54670f1"%string.
Proof. vm_compute. reflexivity. Qed.

Example fmt_o_regular : fmt_o 33188 = "100644"%string.
Proof. vm_compute. reflexivity. Qed.

Example fmt_o_zero : fmt_o 0 = "0"%string.
Proof. vm_compute. reflexivity. Qed.

(** ** The line diff *)

Section DiffFacts.
Import diff diffspec.

Lemma old_side_app (xs ys : list Change) :
  old_side (xs ++ ys) = old_side xs ++ old_side ys.
Proof. apply flat_map_app. Qed.

Lemma new_side_app (xs ys : list Change) :
  new_side (xs ++ ys) = new_side xs ++ new_side ys.
Proof. apply flat_map_app. Qed.

Lemma take_S_line (ls : list string) (i : nat) :
  (i < length ls)%nat -> firstn (S i) ls = firstn i ls ++ [line ls i].
Proof.
  revert i. induction ls as [|l ls IH]; intros i Hi; simpl in Hi; [lia|].
  destruct i as [|i]; [reflexivity|].
  change (l :: firstn (S i) ls = l :: (firstn i ls ++ [line ls i])).
  f_equal. apply IH. lia.
Qed.

(** Each iteration of the backtracking loop accounts for one more line of
    the old prefix, of the new prefix, or of both, whatever the table
    holds. *)
Lemma backtrack_sides (lcs : table) (oldLines newLines : list string) :
  forall i j : nat,
    (i <= length oldLines)%nat -> (j <= length newLines)%nat ->
    old_side (rev (backtrack lcs oldLines newLines i j)) = firstn i oldLines /\
    new_side (rev (backtrack lcs oldLines newLines i j)) = firstn j newLines.
Proof.
  induction i as [|i IHi].
  - induction j as [|j IHj]; intros Hi Hj; [split; reflexivity|].
    destruct IHj as [Ho Hn]; [lia..|].
    cbn [backtrack] in *. cbn [rev].
    rewrite old_side_app, new_side_app, Ho, Hn, (take_S_line newLines) by lia.
    cbn. split; reflexivity.
  - induction j as [|j IHj]; intros Hi Hj.
    + destruct (IHi O) as [Ho Hn]; [lia..|].
      cbn [backtrack rev].
      rewrite old_side_app, new_side_app, Ho, Hn, (take_S_line oldLines) by lia.
      cbn. split; [reflexivity|]. now rewrite app_nil_r.
    + cbn [backtrack].
      destruct (String.eqb (line oldLines i) (line newLines j)) eqn:Heq.
      * apply String.eqb_eq in Heq.
        destruct (IHi j) as [Ho Hn]; [lia..|].
        cbn [rev].
        rewrite old_side_app, new_side_app, Ho, Hn,
          (take_S_line oldLines), (take_S_line newLines) by lia.
        cbn. rewrite Heq. split; reflexivity.
      * destruct (at2 lcs (S i) j >=? at2 lcs i (S j)).
        -- destruct IHj as [Ho Hn]; [lia..|].
           cbn [backtrack] in Ho, Hn. cbn [rev].
           rewrite old_side_app, new_side_app, Ho, Hn,
             (take_S_line newLines) by lia.
           cbn. split; [|reflexivity]. now rewrite app_nil_r.
        -- destruct (IHi (S j)) as [Ho Hn]; [lia..|].
           cbn [rev].
           rewrite old_side_app, new_side_app, Ho, Hn,
             (take_S_line oldLines) by lia.
           cbn. split; [reflexivity|]. now rewrite app_nil_r.
Qed.

Lemma diffLines_sides (oldLines newLines : list string) :
  old_side (diffLines oldLines newLines) = oldLines /\
  new_side (diffLines oldLines newLines) = newLines.
Proof.
  unfold diffLines.
  destruct (backtrack_sides (fill_table oldLines newLines) oldLines newLines
              (length oldLines) (length newLines)) as [Ho Hn]; [lia..|].
  rewrite Ho, Hn, !firstn_all. split; reflexivity.
Qed.

Lemma applyChanges_sides (cs : list Change) :
  forall rest : list string,
    applyChanges cs (old_side cs ++ rest) = Some (new_side cs ++ rest).
Proof.
  induction cs as [|c cs IH]; intros rest; [reflexivity|].
  unfold old_side, new_side in *. cbn [flat_map applyChanges].
  destruct (Type_ c); cbn.
  - now rewrite String.eqb_refl, IH.
  - now rewrite IH.
  - now rewrite String.eqb_refl, IH.
Qed.

Lemma old_side_length (cs : list Change) :
  length (old_side cs) = (count ChangeEqual cs + count ChangeDelete cs)%nat.
Proof.
  unfold count, old_side.
  induction cs as [|c cs IH]; [reflexivity|].
  cbn [flat_map List.filter]. rewrite length_app, IH.
  destruct (Type_ c); cbn; lia.
Qed.

Lemma new_side_length (cs : list Change) :
  length (new_side cs) = (count ChangeEqual cs + count ChangeInsert cs)%nat.
Proof.
  unfold count, new_side.
  induction cs as [|c cs IH]; [reflexivity|].
  cbn [flat_map List.filter]. rewrite length_app, IH.
  destruct (Type_ c); cbn; lia.
Qed.

(** C1. Applying the change list of [Diff A B] to the lines of [A], in
    order, gives the lines of [B]; the same holds of [diffLines] on any
    two line sequences. *)
Theorem Diff_apply_reconstructs :
  (forall oldLines newLines : list string,
      applyChanges (diffLines oldLines newLines) oldLines = Some newLines) /\
  (forall A B : string, applyChanges (Diff A B) (Split A) = Some (Split B)).
Proof.
  assert (H : forall oldLines newLines : list string,
             applyChanges (diffLines oldLines newLines) oldLines = Some newLines).
  { intros oldLines newLines.
    destruct (diffLines_sides oldLines newLines) as [Ho Hn].
    pose proof (applyChanges_sides (diffLines oldLines newLines) []) as Ha.
    now rewrite Ho, Hn, !app_nil_r in Ha. }
  split; [exact H|]. intros A B. apply H.
Qed.

(** C10. The equal and delete changes of a diff number the old lines, the
    equal and insert changes number the new lines, and the diff of two
    empty texts is the single equal change of the empty line. *)
Theorem diffLines_counts :
  (forall oldLines newLines : list string,
      (count ChangeEqual (diffLines oldLines newLines)
       + count ChangeDelete (diffLines oldLines newLines))%nat = length oldLines /\
      (count ChangeEqual (diffLines oldLines newLines)
       + count ChangeInsert (diffLines oldLines newLines))%nat = length newLines) /\
  Diff "" "" = [mkChange ChangeEqual 1 1 ""].
Proof.
  split; [|reflexivity].
  intros oldLines newLines.
  destruct (diffLines_sides oldLines newLines) as [Ho Hn].
  rewrite <- old_side_length, <- new_side_length, Ho, Hn. split; reflexivity.
Qed.

End DiffFacts.

(** ** Rendering of a diff *)

Section FormatFacts.
Import diff diffspec.

Lemma append_assoc (a b c : string) : (a +:+ b) +:+ c = a +:+ (b +:+ c).
Proof. induction a as [|x a IH]; [reflexivity|]. exact (f_equal (String x) IH). Qed.

Lemma append_nil_r (a : string) : a +:+ "" = a.
Proof. induction a as [|x a IH]; [reflexivity|]. exact (f_equal (String x) IH). Qed.

Lemma concat_nil_cons (x : string) (xs : list string) :
  String.concat "" (x :: xs) = x +:+ String.concat "" xs.
Proof. destruct xs; [exact (eq_sym (append_nil_r x))|reflexivity]. Qed.

Lemma write_change_line (sb : string) (c : Change) :
  write_change sb c = sb +:+ coloured_line c.
Proof.
  unfold write_change, coloured_line, WriteString.
  destruct (Type_ c); reflexivity.
Qed.

Lemma fold_write_change (hunk : list Change) :
  forall sb : string,
    fold_left write_change hunk sb
    = sb +:+ String.concat "" (map coloured_line hunk).
Proof.
  induction hunk as [|c hunk IH]; intros sb.
  - cbn. now rewrite append_nil_r.
  - cbn [fold_left map]. rewrite IH, write_change_line, concat_nil_cons.
    apply append_assoc.
Qed.

Lemma write_hunk_text (sb : string) (hunk : list Change) :
  write_hunk sb hunk
  = sb +:+ range_header hunk +:+ String.concat "" (map coloured_line hunk).
Proof.
  unfold write_hunk, range_header, WriteString.
  destruct (hunkHeader hunk) as [[[oldStart oldCount] newStart] newCount].
  rewrite fold_write_change. apply append_assoc.
Qed.

Lemma fold_write_hunk (hs : list (list Change)) :
  forall sb : string,
    fold_left write_hunk hs sb
    = sb +:+ String.concat ""
        (map (fun hunk => range_header hunk
                          +:+ String.concat "" (map coloured_line hunk)) hs).
Proof.
  induction hs as [|h hs IH]; intros sb.
  - cbn. now rewrite append_nil_r.
  - cbn [fold_left map]. rewrite IH, write_hunk_text, concat_nil_cons.
    now rewrite !append_assoc.
Qed.

(** C6. The diff of the texts a/b/c and a/x/c is equal a, delete b,
    insert x, equal c, it forms one hunk, and the hunk is rendered under
    the range header [@@ -1,3 +1,3 @@]. *)
Theorem Diff_abc_axc :
  let A := "a" +:+ eol +:+ "b" +:+ eol +:+ "c" in
  let B := "a" +:+ eol +:+ "x" +:+ eol +:+ "c" in
  Diff A B = [mkChange ChangeEqual 1 1 "a"; mkChange ChangeDelete 2 0 "b";
              mkChange ChangeInsert 0 2 "x"; mkChange ChangeEqual 3 3 "c"] /\
  map hunkHeader (groupIntoHunks (Diff A B) 3) = [(1, 3, 1, 3)] /\
  forall oldName newName : string,
    Format oldName newName (Diff A B)
    = "--- a/" +:+ oldName +:+ eol +:+ "+++ b/" +:+ newName +:+ eol +:+
      "@@ -1,3 +1,3 @@" +:+ eol +:+
      " a" +:+ eol +:+
      String ESC "[31m-b" +:+ String ESC "[0m" +:+ eol +:+
      String ESC "[32m+x" +:+ String ESC "[0m" +:+ eol +:+
      " c" +:+ eol.
Proof.
  cbv zeta. split; [vm_compute; reflexivity|].
  split; [vm_compute; reflexivity|].
  intros oldName newName. unfold Format. rewrite fold_write_hunk.
  unfold WriteString. rewrite !append_assoc.
  vm_compute. reflexivity.
Qed.

(** C7, as the program renders it. The output is the two name lines and
    then, per hunk, the range header and the hunk's lines; an equal line
    is a space and the text, and an inserted or deleted line is its sign
    and text between a colour sequence (ESC[32m or ESC[31m) and the
    reset sequence ESC[0m. *)
Theorem Format_rendering :
  (forall (oldName newName : string) (changes : list Change),
      Format oldName newName changes
      = rendering coloured_line oldName newName changes) /\
  (forall c : Change, Type_ c = ChangeEqual ->
      coloured_line c = " " +:+ Text c +:+ eol) /\
  (forall c : Change, Type_ c = ChangeInsert ->
      coloured_line c
      = String ESC "[32m" +:+ "+" +:+ Text c +:+ String ESC "[0m" +:+ eol) /\
  (forall c : Change, Type_ c = ChangeDelete ->
      coloured_line c
      = String ESC "[31m" +:+ "-" +:+ Text c +:+ String ESC "[0m" +:+ eol).
Proof.
  split.
  - intros oldName newName changes. unfold Format, rendering.
    rewrite fold_write_hunk. unfold WriteString.
    rewrite !append_assoc. reflexivity.
  - repeat split; intros c Hc; unfold coloured_line; rewrite Hc; reflexivity.
Qed.

(** The witness of C7: the diff of the one-line texts a and b. *)
Lemma Format_rendering_witness :
  Format "f" "f" (Diff "a" "b") = rendering coloured_line "f" "f" (Diff "a" "b") /\
  coloured_line (mkChange ChangeInsert 0 1 "b")
  = String ESC "[32m" +:+ "+" +:+ "b" +:+ String ESC "[0m" +:+ eol.
Proof.
  split.
  - apply (proj1 Format_rendering).
  - apply (proj1 (proj2 (proj2 Format_rendering))). reflexivity.
Defined.

(** C7 as the specification words it fails: an inserted line does not
    start with its sign. *)
Lemma Format_not_plain :
  Format "f" "f" (Diff "a" "b") <> rendering plain_line "f" "f" (Diff "a" "b").
Proof.
  apply String.eqb_neq. vm_compute. reflexivity.
Qed.

End FormatFacts.

(** ** Hashing *)

Section HashFacts.

Lemma EncodeToString_length (bs : list byte) :
  String.length (EncodeToString bs) = (2 * length bs)%nat.
Proof. induction bs as [|b bs IH]; [reflexivity|]. cbn. rewrite IH. lia. Qed.

Lemma Sum_length (data : list byte) : length (sha1.Sum data) = 20%nat.
Proof. reflexivity. Qed.

(** C5. The id of an object is the hexadecimal SHA-1 digest, 40
    characters wide, of the type, a space, the decimal length, a zero
    byte and the content; the blob of the line "test" has the id of the
    README. *)
Theorem HashObject_frame_digest :
  (forall (objType : string) (content : list byte),
      utils.HashObject objType content
      = EncodeToString
          (sha1.Sum (list_byte_of_string
                       (objType +:+ " " +:+ fmt_d (Z.of_nat (length content))
                        +:+ String NUL "")
                     ++ content))) /\
  (forall (objType : string) (content : list byte),
      String.length (utils.HashObject objType content) = 40%nat) /\
  utils.HashObject "blob" (list_byte_of_string ("test" +:+ String LF ""))
  = "9daeafb9864cf43055ae93beb0afd6c7d144bfa4".
Proof.
  split; [reflexivity|]. split.
  - intros objType content. unfold utils.HashObject.
    now rewrite EncodeToString_length, Sum_length.
  - vm_compute. reflexivity.
Qed.

End HashFacts.

(** ** The staging index as a path-keyed map *)

Section IndexMapFacts.
Import index.

Lemma update_paths_in (entries : list Entry) (entry : Entry) (p : string) :
  In p (map Path (update entries entry)) ->
  p = Path entry \/ In p (map Path entries).
Proof.
  induction entries as [|e rest IH]; cbn.
  - intros [H|[]]; auto.
  - destruct (String.eqb (Path e) (Path entry)) eqn:He; cbn.
    + intros [H|H]; auto.
    + intros [H|H]; auto. destruct (IH H); auto.
Qed.

Lemma update_NoDup (entries : list Entry) (entry : Entry) :
  List.NoDup (map Path entries) -> List.NoDup (map Path (update entries entry)).
Proof.
  induction entries as [|e rest IH]; cbn; intros Hnd.
  - constructor; [intros []|constructor].
  - apply List.NoDup_cons_iff in Hnd as [Hnotin Hnd].
    destruct (String.eqb (Path e) (Path entry)) eqn:He; cbn.
    + apply String.eqb_eq in He. rewrite <- He. now constructor.
    + apply String.eqb_neq in He. constructor; [|now apply IH].
      intros Hin. apply update_paths_in in Hin as [Hin|Hin]; auto.
Qed.

Lemma update_lookup (entries : list Entry) (entry : Entry) :
  List.NoDup (map Path entries) ->
  List.filter (fun x => String.eqb (Path x) (Path entry)) (update entries entry)
  = [entry].
Proof.
  induction entries as [|e rest IH]; cbn; intros Hnd.
  - now rewrite String.eqb_refl.
  - apply List.NoDup_cons_iff in Hnd as [Hnotin Hnd].
    destruct (String.eqb (Path e) (Path entry)) eqn:He; cbn.
    + rewrite String.eqb_refl. f_equal.
      apply String.eqb_eq in He.
      clear IH Hnd. induction rest as [|x rest IH]; [reflexivity|].
      cbn in *. destruct (String.eqb (Path x) (Path entry)) eqn:Hx.
      * apply String.eqb_eq in Hx. exfalso. apply Hnotin. left. congruence.
      * apply IH. intros Hin. apply Hnotin. now right.
    + rewrite He. now apply IH.
Qed.

Lemma update_others (entries : list Entry) (entry x : Entry) :
  Path x <> Path entry -> (In x (update entries entry) <-> In x entries).
Proof.
  intros Hne. induction entries as [|e rest IH]; cbn.
  - split; [intros [H|[]]; congruence|intros []].
  - destruct (String.eqb (Path e) (Path entry)) eqn:He; cbn.
    + apply String.eqb_eq in He. split; intros [H|H]; auto; congruence.
    + rewrite IH. reflexivity.
Qed.

Lemma remove_paths_in (entries : list Entry) (path p : string) :
  In p (map Path (remove entries path)) -> In p (map Path entries).
Proof.
  induction entries as [|e rest IH]; cbn; [auto|].
  destruct (String.eqb (Path e) path); cbn; [auto|].
  intros [H|H]; auto.
Qed.

Lemma remove_NoDup (entries : list Entry) (path : string) :
  List.NoDup (map Path entries) -> List.NoDup (map Path (remove entries path)).
Proof.
  induction entries as [|e rest IH]; cbn; intros Hnd; [constructor|].
  apply List.NoDup_cons_iff in Hnd as [Hnotin Hnd].
  destruct (String.eqb (Path e) path); cbn; [assumption|].
  constructor; [|now apply IH].
  intros Hin. apply Hnotin. eapply remove_paths_in, Hin.
Qed.

(** C9. On an index with pairwise distinct paths, [UpdateEntry] and
    [RemoveEntry] leave the paths pairwise distinct; after
    [UpdateEntry e] the entries with the path of [e] are [e] alone, and
    the entries of other paths are the ones there were. *)
Theorem index_path_unique (idx : Index) :
  List.NoDup (map Path (Entries idx)) ->
  (forall e : Entry,
      List.NoDup (map Path (Entries (UpdateEntry idx e))) /\
      List.filter (fun x => String.eqb (Path x) (Path e))
                  (Entries (UpdateEntry idx e)) = [e] /\
      (forall x : Entry, Path x <> Path e ->
          (In x (Entries (UpdateEntry idx e)) <-> In x (Entries idx)))) /\
  (forall path : string, List.NoDup (map Path (Entries (RemoveEntry idx path)))).
Proof.
  intros Hnd. split.
  - intros e. split; [now apply update_NoDup|].
    split; [now apply update_lookup|].
    intros x Hx. now apply update_others.
  - intros path. now apply remove_NoDup.
Qed.

End IndexMapFacts.

(** ** What [parseIndex] reads *)

Section ParseReads.
Import index.

Lemma same_upto_le (m m' : nat) (d d' : list byte) :
  same_upto m d d' -> (m' <= m)%nat -> same_upto m' d d'.
Proof.
  unfold same_upto. intros H Hle.
  replace m' with (Nat.min m' m) by lia.
  rewrite <- !firstn_firstn. now rewrite H.
Qed.

Lemma same_upto_length (m : nat) (d d' : list byte) :
  same_upto m d d' -> (m <= length d)%nat -> (m <= length d')%nat.
Proof.
  unfold same_upto. intros H Hle.
  apply (f_equal (@length byte)) in H. rewrite !length_firstn in H. lia.
Qed.

Lemma slice_same (m : nat) (d d' : list byte) (lo hi : nat) :
  same_upto m d d' -> (hi <= m)%nat -> slice d' lo hi = slice d lo hi.
Proof.
  intros H Hle. apply (same_upto_le _ hi) in H; [|assumption].
  unfold same_upto in H. unfold slice.
  destruct (Nat.le_gt_cases lo hi) as [Hlo|Hlo].
  - rewrite !firstn_skipn_comm. replace (lo + (hi - lo))%nat with hi by lia.
    now rewrite H.
  - replace (hi - lo)%nat with O by lia. reflexivity.
Qed.

Lemma Uint32_slice (b : list byte) : Uint32 b = Uint32 (firstn 4 b).
Proof. unfold Uint32, byte_at. now rewrite !nth_firstn. Qed.

Lemma Uint16_slice (b : list byte) : Uint16 b = Uint16 (firstn 2 b).
Proof. unfold Uint16, byte_at. now rewrite !nth_firstn. Qed.

Lemma Uint32_same (m : nat) (d d' : list byte) (k : nat) :
  same_upto m d d' -> (k + 4 <= m)%nat ->
  Uint32 (skipn k d') = Uint32 (skipn k d).
Proof.
  intros H Hle. rewrite (Uint32_slice (skipn k d')), (Uint32_slice (skipn k d)).
  pose proof (slice_same m d d' k (k + 4) H Hle) as Hs. unfold slice in Hs.
  replace (k + 4 - k)%nat with 4%nat in Hs by lia. now rewrite Hs.
Qed.

Lemma Uint16_same (m : nat) (d d' : list byte) (k : nat) :
  same_upto m d d' -> (k + 2 <= m)%nat ->
  Uint16 (skipn k d') = Uint16 (skipn k d).
Proof.
  intros H Hle. rewrite (Uint16_slice (skipn k d')), (Uint16_slice (skipn k d)).
  pose proof (slice_same m d d' k (k + 2) H Hle) as Hs. unfold slice in Hs.
  replace (k + 2 - k)%nat with 2%nat in Hs by lia. now rewrite Hs.
Qed.

Lemma IndexByte_lt (b : list byte) (c : byte) (n : nat) :
  IndexByte b c = Some n -> (n < length b)%nat.
Proof.
  revert n. induction b as [|x b IH]; intros n; cbn; [discriminate|].
  destruct (Byte.eqb x c).
  - intros [= <-]. lia.
  - destruct (IndexByte b c) as [i|]; [|discriminate].
    intros [= <-]. specialize (IH i eq_refl). lia.
Qed.

(** The index of the first [c] only depends on the bytes up to it. *)
Lemma IndexByte_prefix (b b' : list byte) (c : byte) (n : nat) :
  IndexByte b c = Some n -> firstn (S n) b' = firstn (S n) b ->
  IndexByte b' c = Some n.
Proof.
  revert b' n. induction b as [|x b IH]; intros b' n; cbn [IndexByte];
    [discriminate|].
  destruct b' as [|x' b']; [discriminate|].
  cbn [firstn]. intros Hfind [= -> Hrest]. cbn [IndexByte].
  destruct (Byte.eqb x c); [assumption|].
  destruct (IndexByte b c) as [i|] eqn:Hi; [|discriminate].
  injection Hfind as <-. now rewrite (IH b' i eq_refl Hrest).
Qed.

Lemma parse_entry_advances (d : list byte) (pos : nat) (e : Entry) (p : nat) :
  parse_entry d pos = Ok (e, p) -> (pos + 63 <= p)%nat.
Proof.
  unfold parse_entry. destruct (length d <? pos + 62)%nat; [discriminate|].
  destruct (IndexByte (skipn (pos + 62) d) x00) as [n|]; [|discriminate].
  intros [= _ <-]. lia.
Qed.

(** An entry is read from the bytes up to its terminator: a sequence
    with the same bytes up to the end of the entry, or up to the end of
    the data when the padding runs past it, gives the same entry. *)
Lemma parse_entry_same (m : nat) (d d' : list byte) (pos : nat)
    (e : Entry) (p : nat) :
  parse_entry d pos = Ok (e, p) ->
  same_upto m d d' -> (Nat.min p (length d) <= m)%nat ->
  parse_entry d' pos = Ok (e, p).
Proof.
  unfold parse_entry.
  destruct (length d <? pos + 62)%nat eqn:Hlen; [discriminate|].
  apply Nat.ltb_ge in Hlen.
  destruct (IndexByte (skipn (pos + 62) d) x00) as [n|] eqn:Hn; [|discriminate].
  intros Hparse Hsame Hm.
  pose proof (IndexByte_lt _ _ _ Hn) as Hlt. rewrite length_skipn in Hlt.
  assert (Hq : (pos + 62 + (n + 1) <= m)%nat).
  { injection Hparse as _ <-. lia. }
  assert (Hlen' : (pos + 62 + (n + 1) <= length d')%nat).
  { apply (same_upto_length _ d); [|lia].
    eapply same_upto_le; [exact Hsame|exact Hq]. }
  replace (length d' <? pos + 62)%nat with false
    by (symmetry; apply Nat.ltb_ge; lia).
  assert (Hn' : IndexByte (skipn (pos + 62) d') x00 = Some n).
  { apply (IndexByte_prefix (skipn (pos + 62) d)); [assumption|].
    pose proof (slice_same m d d' (pos + 62) (pos + 62 + S n) Hsame) as Hs.
    unfold slice in Hs.
    replace (pos + 62 + S n - (pos + 62))%nat with (S n) in Hs by lia.
    apply Hs. lia. }
  rewrite Hn'.
  rewrite !(Uint32_same m d d') by (assumption || lia).
  rewrite (Uint16_same m d d') by (assumption || lia).
  rewrite !(slice_same m d d') by (assumption || lia).
  exact Hparse.
Qed.

Lemma parse_entries_advances (d : list byte) (count : nat) :
  forall (pos : nat) (acc es : list Entry) (p : nat),
    parse_entries d count pos acc = Ok (es, p) -> (pos <= p)%nat.
Proof.
  induction count as [|count IH]; intros pos acc es p; cbn.
  - intros [= _ <-]. lia.
  - destruct (parse_entry d pos) as [[e p']|] eqn:He; [|discriminate].
    intros H. apply IH in H. apply parse_entry_advances in He. lia.
Qed.

Lemma parse_entries_same (m : nat) (d d' : list byte) (count : nat) :
  forall (pos : nat) (acc es : list Entry) (p : nat),
    parse_entries d count pos acc = Ok (es, p) ->
    same_upto m d d' -> (Nat.min p (length d) <= m)%nat ->
    parse_entries d' count pos acc = Ok (es, p).
Proof.
  induction count as [|count IH]; intros pos acc es p; cbn; [auto|].
  destruct (parse_entry d pos) as [[e p']|] eqn:He; [|discriminate].
  intros H Hsame Hm.
  pose proof (parse_entries_advances _ _ _ _ _ _ H) as Hadv.
  rewrite (parse_entry_same m d d' pos e p' He Hsame) by lia.
  now apply IH.
Qed.

Lemma parseIndex_pos_same (m : nat) (d d' : list byte) (idx : Index) (p : nat) :
  parseIndex_pos d = Ok (idx, p) ->
  same_upto m d d' -> (Nat.min p (length d) <= m)%nat ->
  parseIndex_pos d' = Ok (idx, p).
Proof.
  unfold parseIndex_pos.
  destruct (length d <? 12)%nat eqn:Hlen; [discriminate|].
  apply Nat.ltb_ge in Hlen.
  destruct (negb (String.eqb (string_of_list_byte (slice d 0 4)) IndexSignature))
    eqn:Hsig; [discriminate|].
  destruct (negb (Uint32 (slice d 4 8) =? IndexVersion)) eqn:Hver; [discriminate|].
  destruct (parse_entries d (Z.to_nat (Uint32 (slice d 8 12))) 12 [])
    as [[es p']|] eqn:Hes; [|discriminate].
  intros [= <- <-] Hsame Hm.
  pose proof (parse_entries_advances _ _ _ _ _ _ Hes) as Hadv.
  assert (H12 : (12 <= m)%nat) by lia.
  assert (Hlen' : (12 <= length d')%nat).
  { apply (same_upto_length _ d); [|lia]. eapply same_upto_le; eauto. }
  replace (length d' <? 12)%nat with false by (symmetry; apply Nat.ltb_ge; lia).
  rewrite !(slice_same m d d') by (assumption || lia).
  rewrite Hsig, Hver.
  now rewrite (parse_entries_same m d d' _ _ _ _ _ Hes Hsame Hm).
Qed.

Lemma same_upto_replace_tail (p : nat) (d tail : list byte) :
  same_upto (Nat.min p (length d)) d (firstn p d ++ tail).
Proof.
  unfold same_upto.
  rewrite <- (length_firstn p d) at 1.
  rewrite take_app_length. rewrite <- firstn_firstn.
  now rewrite firstn_all.
Qed.

Lemma string_of_list_byte_length (bs : list byte) :
  String.length (string_of_list_byte bs) = length bs.
Proof.
  unfold string_of_list_byte.
  induction bs as [|b bs IH]; [reflexivity|]. cbn. now f_equal.
Qed.

Lemma parse_entry_size (d : list byte) (pos : nat) (e : Entry) (p : nat) :
  parse_entry d pos = Ok (e, p) -> p = (pos + entry_size e)%nat.
Proof.
  unfold parse_entry. destruct (length d <? pos + 62)%nat; [discriminate|].
  destruct (IndexByte (skipn (pos + 62) d) x00) as [n|] eqn:Hn; [|discriminate].
  apply IndexByte_lt in Hn. rewrite length_skipn in Hn.
  intros [= <- <-]. unfold entry_size. cbn [Path].
  rewrite string_of_list_byte_length. unfold slice.
  rewrite length_firstn, length_skipn.
  replace (Nat.min (pos + 62 + n - (pos + 62)) (length d - (pos + 62))) with n
    by lia.
  repeat match goal with
         | |- context [padding_of ?a] =>
             lazymatch a with
             | (63 + n)%nat => fail
             | _ => replace a with (63 + n)%nat by lia
             end
         end.
  lia.
Qed.

Lemma parse_entries_size (d : list byte) (count : nat) :
  forall (pos : nat) (acc es : list Entry) (p : nat),
    parse_entries d count pos acc = Ok (es, p) ->
    exists new : list Entry,
      es = acc ++ new /\ length new = count /\
      p = (pos + list_sum (map entry_size new))%nat.
Proof.
  induction count as [|count IH]; intros pos acc es p; cbn.
  - intros [= <- <-]. exists []. rewrite app_nil_r. cbn. repeat split; lia.
  - destruct (parse_entry d pos) as [[e p']|] eqn:He; [|discriminate].
    intros H. apply IH in H as (new & -> & Hlen & ->).
    apply parse_entry_size in He as ->.
    exists (e :: new). split; [now rewrite <- app_assoc|].
    split; [cbn; lia|].
    change (list_sum (map entry_size (e :: new)))
      with (entry_size e + list_sum (map entry_size new))%nat.
    lia.
Qed.

(** C8. When [parseIndex] succeeds and its loop stops at position [p],
    after the last entry, every byte sequence with the same bytes before
    [p] parses to the same index, whatever follows: the bytes after the
    entries, the checksum among them, are never read. *)
Theorem parseIndex_ignores_trailer (data : list byte) (idx : Index) (p : nat) :
  parseIndex_pos data = Ok (idx, p) ->
  parseIndex data = Ok idx /\
  p = (12 + list_sum (map entry_size (Entries idx)))%nat /\
  forall tail : list byte, parseIndex (firstn p data ++ tail) = Ok idx.
Proof.
  intros H. unfold parseIndex. rewrite H. split; [reflexivity|]. split.
  - unfold parseIndex_pos in H.
    destruct (length data <? 12)%nat; [discriminate|].
    destruct (negb _); [discriminate|]. destruct (negb _); [discriminate|].
    destruct (parse_entries data _ 12 []) as [[es p']|] eqn:Hes; [|discriminate].
    injection H as <- <-.
    apply parse_entries_size in Hes as (new & -> & _ & ->). reflexivity.
  - intros tail.
    now rewrite (parseIndex_pos_same _ data (firstn p data ++ tail) idx p H
                 (same_upto_replace_tail p data tail) (Nat.le_refl _)).
Qed.

End ParseReads.

(** ** Big-endian words *)

Section WordFacts.

Lemma Z_of_byte_of_Z (z : Z) : Z_of_byte (byte_of_Z z) = z mod 256.
Proof.
  unfold Z_of_byte, byte_of_Z.
  pose proof (Z.mod_pos_bound z 256 eq_refl) as Hb.
  destruct (Byte.of_N (Z.to_N (z mod 256))) as [b|] eqn:Hof.
  - apply Byte.to_of_N in Hof. rewrite Hof. apply Z2N.id. lia.
  - apply Byte.of_N_None_iff in Hof. lia.
Qed.

Lemma testbit_byte (v k n : Z) :
  0 <= k -> 0 <= n ->
  Z.testbit (Z.shiftl ((Z.shiftr v k) mod 256) k) n
  = (k <=? n) && (n <? k + 8) && Z.testbit v n.
Proof.
  intros Hk Hn. rewrite Z.shiftl_spec by assumption.
  destruct (k <=? n) eqn:Hkn; cbn [andb].
  - apply Z.leb_le in Hkn.
    change 256 with (2 ^ 8). rewrite Z.testbit_mod_pow2 by lia.
    rewrite Z.shiftr_spec by lia. replace (n - k + k) with n by lia.
    f_equal. apply eq_iff_eq_true. rewrite !Z.ltb_lt. lia.
  - apply Z.leb_gt in Hkn. apply Z.testbit_neg_r. lia.
Qed.

Lemma Uint32_bytes (b0 b1 b2 b3 : byte) (rest : list byte) :
  Uint32 (b0 :: b1 :: b2 :: b3 :: rest)
  = Z.lor (Z.lor (Z.lor (Z.shiftl (Z_of_byte b0) 24) (Z.shiftl (Z_of_byte b1) 16))
                 (Z.shiftl (Z_of_byte b2) 8)) (Z_of_byte b3).
Proof. reflexivity. Qed.

Lemma Uint32_be32 (v : Z) (rest : list byte) :
  0 <= v < 2 ^ 32 -> Uint32 (be32 v ++ rest) = v.
Proof.
  intros Hv. unfold be32. cbn [app]. rewrite Uint32_bytes, !Z_of_byte_of_Z.
  apply Z.bits_inj'. intros n Hn.
  rewrite !Z.lor_spec.
  rewrite !testbit_byte by lia.
  change 256 with (2 ^ 8). rewrite Z.testbit_mod_pow2 by lia.
  destruct (Z.testbit v n) eqn:Hbit; [|now rewrite !andb_false_r].
  rewrite !andb_true_r.
  assert (n < 32).
  { destruct (Z.lt_ge_cases n 32) as [|Hge]; [assumption|].
    rewrite Z.bits_above_log2 in Hbit; [discriminate|lia|].
    destruct (Z.eq_dec v 0) as [->|]; [now rewrite Z.bits_0 in Hbit|].
    apply Z.log2_lt_pow2; [lia|].
    apply Z.lt_le_trans with (2 ^ 32); [lia|]. apply Z.pow_le_mono_r; lia. }
  repeat match goal with
         | |- context [?a <=? ?b] => destruct (Z.leb_spec a b)
         | |- context [?a <? ?b] => destruct (Z.ltb_spec a b)
         end; cbn; try reflexivity; lia.
Qed.

Lemma Uint16_be16 (v : Z) (rest : list byte) :
  0 <= v < 2 ^ 16 -> Uint16 (be16 v ++ rest) = v.
Proof.
  intros Hv. unfold be16. cbn [app].
  change (Uint16 (byte_of_Z (Z.shiftr v 8) :: byte_of_Z v :: rest))
    with (Z.lor (Z.shiftl (Z_of_byte (byte_of_Z (Z.shiftr v 8))) 8)
                (Z_of_byte (byte_of_Z v))).
  rewrite !Z_of_byte_of_Z.
  apply Z.bits_inj'. intros n Hn.
  rewrite !Z.lor_spec.
  rewrite !testbit_byte by lia.
  change 256 with (2 ^ 8). rewrite Z.testbit_mod_pow2 by lia.
  destruct (Z.testbit v n) eqn:Hbit; [|now rewrite !andb_false_r].
  rewrite !andb_true_r.
  assert (n < 16).
  { destruct (Z.lt_ge_cases n 16) as [|Hge]; [assumption|].
    rewrite Z.bits_above_log2 in Hbit; [discriminate|lia|].
    destruct (Z.eq_dec v 0) as [->|]; [now rewrite Z.bits_0 in Hbit|].
    apply Z.log2_lt_pow2; [lia|].
    apply Z.lt_le_trans with (2 ^ 16); [lia|]. apply Z.pow_le_mono_r; lia. }
  repeat match goal with
         | |- context [?a <=? ?b] => destruct (Z.leb_spec a b)
         | |- context [?a <? ?b] => destruct (Z.ltb_spec a b)
         end; cbn; try reflexivity; lia.
Qed.

End WordFacts.

(** ** Parsing what [Write] wrote *)

Section IndexRoundTrip.
Import index.

Lemma list_byte_of_string_length (s : string) :
  length (list_byte_of_string s) = String.length s.
Proof.
  unfold list_byte_of_string.
  induction s as [|c s IH]; [reflexivity|]. cbn. now f_equal.
Qed.

Lemma IndexByte_first (pre rest : list byte) (c : byte) :
  ~ In c pre -> IndexByte (pre ++ c :: rest) c = Some (length pre).
Proof.
  induction pre as [|x pre IH]; intros Hnot; cbn.
  - now rewrite (Byte.byte_dec_lb (eq_refl c)).
  - destruct (Byte.eqb x c) eqn:Hx.
    + apply Byte.byte_dec_bl in Hx. exfalso. apply Hnot. now left.
    + rewrite IH; [reflexivity|]. intros Hin. apply Hnot. now right.
Qed.

Lemma skipn_after (pre X : list byte) (k : nat) :
  skipn (length pre + k) (pre ++ X) = skipn k X.
Proof.
  rewrite Nat.add_comm, <- skipn_skipn. now rewrite drop_app_length.
Qed.

Lemma write_entry_length (e : Entry) :
  length (Hash e) = 20%nat -> length (write_entry e) = entry_size e.
Proof.
  intros Hh. unfold write_entry, entry_size.
  rewrite !length_app, Hh, list_byte_of_string_length, repeat_length.
  cbn. lia.
Qed.

(** The ten words, the hash and the flags of a record are read back from
    where [Write] put them. *)
Lemma fixed_fields_read (f0 f1 f2 f3 f4 f5 f6 f7 f8 f9 : Z) (h : list byte)
    (fl : Z) (Y : list byte) :
  uint32 f0 -> uint32 f1 -> uint32 f2 -> uint32 f3 -> uint32 f4 ->
  uint32 f5 -> uint32 f6 -> uint32 f7 -> uint32 f8 -> uint32 f9 ->
  length h = 20%nat -> uint16 fl ->
  let X := be32 f0 ++ be32 f1 ++ be32 f2 ++ be32 f3 ++ be32 f4 ++ be32 f5 ++
           be32 f6 ++ be32 f7 ++ be32 f8 ++ be32 f9 ++ h ++ be16 fl ++ Y in
  Uint32 (skipn 0 X) = f0 /\ Uint32 (skipn 4 X) = f1 /\
  Uint32 (skipn 8 X) = f2 /\ Uint32 (skipn 12 X) = f3 /\
  Uint32 (skipn 16 X) = f4 /\ Uint32 (skipn 20 X) = f5 /\
  Uint32 (skipn 24 X) = f6 /\ Uint32 (skipn 28 X) = f7 /\
  Uint32 (skipn 32 X) = f8 /\ Uint32 (skipn 36 X) = f9 /\
  firstn 20 (skipn 40 X) = h /\ Uint16 (skipn 60 X) = fl /\
  skipn 62 X = Y /\ (62 + length Y = length X)%nat.
Proof.
  intros H0 H1 H2 H3 H4 H5 H6 H7 H8 H9 Hh Hfl X.
  assert (H40 : skipn 40 X = h ++ be16 fl ++ Y) by reflexivity.
  assert (H60 : skipn 60 X = be16 fl ++ Y).
  { change 60%nat with (20 + 40)%nat. rewrite <- skipn_skipn, H40, <- Hh.
    apply drop_app_length. }
  repeat split.
  - exact (Uint32_be32 f0 _ H0).
  - exact (Uint32_be32 f1 _ H1).
  - exact (Uint32_be32 f2 _ H2).
  - exact (Uint32_be32 f3 _ H3).
  - exact (Uint32_be32 f4 _ H4).
  - exact (Uint32_be32 f5 _ H5).
  - exact (Uint32_be32 f6 _ H6).
  - exact (Uint32_be32 f7 _ H7).
  - exact (Uint32_be32 f8 _ H8).
  - exact (Uint32_be32 f9 _ H9).
  - rewrite H40, <- Hh. apply take_app_length.
  - rewrite H60. exact (Uint16_be16 fl _ Hfl).
  - change 62%nat with (2 + 60)%nat. rewrite <- skipn_skipn, H60. reflexivity.
  - subst X. rewrite !length_app, Hh. cbn. lia.
Qed.

Lemma skipn_plus (a b : nat) (l : list byte) :
  skipn (a + b) l = skipn b (skipn a l).
Proof. now rewrite skipn_skipn, Nat.add_comm. Qed.

(** One record: the parser reads the entry that was written and stops
    after its padding. *)
Lemma parse_entry_write (pre post : list byte) (e : Entry) :
  wf_Entry e -> nul_free (Path e) ->
  parse_entry (pre ++ write_entry e ++ post) (length pre)
  = Ok (e, (length pre + entry_size e)%nat).
Proof.
  intros [W0 W1 W2 W3 W4 W5 W6 W7 W8 W9 Wh Wf] Hnul.
  set (P := list_byte_of_string (Path e)).
  set (Y := P ++ x00 :: repeat x00 (padding_of (62 + String.length (Path e) + 1))
              ++ post).
  assert (HX : write_entry e ++ post
               = be32 (CTimeSec e) ++ be32 (CTimeNano e) ++ be32 (MTimeSec e) ++
                 be32 (MTimeNano e) ++ be32 (Dev e) ++ be32 (Ino e) ++
                 be32 (Mode e) ++ be32 (UID e) ++ be32 (GID e) ++ be32 (Size e) ++
                 Hash e ++ be16 (Flags e) ++ Y).
  { unfold write_entry, Y, P. now rewrite <- !app_assoc. }
  rewrite HX.
  destruct (fixed_fields_read _ _ _ _ _ _ _ _ _ _ _ _ Y
              W0 W1 W2 W3 W4 W5 W6 W7 W8 W9 Wh Wf)
    as (F0 & F1 & F2 & F3 & F4 & F5 & F6 & F7 & F8 & F9 & Fh & Ffl & FY & Flen).
  set (X := be32 (CTimeSec e) ++ _) in *.
  change (skipn 0 X) with X in F0.
  unfold parse_entry, slice.
  replace (length (pre ++ X) <? length pre + 62)%nat with false
    by (symmetry; apply Nat.ltb_ge; rewrite length_app; lia).
  rewrite !skipn_plus, !drop_app_length.
  rewrite F0, F1, F2, F3, F4, F5, F6, F7, F8, F9, Ffl, FY.
  replace (length pre + 60 - (length pre + 40))%nat with 20%nat by lia.
  rewrite Fh.
  unfold Y at 1. rewrite (IndexByte_first P _ x00 Hnul).
  replace (length pre + 62 + length P - (length pre + 62))%nat
    with (length P) by lia.
  unfold Y. rewrite take_app_length.
  unfold P. rewrite string_of_list_byte_of_string, list_byte_of_string_length.
  destruct e; cbn [Path CTimeSec CTimeNano MTimeSec MTimeNano Dev Ino Mode UID
                   GID Size Hash Flags].
  unfold entry_size. cbn [Path]. do 2 f_equal. lia.
Qed.

(** All records: the parser reads the entries in the order written. *)
Lemma parse_entries_write (es : list Entry) :
  Forall wf_Entry es -> Forall (fun e => nul_free (Path e)) es ->
  forall (pre post : list byte) (acc : list Entry),
    parse_entries (pre ++ flat_map write_entry es ++ post) (length es)
                  (length pre) acc
    = Ok (acc ++ es, (length pre + length (flat_map write_entry es))%nat).
Proof.
  induction es as [|e es IH]; intros Hwf Hnul pre post acc.
  - cbn. now rewrite app_nil_r, Nat.add_0_r.
  - apply Forall_cons_iff in Hwf as [We Hwf].
    apply Forall_cons_iff in Hnul as [Ne Hnul].
    cbn [length parse_entries flat_map]. rewrite <- app_assoc.
    rewrite (parse_entry_write pre _ e We Ne).
    rewrite <- (write_entry_length e (wf_Hash e We)), <- length_app.
    rewrite (app_assoc pre). rewrite (IH Hwf Hnul).
    rewrite <- !app_assoc, !length_app. cbn [app]. f_equal. f_equal. lia.
Qed.

(** The whole file: header, records and any trailer. *)
Lemma parseIndex_pos_body (es : list Entry) (tail : list byte) :
  Forall wf_Entry es -> Forall (fun e => nul_free (Path e)) es ->
  Z.of_nat (length es) < 2 ^ 32 ->
  parseIndex_pos (body es ++ tail) = Ok (mkIndex es, length (body es)).
Proof.
  intros Hwf Hnul Hlen. unfold parseIndex_pos, body.
  set (R := flat_map write_entry es).
  set (n := Z.of_nat (length es)) in *.
  rewrite <- !app_assoc.
  replace (length _ <? 12)%nat with false
    by (symmetry; apply Nat.ltb_ge; rewrite !length_app; cbn; lia).
  change (slice (list_byte_of_string IndexSignature ++ be32 IndexVersion ++
                 be32 n ++ R ++ tail) 0 4)
    with (list_byte_of_string IndexSignature).
  rewrite string_of_list_byte_of_string, String.eqb_refl. cbn [negb].
  change (slice (list_byte_of_string IndexSignature ++ be32 IndexVersion ++
                 be32 n ++ R ++ tail) 4 8)
    with (firstn 4 (be32 IndexVersion ++ be32 n ++ R ++ tail)).
  rewrite <- Uint32_slice, Uint32_be32 by (unfold IndexVersion; lia).
  rewrite Z.eqb_refl. cbn [negb].
  change (slice (list_byte_of_string IndexSignature ++ be32 IndexVersion ++
                 be32 n ++ R ++ tail) 8 12)
    with (firstn 4 (be32 n ++ R ++ tail)).
  rewrite <- Uint32_slice, Uint32_be32 by lia.
  unfold n. rewrite Nat2Z.id.
  pose proof (parse_entries_write es Hwf Hnul
                (list_byte_of_string IndexSignature ++ be32 IndexVersion ++ be32 n)
                tail []) as Hp.
  assert (H12 : length (list_byte_of_string IndexSignature ++ be32 IndexVersion
                        ++ be32 n) = 12%nat) by reflexivity.
  rewrite H12 in Hp.
  rewrite <- !app_assoc in Hp. fold R in Hp. fold n. rewrite Hp.
  reflexivity.
Qed.

End IndexRoundTrip.

(** ** Sorting by a string key *)

Section SortFacts.

Lemma ltb_false_leb (s t : string) :
  String.ltb t s = false <-> String.leb s t = true.
Proof.
  unfold String.ltb, String.leb. rewrite (String.compare_antisym s t).
  destruct (String.compare t s); cbn; intuition congruence.
Qed.

Lemma ltb_irrefl_eq (s t : string) :
  String.ltb s t = false -> String.ltb t s = false -> s = t.
Proof.
  intros H1 H2. apply ltb_false_leb in H1, H2.
  now apply String.leb_antisym.
Qed.

Lemma leb_trans (r s t : string) :
  String.leb r s = true -> String.leb s t = true -> String.leb r t = true.
Proof.
  intros H1 H2. apply Is_true_true. apply Is_true_true in H1, H2.
  change (String.le r t). transitivity s; assumption.
Qed.

Context {A : Type} (key : A -> string).

Local Abbreviation key_le := (key_le key).

Lemma key_le_trans (a b c : A) : key_le a b -> key_le b c -> key_le a c.
Proof.
  unfold key_le, less_by. rewrite !ltb_false_leb. apply leb_trans.
Qed.

Lemma key_le_antisym (a b : A) : key_le a b -> key_le b a -> key a = key b.
Proof. unfold key_le, less_by. intros H1 H2. now apply ltb_irrefl_eq. Qed.

Lemma less_key_le (a b : A) : less_by key a b = true -> key_le a b.
Proof.
  unfold key_le, less_by. intros H. apply ltb_false_leb.
  destruct (String.leb_total (key a) (key b)) as [Hle|Hle]; [assumption|].
  apply ltb_false_leb in Hle. congruence.
Qed.

(** Two key-sorted arrangements of the same elements are the same list
    when the keys are pairwise distinct. *)
Lemma sorted_unique (l1 : list A) :
  forall l2 : list A,
    Permutation l1 l2 -> List.NoDup (map key l1) ->
    StronglySorted key_le l1 -> StronglySorted key_le l2 -> l1 = l2.
Proof.
  induction l1 as [|a l1 IH]; intros l2 Hp Hnd Hs1 Hs2.
  - apply Permutation_nil in Hp. now subst.
  - destruct l2 as [|b l2];
      [apply Permutation_sym, Permutation_nil in Hp; discriminate|].
    apply StronglySorted_inv in Hs1 as [Hs1 Ha].
    apply StronglySorted_inv in Hs2 as [Hs2 Hb].
    apply List.NoDup_cons_iff in Hnd as [Hnotin Hnd].
    assert (Hab : a = b).
    { assert (Hin_a : In a (b :: l2))
        by (eapply Permutation_in; [exact Hp|now left]).
      assert (Hin_b : In b (a :: l1))
        by (eapply Permutation_in; [apply Permutation_sym, Hp|now left]).
      destruct Hin_a as [->|Hin_a]; [reflexivity|].
      destruct Hin_b as [->|Hin_b]; [reflexivity|].
      exfalso. apply Hnotin.
      rewrite (key_le_antisym a b).
      - now apply in_map.
      - rewrite List.Forall_forall in Ha. now apply Ha.
      - rewrite List.Forall_forall in Hb. now apply Hb. }
    subst b. f_equal. apply IH; try assumption.
    now apply Permutation_cons_inv in Hp.
Qed.

Lemma insert_sorted_perm (x : A) (l : list A) :
  Permutation (insert_sorted (less_by key) x l) (x :: l).
Proof.
  induction l as [|y l IH]; cbn; [reflexivity|].
  destruct (less_by key x y); [reflexivity|].
  rewrite IH. apply perm_swap.
Qed.

Lemma insert_sorted_sorted (x : A) (l : list A) :
  StronglySorted key_le l ->
  StronglySorted key_le (insert_sorted (less_by key) x l).
Proof.
  induction l as [|y l IH]; intros Hs; cbn.
  - constructor; constructor.
  - apply StronglySorted_inv in Hs as [Hs Hy].
    destruct (less_by key x y) eqn:Hxy.
    + constructor; [now constructor|].
      apply less_key_le in Hxy. constructor; [assumption|].
      eapply List.Forall_impl; [|exact Hy].
      intros z Hz. now apply (key_le_trans x y z).
    + constructor; [now apply IH|].
      eapply Permutation_Forall; [apply Permutation_sym, insert_sorted_perm|].
      constructor; assumption.
Qed.

End SortFacts.

Lemma insertion_sort_contract : sort_contract insertion_sort.
Proof.
  intros A key l. unfold insertion_sort. split.
  - induction l as [|x l IH]; cbn; [reflexivity|].
    rewrite insert_sorted_perm. now constructor.
  - induction l as [|x l IH]; cbn; [constructor|].
    now apply (insert_sorted_sorted key).
Qed.

(** A sorter leaves a key-sorted list with distinct keys as it is, and
    sorts rearrangements of it to the same list. *)
Lemma sort_Slice_perm_eq (sort_Slice : sorter) {A : Type} (key : A -> string)
    (l1 l2 : list A) :
  sort_contract sort_Slice ->
  Permutation l1 l2 -> List.NoDup (map key l1) ->
  sort_Slice A (less_by key) l1 = sort_Slice A (less_by key) l2.
Proof.
  intros Hc Hp Hnd.
  destruct (Hc A key l1) as [Hp1 Hs1]. destruct (Hc A key l2) as [Hp2 Hs2].
  apply (sorted_unique key); try assumption.
  - rewrite Hp1, Hp. now apply Permutation_sym.
  - eapply Permutation_NoDup; [|exact Hnd].
    apply Permutation_map, Permutation_sym, Hp1.
Qed.

Lemma sort_Slice_idem (sort_Slice : sorter) {A : Type} (key : A -> string)
    (l : list A) :
  sort_contract sort_Slice -> List.NoDup (map key l) ->
  sort_Slice A (less_by key) (sort_Slice A (less_by key) l)
  = sort_Slice A (less_by key) l.
Proof.
  intros Hc Hnd. destruct (Hc A key l) as [Hp Hs].
  apply (sort_Slice_perm_eq sort_Slice key); [assumption|assumption|].
  eapply Permutation_NoDup; [|exact Hnd].
  apply Permutation_map, Permutation_sym, Hp.
Qed.

(** ** Serialising, parsing and serialising again *)

Section IndexWriteParse.
Import index.

Variable sort_Slice : sorter.
Hypothesis sort_ok : sort_contract sort_Slice.

(** C3, for the indexes the format can hold. When the paths of an index
    are pairwise distinct and free of zero bytes (and the fields are in
    the ranges of their Go types, with fewer than 2^32 entries), the
    bytes written by [Write] parse to the index as [Write] left it, and
    writing that index again gives the same bytes, checksum included. *)
Theorem index_write_parse_write (idx : Index) :
  Forall wf_Entry (Entries idx) ->
  Forall (fun e => nul_free (Path e)) (Entries idx) ->
  List.NoDup (map Path (Entries idx)) ->
  Z.of_nat (length (Entries idx)) < 2 ^ 32 ->
  let bytes := snd (Write sort_Slice idx) in
  parseIndex bytes = Ok (fst (Write sort_Slice idx)) /\
  snd (Write sort_Slice (fst (Write sort_Slice idx))) = bytes.
Proof.
  intros Hwf Hnul Hnd Hlen. cbv zeta. unfold Write. cbn [fst snd Entries].
  destruct (sort_ok Entry Path (Entries idx)) as [Hp Hs].
  set (es := sort_Slice Entry (less_by Path) (Entries idx)) in *.
  split.
  - unfold parseIndex. rewrite parseIndex_pos_body; [reflexivity| | |].
    + eapply Permutation_Forall; [apply Permutation_sym, Hp|exact Hwf].
    + eapply Permutation_Forall; [apply Permutation_sym, Hp|exact Hnul].
    + now rewrite (Permutation_length Hp).
  - unfold es. now rewrite (sort_Slice_idem sort_Slice Path) by assumption.
Qed.

End IndexWriteParse.


(** ** The object store *)

Section StoreFacts.
Import os object.

Variable zlib : list byte -> list byte.

Lemma next_fault_files (w w' : World) (failed : bool) :
  next_fault w = (w', failed) -> files w' = files w /\ orders w' = orders w.
Proof.
  unfold next_fault. destruct (faults w); intros [= <- <-]; split; reflexivity.
Qed.

Lemma next_fault_quiet (w : World) :
  quiet w ->
  exists w', next_fault w = (w', false) /\ quiet w' /\ files w' = files w.
Proof.
  intros [Hf Ho]. unfold next_fault. destruct (faults w) as [|b rest] eqn:Hfw.
  - exists w. repeat split; [now rewrite Hfw|assumption].
  - apply Forall_cons_iff in Hf as [-> Hrest].
    eexists. split; [reflexivity|]. repeat split; assumption.
Qed.



(** The files after a call of [WriteObject] that returns an id: the
    files before it when the object was there, and otherwise the same
    with the compressed object at its path and no temporary file. *)
Lemma WriteObject_files {T : Type} {H : Object T} (w w1 : World)
    (repoPath : string) (obj : T) (id : string) :
  WriteObject zlib w repoPath obj = (w1, Ok id) ->
  let store := list_byte_of_string
                 (utils.header (Type_ obj) (Z.of_nat (length (Content obj))))
               ++ Content obj in
  let objPath := objPath_of repoPath id in
  id = utils.HashObject (Type_ obj) (Content obj) /\
  (if Stat w objPath then files w1 = files w
   else files w1 = <[objPath := zlib store]> (delete (objPath +:+ ".tmp") (files w))) /\
  Stat w1 objPath = true.
Proof.
  cbv zeta. unfold WriteObject, objPath_of, MkdirAll.
  set (store := list_byte_of_string _ ++ Content obj).
  set (hash := utils.HashBytes store).
  set (dir := filepath.Join [repoPath; _; _; _]).
  set (objPath := filepath.Join [dir; _]).
  destruct (next_fault w) as [w0 failed] eqn:Hnf.
  apply next_fault_files in Hnf as [Hfiles _].
  destruct failed; cbn [negb]; [discriminate|].
  assert (Hstat0 : Stat w0 objPath = Stat w objPath) by (unfold Stat; now rewrite Hfiles).
  destruct (Stat w0 objPath) eqn:Hstat.
  - intros [= <- <-]. fold dir. fold objPath. rewrite <- Hstat0.
    repeat split; [now rewrite Hfiles|assumption].
  - unfold compress.Compress, WriteFile.
    destruct (next_fault w0) as [wa failed] eqn:Hnf1.
    apply next_fault_files in Hnf1 as [Hfiles1 _].
    destruct failed; cbn [negb]; [discriminate|].
    unfold Rename.
    set (wb := mkWorld _ (faults wa) (orders wa)).
    destruct (next_fault wb) as [wc failed] eqn:Hnf2.
    apply next_fault_files in Hnf2 as [Hfiles2 _].
    destruct failed; cbn [negb]; [discriminate|].
    rewrite Hfiles2. unfold wb at 1. cbn [files]. rewrite lookup_insert_eq.
    cbn [negb]. intros [= <- <-]. fold dir. fold objPath. rewrite <- Hstat0.
    repeat split.
    + cbn [files]. unfold wb. cbn [files].
      rewrite delete_insert_eq. now rewrite Hfiles1, Hfiles.
    + unfold Stat. cbn [files]. now rewrite lookup_insert_eq.
Qed.

(** A call on a world that holds the object changes no file. *)
Lemma WriteObject_present {T : Type} {H : Object T} (w w2 : World)
    (repoPath : string) (obj : T) (r : result error string) :
  let id := utils.HashObject (Type_ obj) (Content obj) in
  Stat w (objPath_of repoPath id) = true ->
  WriteObject zlib w repoPath obj = (w2, r) ->
  files w2 = files w /\ (r = Ok id \/ r = Err ErrMkdir).
Proof.
  cbv zeta. unfold WriteObject, objPath_of, MkdirAll, utils.HashObject.
  set (store := list_byte_of_string _ ++ Content obj).
  set (hash := utils.HashBytes store).
  set (dir := filepath.Join [repoPath; _; _; _]).
  set (objPath := filepath.Join [dir; _]).
  intros Hstat.
  destruct (next_fault w) as [w0 failed] eqn:Hnf.
  apply next_fault_files in Hnf as [Hfiles _].
  destruct failed; cbn [negb].
  - intros [= <- <-]. split; [assumption|now right].
  - replace (Stat w0 objPath) with true by (unfold Stat in *; now rewrite Hfiles).
    intros [= <- <-]. split; [assumption|now left].
Qed.

(** In a quiet world [WriteObject] returns the id of the object. *)
Lemma WriteObject_quiet {T : Type} {H : Object T} (w : World)
    (repoPath : string) (obj : T) :
  quiet w ->
  exists w', WriteObject zlib w repoPath obj
             = (w', Ok (utils.HashObject (Type_ obj) (Content obj))) /\
             quiet w'.
Proof.
  intros Hq. unfold WriteObject, MkdirAll, utils.HashObject.
  destruct (next_fault_quiet w Hq) as (w0 & -> & Hq0 & _). cbn [negb].
  destruct (Stat w0 _); [eauto|].
  unfold compress.Compress, WriteFile.
  destruct (next_fault_quiet w0 Hq0) as (wa & -> & [Hfa Hoa] & _).
  cbn [negb]. unfold Rename.
  set (wb := mkWorld _ (faults wa) (orders wa)).
  assert (Hqb : quiet wb) by (split; assumption).
  destruct (next_fault_quiet wb Hqb) as (wc & -> & [Hfc Hoc] & Hfiles).
  rewrite Hfiles. unfold wb at 1. cbn [files]. rewrite lookup_insert_eq.
  cbn [negb]. eexists. split; [reflexivity|]. split; assumption.
Qed.

(** C4. When a write of an object returns an id, the id is the content
    id, the object is stored at the path of the id, and a second write of
    the same object changes no file and returns the same id (or fails in
    creating the directory when storage fails); in a world without
    storage failure it returns the id. One file was added by the first
    write, unless the object was there. *)
Theorem WriteObject_twice {T : Type} {H : Object T} (w w1 : World)
    (repoPath : string) (obj : T) (id : string) :
  WriteObject zlib w repoPath obj = (w1, Ok id) ->
  id = utils.HashObject (Type_ obj) (Content obj) /\
  Stat w1 (objPath_of repoPath id) = true /\
  (Stat w (objPath_of repoPath id) = true -> files w1 = files w) /\
  (Stat w (objPath_of repoPath id) = false ->
     files w1 = <[objPath_of repoPath id :=
                    zlib (list_byte_of_string
                            (utils.header (Type_ obj)
                               (Z.of_nat (length (Content obj))))
                          ++ Content obj)]>
                  (delete (objPath_of repoPath id +:+ ".tmp") (files w))) /\
  (forall (w2 : World) (r : result error string),
      WriteObject zlib w1 repoPath obj = (w2, r) ->
      files w2 = files w1 /\ (r = Ok id \/ r = Err ErrMkdir)) /\
  (quiet w1 -> snd (WriteObject zlib w1 repoPath obj) = Ok id).
Proof.
  intros Hw. destruct (WriteObject_files w w1 repoPath obj id Hw)
    as (Hid & Hfiles & Hstat).
  split; [assumption|]. split; [assumption|].
  split; [intros Hs; now rewrite Hs in Hfiles|].
  split; [intros Hs; now rewrite Hs in Hfiles|].
  split.
  - intros w2 r Hw2. subst id.
    now apply (WriteObject_present w1 w2 repoPath obj r).
  - intros Hq. destruct (WriteObject_quiet w1 repoPath obj Hq) as (w' & -> & _).
    now subst id.
Qed.

End StoreFacts.

(** ** Directory structures *)

Section TrieFacts.
Import repository treespec.

Lemma depth_child (name : string) (entries : gmap string dirEntry)
    (k : string) (child : dirEntry) :
  entries !! k = Some child -> (depth child < depth (DirNode name entries))%nat.
Proof.
  intros Hk. cbn [depth].
  rewrite (map_fold_delete_L _ _ k child entries); [lia| |assumption].
  intros. lia.
Qed.

(** Induction on directory structures: a property of the children of a
    directory may be used for the directory. *)
Lemma dirEntry_children_ind (P : dirEntry -> Prop) :
  (forall mode name hash : string, P (FileNode mode name hash)) ->
  (forall (name : string) (entries : gmap string dirEntry),
      (forall (k : string) (child : dirEntry),
          entries !! k = Some child -> P child) ->
      P (DirNode name entries)) ->
  forall d : dirEntry, P d.
Proof.
  intros Hfile Hdir d.
  remember (depth d) as n eqn:Hn. revert d Hn.
  induction n as [n IH] using lt_wf_ind. intros d ->.
  destruct d as [mode name hash|name entries]; [apply Hfile|].
  apply Hdir. intros k child Hk.
  apply (IH (depth child)); [|reflexivity].
  now apply (depth_child name entries k).
Qed.

Lemma insertParts_cons (part : string) (rest : list string) (mode hash : string)
    (name : string) (entries : gmap string dirEntry) :
  insertParts (part :: rest) mode hash (DirNode name entries)
  = match slot part rest mode hash entries with
    | Some c => Some (DirNode name (<[part := c]> entries))
    | None => None
    end.
Proof. destruct rest; reflexivity. Qed.

Lemma slot_ext (part : string) (rest : list string) (mode hash : string)
    (entries entries' : gmap string dirEntry) :
  entries !! part = entries' !! part ->
  slot part rest mode hash entries = slot part rest mode hash entries'.
Proof. intros H. unfold slot. now rewrite H. Qed.

(** Two insertions along paths of which neither is a prefix of the other
    commute, panics included. *)
Lemma insertParts_comm (p1 : list string) :
  forall (p2 : list string) (m1 h1 m2 h2 : string) (t : dirEntry),
    ~ p1 `prefix_of` p2 -> ~ p2 `prefix_of` p1 ->
    insertItem (insertParts p1 m1 h1 t) (p2, m2, h2)
    = insertItem (insertParts p2 m2 h2 t) (p1, m1, h1).
Proof.
  induction p1 as [|a r1 IH]; intros p2 m1 h1 m2 h2 t H12 H21.
  { exfalso. apply H12, prefix_nil. }
  destruct p2 as [|b r2]; [exfalso; apply H21, prefix_nil|].
  destruct t as [mode name hash|name entries]; [reflexivity|].
  rewrite !insertParts_cons. unfold insertItem. cbn [fst snd].
  destruct (decide (a = b)) as [<-|Hab].
  - destruct r1 as [|x r1]; [exfalso; apply H12, prefix_cons, prefix_nil|].
    destruct r2 as [|y r2]; [exfalso; apply H21, prefix_cons, prefix_nil|].
    assert (Hr12 : ~ (x :: r1) `prefix_of` (y :: r2))
      by (intros Hp; apply H12; now apply prefix_cons).
    assert (Hr21 : ~ (y :: r2) `prefix_of` (x :: r1))
      by (intros Hp; apply H21; now apply prefix_cons).
    set (child := match entries !! a with
                  | Some child => child
                  | None => DirNode a ∅
                  end).
    pose proof (IH (y :: r2) m1 h1 m2 h2 child Hr12 Hr21) as Hc.
    unfold insertItem in Hc. cbn [fst snd] in Hc.
    change (slot a (x :: r1) m1 h1 entries)
      with (insertParts (x :: r1) m1 h1 child).
    change (slot a (y :: r2) m2 h2 entries)
      with (insertParts (y :: r2) m2 h2 child).
    destruct (insertParts (x :: r1) m1 h1 child) as [c1|] eqn:H1,
             (insertParts (y :: r2) m2 h2 child) as [c2|] eqn:H2;
      rewrite ?insertParts_cons; unfold slot;
      rewrite ?lookup_insert_eq, ?insert_insert_eq.
    + rewrite Hc. destruct (insertParts (x :: r1) m1 h1 c2);
        [now rewrite !insert_insert_eq|reflexivity].
    + now rewrite Hc.
    + now rewrite <- Hc.
    + reflexivity.
  - destruct (slot a r1 m1 h1 entries) as [c1|] eqn:H1,
             (slot b r2 m2 h2 entries) as [c2|] eqn:H2;
      rewrite ?insertParts_cons.
    + rewrite (slot_ext b r2 m2 h2 (<[a:=c1]> entries) entries)
        by (now apply lookup_insert_ne).
      rewrite (slot_ext a r1 m1 h1 (<[b:=c2]> entries) entries)
        by (apply lookup_insert_ne; congruence).
      rewrite H1, H2. now rewrite insert_insert_ne by congruence.
    + rewrite (slot_ext b r2 m2 h2 (<[a:=c1]> entries) entries)
        by (now apply lookup_insert_ne).
      now rewrite H2.
    + rewrite (slot_ext a r1 m1 h1 (<[b:=c2]> entries) entries)
        by (apply lookup_insert_ne; congruence).
      now rewrite H1.
    + reflexivity.
Qed.

(** An insertion that meets no file on its way down does not panic. *)
Lemma insertParts_ok (p : list string) (mode hash : string) :
  forall t : dirEntry,
    isDir t = true ->
    (forall (q : list string) (f : dirEntry),
        q `prefix_of` p -> q <> p -> lookup_path q t = Some f -> isDir f = true) ->
    exists t', insertParts p mode hash t = Some t' /\ isDir t' = true.
Proof.
  induction p as [|a r IH]; intros t Ht Hfree; [eauto|].
  destruct t as [?|name entries]; [discriminate|].
  rewrite insertParts_cons.
  destruct r as [|x r]; [cbn; eauto|].
  unfold slot.
  set (child := match entries !! a with
                | Some child => child
                | None => DirNode a ∅
                end).
  destruct (IH child) as (c & Hc & _).
  - unfold child. destruct (entries !! a) as [c0|] eqn:Ha; [|reflexivity].
    apply (Hfree [a]); [apply prefix_cons, prefix_nil|congruence|].
    cbn. now rewrite Ha.
  - intros q f Hq Hne Hl. unfold child in Hl.
    destruct (entries !! a) as [c0|] eqn:Ha.
    + apply (Hfree (a :: q)); [now apply prefix_cons|congruence|].
      cbn. now rewrite Ha.
    + destruct q as [|k q]; cbn in Hl; [now injection Hl as <-|].
      rewrite lookup_empty in Hl. discriminate.
  - rewrite Hc. eauto.
Qed.

(** The files of the structure after an insertion: the inserted one and
    files that were there. *)
Lemma insertParts_files (p : list string) (mode hash : string) :
  forall (t t' : dirEntry),
    insertParts p mode hash t = Some t' ->
    forall (q : list string) (f : dirEntry),
      lookup_path q t' = Some f -> isDir f = false ->
      q = p \/ lookup_path q t = Some f.
Proof.
  induction p as [|a r IH]; intros t t' Hins q f Hl Hf.
  { injection Hins as <-. now right. }
  destruct t as [?|name entries]; [discriminate|].
  rewrite insertParts_cons in Hins.
  destruct (slot a r mode hash entries) as [c|] eqn:Hslot; [|discriminate].
  injection Hins as <-.
  destruct q as [|k q]; [injection Hl as <-; discriminate|].
  cbn [lookup_path] in Hl |- *.
  destruct (decide (a = k)) as [<-|Hak].
  - rewrite lookup_insert_eq in Hl.
    destruct r as [|x r].
    + injection Hslot as <-.
      destruct q; [now left|discriminate].
    + unfold slot in Hslot.
      destruct (IH _ _ Hslot q f Hl Hf) as [->|Hold]; [now left|].
      right. destruct (entries !! a) as [c0|]; [assumption|].
      destruct q as [|k q]; cbn in Hold;
        [injection Hold as <-; discriminate|].
      rewrite lookup_empty in Hold. discriminate.
  - rewrite lookup_insert_ne in Hl by assumption. now right.
Qed.

End TrieFacts.

(** ** Inserting the entries of an index *)

Section BuildDirFacts.
Import repository treespec.

Lemma compatible_perm (l1 l2 : list item) :
  Permutation l1 l2 -> compatible l1 -> compatible l2.
Proof.
  intros Hp [Hnd Hpre]. split.
  - eapply Permutation_NoDup; eassumption.
  - intros a b Ha Hb. apply Hpre; eapply Permutation_in;
      try eassumption; now apply Permutation_sym.
Qed.

Lemma compatible_tail (a : item) (l : list item) :
  compatible (a :: l) -> compatible l.
Proof.
  intros [Hnd Hpre]. apply List.NoDup_cons_iff in Hnd as [_ Hnd].
  split; [assumption|]. intros x y Hx Hy. apply Hpre; now right.
Qed.

Lemma fold_insertItem_None (its : list item) :
  fold_left insertItem its None = None.
Proof. induction its; [reflexivity|assumption]. Qed.

(** The structure built from compatible items does not depend on their
    order. *)
Lemma fold_insertItem_perm (l1 l2 : list item) :
  Permutation l1 l2 -> compatible l1 ->
  forall t : option dirEntry,
    fold_left insertItem l1 t = fold_left insertItem l2 t.
Proof.
  induction 1 as [|x l l' Hp IH|x y l|l l' l'' Hp1 IH1 Hp2 IH2];
    intros Hc t.
  - reflexivity.
  - cbn. apply IH. now apply compatible_tail in Hc.
  - cbn. f_equal.
    destruct Hc as [Hnd Hpre].
    assert (Hxy : y <> x).
    { apply List.NoDup_cons_iff in Hnd as [Hnotin _].
      intros ->. apply Hnotin. now left. }
    destruct t as [t|]; [|reflexivity].
    destruct x as [[p1 m1] h1], y as [[p2 m2] h2].
    cbn [insertItem fst snd].
    apply (insertParts_comm p2 p1 m2 h2 m1 h1 t).
    + apply (Hpre (p2, m2, h2) (p1, m1, h1));
        [now left|right; now left|assumption].
    + apply (Hpre (p1, m1, h1) (p2, m2, h2));
        [right; now left|now left|congruence].
  - rewrite IH1 by assumption. apply IH2.
    now apply (compatible_perm l l').
Qed.

(** Compatible items go into a directory without panic when no file of
    the directory is at a prefix of their parts. *)
Lemma fold_insertItem_ok (its : list item) :
  forall t : dirEntry,
    isDir t = true -> compatible its ->
    (forall (q : list string) (f : dirEntry) (it : item),
        lookup_path q t = Some f -> isDir f = false -> In it its ->
        ~ q `prefix_of` fst (fst it)) ->
    exists t', fold_left insertItem its (Some t) = Some t' /\ isDir t' = true.
Proof.
  induction its as [|it its IH]; intros t Ht Hc Hfiles; [cbn; eauto|].
  destruct it as [[p m] h].
  destruct (insertParts_ok p m h t Ht) as (t1 & Ht1 & Hd1).
  { intros q f Hq Hne Hl.
    destruct (isDir f) eqn:Hf; [reflexivity|].
    exfalso. apply (Hfiles q f (p, m, h) Hl Hf); [now left|assumption]. }
  cbn [fold_left insertItem fst snd]. rewrite Ht1.
  apply IH; [assumption|now apply compatible_tail in Hc|].
  intros q f it Hl Hf Hin.
  destruct (insertParts_files p m h t t1 Ht1 q f Hl Hf) as [->|Hold].
  - destruct Hc as [Hnd Hpre].
    apply (Hpre (p, m, h) it); [now left|now right|].
    apply List.NoDup_cons_iff in Hnd as [Hnotin _]. congruence.
  - apply (Hfiles q f it Hold Hf). now right.
Qed.

Lemma buildDir_items (entries : list index.Entry) :
  splits entries ->
  forall t t' : dirEntry,
    fold_left insertItem (map item_of entries) (Some t) = Some t' ->
    fold_left insertEntry entries (Ok t) = Ok t'.
Proof.
  induction entries as [|e entries IH]; intros Hs t t' Hfold.
  - now injection Hfold as <-.
  - cbn [map fold_left] in Hfold |- *.
    destruct (insertItem (Some t) (item_of e)) as [t1|] eqn:H1;
      [|now rewrite fold_insertItem_None in Hfold].
    unfold insertEntry at 2. unfold insertItem, item_of, parts_of in H1.
    cbn [fst snd] in H1.
    destruct (splitPath (index.Path e)) as [parts|] eqn:Hp;
      [|exfalso; apply (Hs e); [now left|assumption]].
    rewrite H1. apply IH; [|assumption].
    intros e' He'. apply Hs. now right.
Qed.

Lemma in_map_same {A B : Type} (f : A -> B) (l : list A) (x y : A) :
  List.NoDup (map f l) -> In x l -> In y l -> f x = f y -> x = y.
Proof.
  induction l as [|a l IH]; intros Hnd Hx Hy Hf; [destruct Hx|].
  cbn in Hnd. apply List.NoDup_cons_iff in Hnd as [Hnotin Hnd].
  destruct Hx as [->|Hx], Hy as [->|Hy]; auto.
  - exfalso. apply Hnotin. rewrite Hf. now apply in_map.
  - exfalso. apply Hnotin. rewrite <- Hf. now apply in_map.
Qed.

(** The items of an index with distinct, splitting and conflict-free
    paths are compatible. *)
Lemma items_compatible (entries : list index.Entry) :
  List.NoDup (map index.Path entries) -> splits entries ->
  no_conflict entries -> compatible (map item_of entries).
Proof.
  intros Hnd Hs Hnc.
  assert (Hpre : forall e e' : index.Entry,
             In e entries -> In e' entries -> index.Path e <> index.Path e' ->
             ~ fst (fst (item_of e)) `prefix_of` fst (fst (item_of e'))).
  { intros e e' He He' Hne. unfold item_of, parts_of. cbn [fst].
    destruct (splitPath (index.Path e)) as [p|] eqn:Hp;
      [|exfalso; now apply (Hs e)].
    destruct (splitPath (index.Path e')) as [p'|] eqn:Hp';
      [|exfalso; now apply (Hs e')].
    now apply (Hnc e e' p p'). }
  split.
  - clear Hs Hnc. induction entries as [|e entries IH]; [constructor|].
    cbn in Hnd |- *. apply List.NoDup_cons_iff in Hnd as [Hnotin Hnd].
    constructor.
    + intros Hin. apply in_map_iff in Hin as (e' & Heq & Hin').
      apply (Hpre e' e); [now right|now left| |now rewrite Heq].
      intros Hpath. apply Hnotin. rewrite <- Hpath. now apply in_map.
    + apply IH; [assumption|]. intros x y Hx Hy. apply Hpre; now right.
  - intros a b Ha Hb Hab.
    apply in_map_iff in Ha as (e & <- & He).
    apply in_map_iff in Hb as (e' & <- & He').
    apply Hpre; [assumption..|].
    intros Hpath. apply Hab. f_equal.
    now apply (in_map_same index.Path entries).
Qed.

End BuildDirFacts.

(** ** Writing the trees *)

Section BuildFacts.
Import os object repository treespec.

Variable sort_Slice : sorter.
Hypothesis sort_ok : sort_contract sort_Slice.
Variable zlib : list byte -> list byte.
Variable repoPath : string.

Local Abbreviation bt := (buildTreeFromDir sort_Slice zlib repoPath).
Local Abbreviation tid := (treeId sort_Slice).
Local Abbreviation entry_for := (entry_for sort_Slice).

Lemma next_order_quiet (w : World) (keys : list string) :
  quiet w ->
  exists (w' : World) (names : list string),
    next_order w keys = (w', names) /\ Permutation names keys /\ quiet w'.
Proof.
  intros [Hf Ho]. unfold next_order.
  destruct (orders w) as [|order rest] eqn:Hw.
  - exists w, keys. split; [reflexivity|]. split; [reflexivity|].
    split; [assumption|now rewrite Hw].
  - apply Forall_cons_iff in Ho as [Hperm Hrest].
    eexists _, _. split; [reflexivity|]. split; [apply Hperm|].
    split; assumption.
Qed.

Lemma entry_for_Name (entries : gmap string dirEntry) (name : string) :
  Name (entry_for entries name) = name.
Proof.
  unfold treespec.entry_for. destruct (entries !! name) as [[?|?]|]; reflexivity.
Qed.

Lemma keys_fmap {B : Type} (f : dirEntry -> B) (entries : gmap string dirEntry) :
  map fst (map_to_list (f <$> entries)) = map fst (map_to_list entries).
Proof.
  rewrite map_to_list_fmap.
  change (map fst (map (prod_map id f) (map_to_list entries))
          = map fst (map_to_list entries)).
  rewrite map_map. apply map_ext. now intros [k e].
Qed.

Lemma keys_NoDup (entries : gmap string dirEntry) :
  List.NoDup (map fst (map_to_list entries)).
Proof. apply NoDup_ListNoDup. exact (NoDup_fst_map_to_list entries). Qed.

Lemma keys_lookup (entries : gmap string dirEntry) (name : string) :
  In name (map fst (map_to_list entries)) -> entries !! name <> None.
Proof.
  intros Hin. apply in_map_iff in Hin as ([k e] & <- & Hin).
  apply list_elem_of_In, elem_of_map_to_list in Hin. cbn. congruence.
Qed.

(** The loop over the children, in any order of their names. *)
Lemma visit_all_quiet (entries : gmap string dirEntry) :
  (forall (k : string) (child : dirEntry),
      entries !! k = Some child ->
      forall w : World, quiet w ->
        exists w', bt child w = (w', Ok (tid child)) /\ quiet w') ->
  forall (names : list string) (tree : Tree) (w : World),
    (forall n : string, In n names -> entries !! n <> None) -> quiet w ->
    exists w',
      visit_all ((fun e => (e, bt e)) <$> entries) names (w, Ok tree)
      = (w', Ok (mkTree (Entries tree ++ map (entry_for entries) names))) /\
      quiet w'.
Proof.
  intros IH. induction names as [|n names IHn]; intros tree w Hin Hq.
  - exists w. cbn. rewrite app_nil_r. now destruct tree.
  - unfold visit_all. cbn [fold_left]. rewrite lookup_fmap.
    destruct (entries !! n) as [child|] eqn:Hn;
      [|exfalso; apply (Hin n); [now left|assumption]].
    cbn [fmap option_fmap option_map]. unfold visit at 2. cbn [fst snd].
    assert (Hstep : exists w1,
               match child with
               | FileNode mode _ hash => (w, Ok (AddEntry tree mode n hash))
               | DirNode _ _ =>
                   let '(w0, rh) := bt child w in
                   match rh with
                   | Ok hash => (w0, Ok (AddEntry tree "40000" n hash))
                   | Err e => (w0, Err e)
                   end
               end
               = (w1, Ok (AddEntry tree (Mode (entry_for entries n)) n
                                   (Hash (entry_for entries n)))) /\
               quiet w1).
    { unfold treespec.entry_for. rewrite Hn.
      destruct child as [mode name hash|name es].
      - exists w. split; [reflexivity|assumption].
      - destruct (IH n _ Hn w Hq) as (w1 & -> & Hq1).
        exists w1. split; [reflexivity|assumption]. }
    destruct Hstep as (w1 & -> & Hq1).
    destruct (IHn (AddEntry tree (Mode (entry_for entries n)) n
                            (Hash (entry_for entries n))) w1)
      as (w' & Hw' & Hq'); [intros; apply Hin; now right|assumption|].
    exists w'. split; [|assumption].
    unfold visit_all in Hw'. rewrite Hw'. do 3 f_equal.
    unfold AddEntry. cbn [Entries map]. rewrite <- app_assoc. cbn [app].
    do 2 f_equal.
    rewrite <- (entry_for_Name entries n) at 2.
    now destruct (entry_for entries n).
Qed.

(** The tree entries written for a directory, in the order of
    [map_to_list], are its tree entries by name. *)
Lemma canonical_entries (entries : gmap string dirEntry) :
  map (fun kv => child_entry (fst kv) (fst (snd kv)) (snd (snd kv)))
      (map_to_list ((fun child => (child, tid child)) <$> entries))
  = map (entry_for entries) (map fst (map_to_list entries)).
Proof.
  rewrite map_to_list_fmap.
  change (map (fun kv => child_entry (fst kv) (fst (snd kv)) (snd (snd kv)))
              (map (prod_map id (fun child => (child, tid child)))
                   (map_to_list entries))
          = map (entry_for entries) (map fst (map_to_list entries))).
  rewrite !map_map. apply map_ext_in. intros [k e] Hin. cbn.
  apply list_elem_of_In, elem_of_map_to_list in Hin.
  unfold treespec.entry_for. now rewrite Hin.
Qed.

(** One directory, given its children. *)
Lemma node_quiet (entries : gmap string dirEntry) :
  (forall (k : string) (child : dirEntry),
      entries !! k = Some child ->
      forall w : World, quiet w ->
        exists w', bt child w = (w', Ok (tid child)) /\ quiet w') ->
  forall w : World, quiet w ->
    exists w',
      (let children := (fun e => (e, bt e)) <$> entries in
       let '(w, names) := next_order w (map fst (map_to_list children)) in
       let '(w, r) := visit_all children names (w, Ok NewTree) in
       match r with
       | Err e => (w, Err e)
       | Ok tree =>
           WriteObject (H := Tree_Object sort_Slice) zlib w repoPath tree
       end)
      = (w', Ok (utils.HashObject TypeTree
                   (Tree_Content sort_Slice
                      (mkTree (map (entry_for entries)
                                   (map fst (map_to_list entries))))))) /\
      quiet w'.
Proof.
  intros IH w Hq. cbv zeta. rewrite keys_fmap.
  destruct (next_order_quiet w (map fst (map_to_list entries)) Hq)
    as (w1 & names & -> & Hperm & Hq1).
  destruct (visit_all_quiet entries IH names NewTree w1) as (w2 & -> & Hq2);
    [|assumption|].
  { intros n Hn. apply keys_lookup. eapply Permutation_in; eassumption. }
  cbn [NewTree Entries app].
  destruct (WriteObject_quiet zlib w2 repoPath
              (H := Tree_Object sort_Slice)
              (mkTree (map (entry_for entries) names)) Hq2)
    as (w3 & -> & Hq3).
  exists w3. split; [|assumption]. do 3 f_equal.
  cbn [Type_ Content Tree_Object]. unfold Tree_Content. cbn [Entries].
  f_equal. apply (sort_Slice_perm_eq sort_Slice Name); [assumption| |].
  - now apply Permutation_map.
  - rewrite map_map. erewrite map_ext; [|apply entry_for_Name].
    rewrite map_id. eapply Permutation_NoDup;
      [apply Permutation_sym, Hperm|apply keys_NoDup].
Qed.

(** In a quiet world [buildTreeFromDir] returns the tree id of the
    structure, whatever the visiting orders. *)
Lemma buildTreeFromDir_quiet (d : dirEntry) :
  forall w : World, quiet w ->
    exists w', bt d w = (w', Ok (tid d)) /\ quiet w'.
Proof.
  induction d as [mode name hash|name entries IH] using dirEntry_children_ind;
    intros w Hq.
  - destruct (node_quiet ∅) with (w := w) as (w' & Hw' & Hq'); [|assumption|].
    { intros k child Hk. rewrite lookup_empty in Hk. discriminate. }
    exists w'. split; [|assumption].
    rewrite fmap_empty in Hw'. rewrite map_to_list_empty in Hw'.
    cbv zeta in Hw'. cbn [buildTreeFromDir]. rewrite Hw'. cbn [treeId].
    rewrite map_to_list_empty. reflexivity.
  - destruct (node_quiet entries IH w Hq) as (w' & Hw' & Hq').
    exists w'. split; [|assumption].
    cbv zeta in Hw'. cbn [buildTreeFromDir]. rewrite Hw'. cbn [treeId].
    now rewrite canonical_entries.
Qed.

End BuildFacts.

(** ** The root tree of an index *)

Section RootTree.
Import os repository treespec.

Variable sort_Slice : sorter.
Hypothesis sort_ok : sort_contract sort_Slice.
Variable zlib : list byte -> list byte.
Variable repoPath : string.

Lemma triples_NoDup (entries : list index.Entry) :
  List.NoDup (map index.Path entries) -> List.NoDup (map triple entries).
Proof.
  intros Hnd. apply (List.NoDup_map_inv (fun t => fst (fst t))).
  rewrite map_map. exact Hnd.
Qed.

Lemma items_of_triples (entries : list index.Entry) :
  map item_of entries
  = map (fun t => (parts_of (fst (fst t)), fmt_o (snd (fst t)),
                   utils.BytesToHex (snd t)))
        (map triple entries).
Proof. rewrite map_map. reflexivity. Qed.

Lemma empty_root_no_file (q : list string) (f : dirEntry) :
  lookup_path q (DirNode "" ∅) = Some f -> isDir f = true.
Proof.
  destruct q as [|k q]; cbn.
  - now intros [= <-].
  - rewrite lookup_empty. discriminate.
Qed.

(** The directory structure of an index with distinct, splitting and
    conflict-free paths, and of any index with the same triples. *)
Lemma buildDir_same (es1 es2 : list index.Entry) :
  (forall t, In t (map triple es1) <-> In t (map triple es2)) ->
  List.NoDup (map index.Path es1) -> List.NoDup (map index.Path es2) ->
  splits es1 -> no_conflict es1 ->
  exists root : dirEntry, buildDir es1 = Ok root /\ buildDir es2 = Ok root.
Proof.
  intros Hsame Hnd1 Hnd2 Hs1 Hnc1.
  assert (Hperm : Permutation (map item_of es1) (map item_of es2)).
  { rewrite !items_of_triples. apply Permutation_map.
    apply Permutation.NoDup_Permutation; auto using triples_NoDup. }
  assert (Hs2 : splits es2).
  { intros e He.
    assert (Hin : In (triple e) (map triple es1))
      by (apply Hsame; now apply in_map).
    apply in_map_iff in Hin as (e1 & Heq & He1).
    replace (index.Path e) with (index.Path e1)
      by (apply (f_equal (fun t => fst (fst t))) in Heq; exact Heq).
    now apply Hs1. }
  pose proof (items_compatible es1 Hnd1 Hs1 Hnc1) as Hc.
  destruct (fold_insertItem_ok (map item_of es1) (DirNode "" ∅) eq_refl Hc)
    as (root & Hroot & _).
  { intros q f it Hl Hf _. apply empty_root_no_file in Hl. congruence. }
  exists root. split.
  - now apply buildDir_items.
  - apply buildDir_items; [assumption|].
    now rewrite <- (fold_insertItem_perm _ _ Hperm Hc).
Qed.

(** C2, for the indexes the builder handles. Take two indexes with the
    same (path, mode, id) triples and pairwise distinct paths, whose
    paths all split into parts and are free of conflict (no path names
    a file at or above the file of another path). Without storage
    failure, [BuildTreeRecursive] returns the same root id for both,
    whatever the order of their entries and whatever the orders in which
    the maps are visited. *)
Theorem BuildTreeRecursive_order_independent (idx1 idx2 : index.Index)
    (w1 w2 : World) :
  (forall t, In t (map triple (index.Entries idx1))
             <-> In t (map triple (index.Entries idx2))) ->
  List.NoDup (map index.Path (index.Entries idx1)) ->
  List.NoDup (map index.Path (index.Entries idx2)) ->
  splits (index.Entries idx1) -> no_conflict (index.Entries idx1) ->
  quiet w1 -> quiet w2 ->
  exists id : string,
    snd (BuildTreeRecursive sort_Slice zlib repoPath w1 idx1) = Ok id /\
    snd (BuildTreeRecursive sort_Slice zlib repoPath w2 idx2) = Ok id.
Proof.
  intros Hsame Hnd1 Hnd2 Hs Hnc Hq1 Hq2.
  destruct (buildDir_same _ _ Hsame Hnd1 Hnd2 Hs Hnc) as (root & Hb1 & Hb2).
  exists (treeId sort_Slice root). unfold BuildTreeRecursive.
  rewrite Hb1, Hb2.
  destruct (buildTreeFromDir_quiet sort_Slice sort_ok zlib repoPath root w1 Hq1)
    as (w1' & -> & _).
  destruct (buildTreeFromDir_quiet sort_Slice sort_ok zlib repoPath root w2 Hq2)
    as (w2' & -> & _).
  split; reflexivity.
Qed.

End RootTree.

(** ** The theorems at example inputs *)

Section Examples.
Import os index repository treespec examples.

Lemma examples_wf : Forall wf_Entry [a_txt; b_txt].
Proof.
  repeat constructor; cbn; unfold uint32, uint16; try lia;
    vm_compute; reflexivity.
Qed.

Lemma examples_paths : List.NoDup (map Path [a_txt; b_txt]).
Proof. repeat constructor; cbn; intuition discriminate. Qed.

Lemma examples_paths_rev : List.NoDup (map Path [b_txt; a_txt]).
Proof. repeat constructor; cbn; intuition discriminate. Qed.

Lemma examples_nul_free : Forall (fun e => nul_free (Path e)) [a_txt; b_txt].
Proof. repeat constructor; unfold nul_free; cbn; intuition discriminate. Qed.

(** The witness of C9. *)
Lemma index_path_unique_witness :
  (forall e : Entry,
      List.NoDup (map Path (Entries (UpdateEntry a_then_b e))) /\
      List.filter (fun x => String.eqb (Path x) (Path e))
                  (Entries (UpdateEntry a_then_b e)) = [e] /\
      (forall x : Entry, Path x <> Path e ->
          (In x (Entries (UpdateEntry a_then_b e)) <-> In x (Entries a_then_b)))) /\
  (forall path : string, List.NoDup (map Path (Entries (RemoveEntry a_then_b path)))).
Proof. apply (index_path_unique a_then_b). exact examples_paths. Defined.

(** The witness of C3: the index of [b.txt] and [a.txt]. *)
Lemma index_write_parse_write_witness :
  parseIndex (snd (Write insertion_sort b_then_a))
  = Ok (fst (Write insertion_sort b_then_a)) /\
  snd (Write insertion_sort (fst (Write insertion_sort b_then_a)))
  = snd (Write insertion_sort b_then_a).
Proof.
  apply (index_write_parse_write insertion_sort insertion_sort_contract b_then_a).
  - eapply Permutation_Forall; [apply perm_swap|exact examples_wf].
  - eapply Permutation_Forall; [apply perm_swap|exact examples_nul_free].
  - exact examples_paths_rev.
  - cbn. lia.
Defined.

(** C3 as the specification words it fails on a path that holds a zero
    byte: the parser ends the path at that byte, and the index it
    returns is written in fewer bytes. *)
Lemma index_round_trip_nul_path :
  exists idx' : Index,
    parseIndex (snd (Write insertion_sort nul_path)) = Ok idx' /\
    snd (Write insertion_sort idx') <> snd (Write insertion_sort nul_path).
Proof.
  eexists. split; [vm_compute; reflexivity|].
  intros H. apply (f_equal (@length byte)) in H. vm_compute in H. discriminate.
Qed.

(** The witness of C8: the bytes written for [a.txt] and [b.txt], whose
    entries end at byte 156. *)
Lemma parseIndex_ignores_trailer_witness :
  parseIndex (snd (Write insertion_sort a_then_b)) = Ok a_then_b /\
  156%nat = (12 + list_sum (map entry_size (Entries a_then_b)))%nat /\
  forall tail : list byte,
    parseIndex (firstn 156 (snd (Write insertion_sort a_then_b)) ++ tail)
    = Ok a_then_b.
Proof.
  apply (parseIndex_ignores_trailer (snd (Write insertion_sort a_then_b))
           a_then_b 156).
  vm_compute. reflexivity.
Defined.

(** The witness of C4: the blob of the line "test", written twice. *)
Lemma WriteObject_twice_witness :
  let id := "9daeafb9864cf43055ae93beb0afd6c7d144bfa4" in
  let w1 := mkWorld
              (<["repo/.gogit/objects/9d/aeafb9864cf43055ae93beb0afd6c7d144bfa4" :=
                   list_byte_of_string
                     ("blob 5" +:+ String NUL ("test" +:+ String LF ""))]> ∅)
              [] [] in
  object.WriteObject (H := object.Blob_Object) stored empty_world "repo" test_blob
  = (w1, Ok id) /\
  Stat w1 (object.objPath_of "repo" id) = true /\
  (forall (w2 : World) (r : result object.error string),
      object.WriteObject (H := object.Blob_Object) stored w1 "repo" test_blob
      = (w2, r) ->
      files w2 = files w1 /\ (r = Ok id \/ r = Err object.ErrMkdir)) /\
  snd (object.WriteObject (H := object.Blob_Object) stored w1 "repo" test_blob)
  = Ok id.
Proof.
  cbv zeta.
  match goal with
  | |- ?eq /\ _ => assert (H : eq) by (vm_compute; reflexivity)
  end.
  split; [exact H|].
  destruct (WriteObject_twice stored (H := object.Blob_Object) empty_world _
              "repo" test_blob _ H)
    as (_ & Hstat & _ & _ & Hagain & Hquiet).
  split; [exact Hstat|]. split; [exact Hagain|].
  apply Hquiet. split; constructor.
Defined.

Lemma examples_splits : splits [a_txt; b_txt].
Proof. intros e [<-|[<-|[]]]; vm_compute; discriminate. Qed.

Lemma examples_no_conflict : no_conflict [a_txt; b_txt].
Proof.
  intros e e' p p' [<-|[<-|[]]] [<-|[<-|[]]] Hne Hp Hp';
    try (now exfalso; apply Hne);
    vm_compute in Hp, Hp'; injection Hp as <-; injection Hp' as <-;
    intros [k Hk]; discriminate.
Qed.

Lemma examples_same_triples (t : string * Z * list byte) :
  In t (map triple (Entries a_then_b)) <-> In t (map triple (Entries b_then_a)).
Proof.
  unfold a_then_b, b_then_a. cbn [Entries map In].
  generalize (triple a_txt) (triple b_txt). intros ta tb. tauto.
Qed.

(** The witness of C2: [a.txt] and [b.txt] in the two orders, the second
    built in a world that visits maps in reverse order. *)
Lemma BuildTreeRecursive_order_independent_witness :
  exists id : string,
    snd (BuildTreeRecursive insertion_sort stored "repo" empty_world a_then_b)
    = Ok id /\
    snd (BuildTreeRecursive insertion_sort stored "repo"
           (mkWorld ∅ [] [@rev string; @rev string]) b_then_a)
    = Ok id.
Proof.
  apply (BuildTreeRecursive_order_independent insertion_sort
           insertion_sort_contract stored "repo" a_then_b b_then_a).
  - exact examples_same_triples.
  - exact examples_paths.
  - exact examples_paths_rev.
  - exact examples_splits.
  - exact examples_no_conflict.
  - split; constructor.
  - split; [constructor|].
    repeat constructor; intros keys; apply Permutation_sym, Permutation_rev.
Defined.

(** The root id of the witness is the id that git gives to the tree of
    the two files. *)
Example root_of_a_txt_b_txt :
  snd (BuildTreeRecursive insertion_sort stored "repo" empty_world a_then_b)
  = Ok "4e2fd0b481a785eb99cab80ec1c582e1caf6cb44" /\
  snd (BuildTreeRecursive insertion_sort stored "repo" empty_world b_then_a)
  = Ok "4e2fd0b481a785eb99cab80ec1c582e1caf6cb44".
Proof. split; vm_compute; reflexivity. Qed.

(** C2 as the specification words it fails on two indexes that hold the
    same two entries for one path in different orders: the last entry
    wins, and the root ids differ. *)
Lemma BuildTreeRecursive_last_write_wins :
  (forall t, In t (map triple (Entries x_then_y))
             <-> In t (map triple (Entries y_then_x))) /\
  snd (BuildTreeRecursive insertion_sort stored "repo" empty_world x_then_y)
  <> snd (BuildTreeRecursive insertion_sort stored "repo" empty_world y_then_x).
Proof.
  split.
  { intros t. unfold x_then_y, y_then_x. cbn [Entries map In].
    generalize (triple a_with_x) (triple a_with_y). intros tx ty. tauto. }
  vm_compute. discriminate.
Qed.

(** A file [a] staged before a file [a/b] makes the builder write into
    the nil map of the node of [a]; staged after it, the file replaces
    the directory. *)
Example BuildTreeRecursive_file_above_file :
  snd (BuildTreeRecursive insertion_sort stored "repo" empty_world
         (mkIndex [file_a; file_a_b]))
  = Err NilMapWrite /\
  snd (BuildTreeRecursive insertion_sort stored "repo" empty_world
         (mkIndex [file_a_b; file_a]))
  = Ok "b39954843ff6e09ec3aa2b942938c30c6bd1629e".
Proof. split; vm_compute; reflexivity. Qed.

End Examples.

(* ===================================================================== *)
(** * Part III: further properties of the code                            *)
(* ===================================================================== *)

(** ** The index as a map: lookups after updates and removals *)

Section IndexLookup.
Import index.

Lemma GetEntry_in_update_same (entries : list Entry) (e : Entry) :
  GetEntry_in (update entries e) (Path e) = Some e.
Proof.
  induction entries as [|x rest IH]; cbn.
  - now rewrite String.eqb_refl.
  - destruct (String.eqb (Path x) (Path e)) eqn:Hx; cbn.
    + now rewrite String.eqb_refl.
    + now rewrite Hx.
Qed.

Lemma GetEntry_in_update_other (entries : list Entry) (e : Entry) (p : string) :
  p <> Path e -> GetEntry_in (update entries e) p = GetEntry_in entries p.
Proof.
  intros Hp. induction entries as [|x rest IH]; cbn.
  - destruct (String.eqb (Path e) p) eqn:He; [|reflexivity].
    apply String.eqb_eq in He. congruence.
  - destruct (String.eqb (Path x) (Path e)) eqn:Hx; cbn.
    + apply String.eqb_eq in Hx.
      destruct (String.eqb (Path e) p) eqn:He;
        [apply String.eqb_eq in He; congruence|].
      destruct (String.eqb (Path x) p) eqn:Hxp;
        [apply String.eqb_eq in Hxp; congruence|reflexivity].
    + destruct (String.eqb (Path x) p); [reflexivity|exact IH].
Qed.

Lemma update_length (entries : list Entry) (e : Entry) :
  length (update entries e)
  = match GetEntry_in entries (Path e) with
    | Some _ => length entries
    | None => S (length entries)
    end.
Proof.
  induction entries as [|x rest IH]; cbn; [reflexivity|].
  destruct (String.eqb (Path x) (Path e)); cbn; [reflexivity|].
  rewrite IH. now destruct (GetEntry_in rest (Path e)).
Qed.

(** X1. [UpdateEntry] behaves as the update of a map keyed by path:
    looking up the path of the entry afterwards gives the entry, every
    other path is looked up as before, and the index grows by one entry
    exactly when the path was not in it. *)
Theorem GetEntry_UpdateEntry (idx : Index) (e : Entry) :
  GetEntry (UpdateEntry idx e) (Path e) = Some e /\
  (forall p : string, p <> Path e ->
      GetEntry (UpdateEntry idx e) p = GetEntry idx p) /\
  length (Entries (UpdateEntry idx e))
  = match GetEntry idx (Path e) with
    | Some _ => length (Entries idx)
    | None => S (length (Entries idx))
    end.
Proof.
  unfold GetEntry, UpdateEntry. cbn [Entries]. split.
  - apply GetEntry_in_update_same.
  - split; [intros p Hp; now apply GetEntry_in_update_other|].
    apply update_length.
Qed.

Lemma GetEntry_in_None (entries : list Entry) (p : string) :
  GetEntry_in entries p = None <-> ~ In p (map Path entries).
Proof.
  induction entries as [|x rest IH]; cbn; [tauto|].
  destruct (String.eqb (Path x) p) eqn:Hx.
  - apply String.eqb_eq in Hx. split; [discriminate|]. intros H. tauto.
  - apply String.eqb_neq in Hx. rewrite IH. tauto.
Qed.

Lemma GetEntry_in_remove_other (entries : list Entry) (p q : string) :
  q <> p -> GetEntry_in (remove entries p) q = GetEntry_in entries q.
Proof.
  intros Hq. induction entries as [|x rest IH]; cbn; [reflexivity|].
  destruct (String.eqb (Path x) p) eqn:Hx; cbn.
  - apply String.eqb_eq in Hx.
    destruct (String.eqb (Path x) q) eqn:Hxq;
      [apply String.eqb_eq in Hxq; congruence|reflexivity].
  - destruct (String.eqb (Path x) q); [reflexivity|exact IH].
Qed.

Lemma remove_absent (entries : list Entry) (p : string) :
  GetEntry_in entries p = None -> remove entries p = entries.
Proof.
  induction entries as [|x rest IH]; cbn; [reflexivity|].
  destruct (String.eqb (Path x) p); [discriminate|].
  intros H. now rewrite IH.
Qed.

Lemma remove_length (entries : list Entry) (p : string) :
  length (remove entries p)
  = match GetEntry_in entries p with
    | Some _ => Nat.pred (length entries)
    | None => length entries
    end.
Proof.
  induction entries as [|x rest IH]; cbn; [reflexivity|].
  destruct (String.eqb (Path x) p); cbn; [reflexivity|].
  rewrite IH. destruct (GetEntry_in rest p) eqn:Hg; [|reflexivity].
  destruct rest; [discriminate|reflexivity].
Qed.

Lemma remove_first_gone (entries : list Entry) (p : string) :
  List.NoDup (map Path entries) -> GetEntry_in (remove entries p) p = None.
Proof.
  induction entries as [|x rest IH]; cbn; intros Hnd; [reflexivity|].
  apply List.NoDup_cons_iff in Hnd as [Hnotin Hnd].
  destruct (String.eqb (Path x) p) eqn:Hx; cbn.
  - apply String.eqb_eq in Hx. apply GetEntry_in_None. congruence.
  - rewrite Hx. now apply IH.
Qed.

(** X2. [RemoveEntry] cuts out one entry: every other path is looked up
    as before, an index without the path is left as it is, and the index
    loses exactly one entry when the path was in it. *)
Theorem GetEntry_RemoveEntry (idx : Index) (p : string) :
  (forall q : string, q <> p ->
      GetEntry (RemoveEntry idx p) q = GetEntry idx q) /\
  (GetEntry idx p = None -> RemoveEntry idx p = idx) /\
  length (Entries (RemoveEntry idx p))
  = match GetEntry idx p with
    | Some _ => Nat.pred (length (Entries idx))
    | None => length (Entries idx)
    end.
Proof.
  unfold GetEntry, RemoveEntry. destruct idx as [entries]. cbn [Entries].
  split; [intros q Hq; now apply GetEntry_in_remove_other|].
  split; [intros H; now rewrite remove_absent|].
  apply remove_length.
Qed.

(** X3. On an index with pairwise distinct paths the removed path is
    gone: looking it up after [RemoveEntry] finds nothing. *)
Theorem RemoveEntry_gone (idx : Index) (p : string) :
  List.NoDup (map Path (Entries idx)) ->
  GetEntry (RemoveEntry idx p) p = None.
Proof. intros Hnd. now apply remove_first_gone. Qed.

End IndexLookup.

(** ** The layout of the index file *)

Section IndexLayout.
Import index.

Lemma padding_of_spec (n : nat) :
  (padding_of n < 8)%nat /\ ((n + padding_of n) mod 8 = 0)%nat.
Proof.
  unfold padding_of.
  pose proof (Nat.mod_upper_bound n 8 ltac:(lia)) as Hr.
  pose proof (Nat.div_mod_eq n 8) as Hn.
  set (r := (n mod 8)%nat) in *. set (q := (n / 8)%nat) in *.
  split; [apply Nat.mod_upper_bound; lia|].
  destruct (Nat.eq_dec r 0%nat) as [H0|H0].
  - rewrite H0. change ((8 - 0) mod 8)%nat with 0%nat.
    rewrite Nat.add_0_r. exact H0.
  - rewrite (Nat.mod_small (8 - r)%nat 8%nat) by lia.
    replace (n + (8 - r))%nat with ((q + 1) * 8)%nat by lia.
    apply Nat.Div0.mod_mul.
Qed.

Lemma entry_size_aligned (e : Entry) :
  (entry_size e mod 8 = 0)%nat /\
  (63 + String.length (Path e) <= entry_size e < 71 + String.length (Path e))%nat.
Proof.
  unfold entry_size.
  destruct (padding_of_spec (62 + String.length (Path e) + 1)) as [Hlt Hmod].
  split; [exact Hmod|lia].
Qed.

Lemma list_sum_aligned (ns : list nat) :
  Forall (fun n => n mod 8 = 0)%nat ns -> (list_sum ns mod 8 = 0)%nat.
Proof.
  induction 1 as [|n ns Hn _ IH]; [reflexivity|].
  change (list_sum (n :: ns)) with (n + list_sum ns)%nat.
  rewrite Nat.Div0.add_mod, Hn, IH. reflexivity.
Qed.

Lemma list_sum_perm (l1 l2 : list nat) :
  Permutation l1 l2 -> list_sum l1 = list_sum l2.
Proof.
  induction 1 as [|x l l' _ IH|x y l|l l' l'' _ IH1 _ IH2].
  - reflexivity.
  - change (x + list_sum l = x + list_sum l')%nat. now rewrite IH.
  - change (y + (x + list_sum l) = x + (y + list_sum l))%nat. lia.
  - now rewrite IH1.
Qed.

Lemma flat_map_write_entry_length (es : list Entry) :
  Forall (fun e => length (Hash e) = 20%nat) es ->
  length (flat_map write_entry es) = list_sum (map entry_size es).
Proof.
  induction 1 as [|e es He _ IH]; [reflexivity|].
  cbn [flat_map map]. rewrite length_app, IH, write_entry_length by assumption.
  reflexivity.
Qed.

(** X4. Every entry record is 62 bytes, the path, its terminator and at
    most 7 bytes of padding, and its length is a multiple of 8; the file
    written by [Write] is the 12-byte header, the records and the 20-byte
    checksum, so the records end on a multiple of 8 after the header. *)
Theorem Write_layout (sort_Slice : sorter) (idx : Index) :
  sort_contract sort_Slice ->
  Forall (fun e => length (Hash e) = 20%nat) (Entries idx) ->
  Forall (fun e => length (write_entry e) = entry_size e /\
                   (entry_size e mod 8 = 0)%nat /\
                   (63 + String.length (Path e) <= entry_size e
                    < 71 + String.length (Path e))%nat) (Entries idx) /\
  length (snd (Write sort_Slice idx))
  = (12 + list_sum (map entry_size (Entries idx)) + 20)%nat /\
  (list_sum (map entry_size (Entries idx)) mod 8 = 0)%nat.
Proof.
  intros Hsort Hh. split; [|split].
  - eapply List.Forall_impl; [|exact Hh]. intros e He.
    split; [now apply write_entry_length|apply entry_size_aligned].
  - unfold Write. cbn [snd]. destruct (Hsort Entry Path (Entries idx)) as [Hp _].
    rewrite length_app, Sum_length. unfold body.
    rewrite !length_app, flat_map_write_entry_length.
    + rewrite (list_sum_perm (map entry_size _) (map entry_size (Entries idx)))
        by now apply Permutation_map.
      cbn. lia.
    + eapply Permutation_Forall; [apply Permutation_sym, Hp|exact Hh].
  - apply list_sum_aligned. apply List.Forall_map.
    apply List.Forall_forall. intros e _. apply entry_size_aligned.
Qed.

End IndexLayout.

(** ** What [parseIndex] accepts and returns *)

Section ParseInvariants.
Import index.

Lemma Z_of_byte_range (b : byte) : 0 <= Z_of_byte b < 256.
Proof.
  unfold Z_of_byte. pose proof (Byte.to_N_bounded b). lia.
Qed.

Lemma lor_below (n a b : Z) :
  0 <= n -> 0 <= a < 2 ^ n -> 0 <= b < 2 ^ n -> 0 <= Z.lor a b < 2 ^ n.
Proof.
  intros Hn Ha Hb.
  assert (Hnn : 0 <= Z.lor a b) by (apply Z.lor_nonneg; lia).
  split; [assumption|].
  replace (Z.lor a b) with (Z.lor a b mod 2 ^ n);
    [apply Z.mod_pos_bound; lia|].
  apply Z.bits_inj'. intros i Hi.
  rewrite Z.testbit_mod_pow2 by assumption.
  destruct (Z.ltb_spec i n) as [Hlt|Hge]; [reflexivity|]. cbn [andb].
  rewrite Z.lor_spec.
  rewrite <- (Z.mod_small a (2 ^ n)), <- (Z.mod_small b (2 ^ n)) by lia.
  now rewrite !Z.mod_pow2_bits_high by lia.
Qed.

Lemma shifted_byte_below (b : byte) (k : Z) :
  0 <= k -> k + 8 <= 32 -> 0 <= Z.shiftl (Z_of_byte b) k < 2 ^ 32.
Proof.
  intros Hk Hk8. pose proof (Z_of_byte_range b) as Hb.
  rewrite Z.shiftl_mul_pow2 by assumption.
  assert (Hp : 0 < 2 ^ k) by (apply Z.pow_pos_nonneg; lia).
  split; [nia|].
  apply Z.lt_le_trans with (2 ^ 8 * 2 ^ k); [change (2 ^ 8) with 256; nia|].
  rewrite <- Z.pow_add_r by lia. apply Z.pow_le_mono_r; lia.
Qed.

Lemma Uint32_range (data : list byte) : uint32 (Uint32 data).
Proof.
  unfold uint32, Uint32, byte_at.
  repeat apply lor_below; try lia; try (apply shifted_byte_below; lia).
  pose proof (Z_of_byte_range (nth 3 data x00)). lia.
Qed.

Lemma Uint16_range (data : list byte) : uint16 (Uint16 data).
Proof.
  unfold uint16, Uint16, byte_at.
  pose proof (Z_of_byte_range (nth 0 data x00)) as H0.
  pose proof (Z_of_byte_range (nth 1 data x00)) as H1.
  apply lor_below; [lia| |lia].
  rewrite Z.shiftl_mul_pow2 by lia. lia.
Qed.

Lemma IndexByte_not_before (b : list byte) (c : byte) (n : nat) :
  IndexByte b c = Some n -> ~ In c (firstn n b).
Proof.
  revert n. induction b as [|x b IH]; intros n; cbn [IndexByte]; [discriminate|].
  destruct (Byte.eqb x c) eqn:Hx.
  - intros [= <-]. intros [].
  - destruct (IndexByte b c) as [i|]; [|discriminate].
    intros [= <-]. cbn [firstn]. intros [->|Hin].
    + rewrite (Byte.byte_dec_lb (eq_refl c)) in Hx. discriminate.
    + now apply (IH i).
Qed.

Lemma parse_entry_wf (d : list byte) (pos : nat) (e : Entry) (p : nat) :
  parse_entry d pos = Ok (e, p) ->
  wf_Entry e /\ nul_free (Path e) /\ (p <= length d + 7)%nat.
Proof.
  unfold parse_entry.
  destruct (length d <? pos + 62)%nat eqn:Hlen; [discriminate|].
  apply Nat.ltb_ge in Hlen.
  destruct (IndexByte (skipn (pos + 62) d) x00) as [n|] eqn:Hn; [|discriminate].
  pose proof (IndexByte_lt _ _ _ Hn) as Hlt. rewrite length_skipn in Hlt.
  pose proof (IndexByte_not_before _ _ _ Hn) as Hnot.
  intros [= <- <-]. split; [|split].
  - constructor; cbn; try apply Uint32_range; try apply Uint16_range.
    unfold slice. rewrite length_firstn, length_skipn. lia.
  - unfold nul_free. cbn [Path]. rewrite list_byte_of_string_of_list_byte.
    unfold slice.
    replace (pos + 62 + n - (pos + 62))%nat with n by lia. exact Hnot.
  - match goal with
    | |- context [padding_of ?a] =>
        pose proof (padding_of_spec a) as [Hpad _]
    end.
    lia.
Qed.

Lemma parse_entries_wf (d : list byte) (count : nat) :
  forall (pos : nat) (acc es : list Entry) (p : nat),
    parse_entries d count pos acc = Ok (es, p) ->
    Forall wf_Entry acc -> Forall (fun e => nul_free (Path e)) acc ->
    (pos <= length d + 7)%nat ->
    Forall wf_Entry es /\ Forall (fun e => nul_free (Path e)) es /\
    (p <= length d + 7)%nat.
Proof.
  induction count as [|count IH]; intros pos acc es p; cbn.
  - intros [= <- <-]. auto.
  - destruct (parse_entry d pos) as [[e p']|] eqn:He; [|discriminate].
    apply parse_entry_wf in He as (Hwf & Hnul & Hp').
    intros H Hacc Hnacc _. apply (IH _ _ _ _ H); [| |assumption].
    + apply Forall_app; split; [assumption|now constructor].
    + apply Forall_app; split; [assumption|now constructor].
Qed.

(** X5. An index that [parseIndex] returns is well formed: it has as
    many entries as the header counts, every integer field is in the
    range of its Go type, every content id is 20 bytes long, and no path
    holds a zero byte. *)
Theorem parseIndex_well_formed (data : list byte) (idx : Index) :
  parseIndex data = Ok idx ->
  length (Entries idx) = Z.to_nat (Uint32 (slice data 8 12)) /\
  Forall wf_Entry (Entries idx) /\
  Forall (fun e => nul_free (Path e)) (Entries idx).
Proof.
  unfold parseIndex, parseIndex_pos.
  destruct (length data <? 12)%nat eqn:Hlen; [discriminate|].
  apply Nat.ltb_ge in Hlen.
  destruct (negb _); [discriminate|]. destruct (negb _); [discriminate|].
  destruct (parse_entries data _ 12 []) as [[es p]|] eqn:Hes; [|discriminate].
  intros [= <-]. cbn [Entries].
  destruct (parse_entries_size _ _ _ _ _ _ Hes) as (new & -> & Hcount & _).
  destruct (parse_entries_wf _ _ _ _ _ _ Hes) as (Hwf & Hnul & _);
    [constructor|constructor|lia|].
  cbn [app] in *. auto.
Qed.

(** X6. [parseIndex] only accepts data that starts with the signature
    DIRC and the version 2 and that holds all the entry records the
    header counts: short, mis-signed, mis-versioned or truncated data is
    an error. Only the padding of the last record may be missing. *)
Theorem parseIndex_accepts (data : list byte) (idx : Index) :
  parseIndex data = Ok idx ->
  firstn 4 data = list_byte_of_string "DIRC" /\
  Uint32 (slice data 4 8) = 2 /\
  (12 + list_sum (map entry_size (Entries idx)) <= length data + 7)%nat.
Proof.
  unfold parseIndex, parseIndex_pos.
  destruct (length data <? 12)%nat eqn:Hlen; [discriminate|].
  apply Nat.ltb_ge in Hlen.
  destruct (negb (String.eqb _ IndexSignature)) eqn:Hsig; [discriminate|].
  destruct (negb (Uint32 (slice data 4 8) =? IndexVersion)) eqn:Hver;
    [discriminate|].
  destruct (parse_entries data _ 12 []) as [[es p]|] eqn:Hes; [|discriminate].
  intros [= <-]. cbn [Entries].
  apply negb_false_iff in Hsig, Hver.
  apply String.eqb_eq in Hsig. apply Z.eqb_eq in Hver.
  split; [|split].
  - apply (f_equal list_byte_of_string) in Hsig.
    now rewrite list_byte_of_string_of_list_byte in Hsig.
  - exact Hver.
  - destruct (parse_entries_size _ _ _ _ _ _ Hes) as (new & -> & _ & Hp).
    destruct (parse_entries_wf _ _ _ _ _ _ Hes) as (_ & _ & Hle);
      [constructor|constructor|lia|].
    cbn [app]. lia.
Qed.

End ParseInvariants.

(** ** More on the line diff *)

Section DiffMore.
Import diff diffspec diffmore.

Lemma backtrack_self (lcs : table) (ls : list string) (i : nat) :
  backtrack lcs ls ls i i
  = rev (map (fun k => mkChange ChangeEqual (Z.of_nat (S k)) (Z.of_nat (S k))
                                (line ls k)) (seq 0 i)).
Proof.
  induction i as [|i IH]; [reflexivity|].
  rewrite seq_S, map_app, rev_app_distr. cbn [map rev app Nat.add].
  cbn [backtrack]. rewrite String.eqb_refl. now rewrite IH.
Qed.

Lemma diffLines_self (ls : list string) :
  diffLines ls ls
  = map (fun k => mkChange ChangeEqual (Z.of_nat (S k)) (Z.of_nat (S k))
                           (line ls k)) (seq 0 (length ls)).
Proof. unfold diffLines. now rewrite backtrack_self, rev_involutive. Qed.

(** X7. The diff of a line sequence with itself is one equal change per
    line, numbered from 1 on both sides; so the diff of a text with
    itself has only equal changes. *)
Theorem Diff_self :
  (forall ls : list string,
      diffLines ls ls
      = map (fun k => mkChange ChangeEqual (Z.of_nat (S k)) (Z.of_nat (S k))
                               (line ls k)) (seq 0 (length ls))) /\
  (forall X : string,
      Forall (fun c => Type_ c = ChangeEqual) (Diff X X) /\
      map Text (Diff X X) = Split X).
Proof.
  split; [exact diffLines_self|].
  intros X. unfold Diff. rewrite diffLines_self. split.
  - apply List.Forall_map. apply List.Forall_forall. reflexivity.
  - rewrite map_map. cbn [Text].
    apply (nth_ext _ _ EmptyString EmptyString).
    + now rewrite length_map, length_seq.
    + intros n Hn. rewrite length_map, length_seq in Hn.
      rewrite (nth_indep _ _ (line (Split X) 0))
        by (now rewrite length_map, length_seq).
      rewrite (map_nth (fun k => line (Split X) k) (seq 0 _) 0%nat n).
      now rewrite seq_nth.
Qed.

Lemma backtrack_numbered (lcs : table) (oldLines newLines : list string) :
  forall i j : nat,
    (i <= length oldLines)%nat -> (j <= length newLines)%nat ->
    Forall (numbered oldLines newLines) (backtrack lcs oldLines newLines i j).
Proof.
  assert (Hpred : forall k : nat, Z.to_nat (Z.of_nat (S k) - 1) = k) by (intros; lia).
  induction i as [|i IHi].
  - induction j as [|j IHj]; intros Hi Hj; [constructor|].
    cbn [backtrack]. constructor; [|apply IHj; lia].
    unfold numbered. cbn [Type_ OldLine NewLine Text]. rewrite Hpred.
    repeat split; lia.
  - induction j as [|j IHj]; intros Hi Hj.
    + cbn [backtrack]. constructor; [|apply IHi; lia].
      unfold numbered. cbn [Type_ OldLine NewLine Text]. rewrite Hpred.
      repeat split; lia.
    + cbn [backtrack].
      destruct (String.eqb (line oldLines i) (line newLines j)) eqn:Heq.
      * apply String.eqb_eq in Heq. constructor; [|apply IHi; lia].
        unfold numbered. cbn [Type_ OldLine NewLine Text]. rewrite !Hpred.
        repeat split; try lia. exact Heq.
      * destruct (at2 lcs (S i) j >=? at2 lcs i (S j)).
        -- constructor; [|apply IHj; lia].
           unfold numbered. cbn [Type_ OldLine NewLine Text]. rewrite Hpred.
           repeat split; lia.
        -- constructor; [|apply IHi; lia].
           unfold numbered. cbn [Type_ OldLine NewLine Text]. rewrite Hpred.
           repeat split; lia.
Qed.

Lemma backtrack_numbers (lcs : table) (oldLines newLines : list string) :
  forall i j : nat,
    old_numbers (rev (backtrack lcs oldLines newLines i j))
    = map Z.of_nat (seq 1 i) /\
    new_numbers (rev (backtrack lcs oldLines newLines i j))
    = map Z.of_nat (seq 1 j).
Proof.
  unfold old_numbers, new_numbers.
  induction i as [|i IHi].
  - induction j as [|j IHj]; [split; reflexivity|].
    destruct IHj as [Ho Hn]. cbn [backtrack] in *. cbn [rev].
    rewrite !flat_map_app, Ho, Hn, seq_S, map_app. cbn. split; reflexivity.
  - induction j as [|j IHj].
    + destruct (IHi O) as [Ho Hn]. cbn [backtrack rev].
      rewrite !flat_map_app, Ho, Hn, seq_S, map_app. cbn.
      split; rewrite ?app_nil_r; reflexivity.
    + cbn [backtrack].
      destruct (String.eqb (line oldLines i) (line newLines j)).
      * destruct (IHi j) as [Ho Hn]. cbn [rev].
        rewrite !flat_map_app, Ho, Hn, !seq_S, !map_app. cbn.
        split; reflexivity.
      * destruct (at2 lcs (S i) j >=? at2 lcs i (S j)).
        -- destruct IHj as [Ho Hn]. cbn [backtrack] in Ho, Hn. cbn [rev].
           rewrite !flat_map_app, Ho, Hn, (seq_S j), map_app. cbn.
           split; rewrite ?app_nil_r; reflexivity.
        -- destruct (IHi (S j)) as [Ho Hn]. cbn [rev].
           rewrite !flat_map_app, Ho, Hn, (seq_S i), map_app. cbn.
           split; rewrite ?app_nil_r; reflexivity.
Qed.

(** X8. Every change of a diff carries the 1-based numbers of the lines
    it stands for, with 0 for the side it has no line on, and its text is
    the line at that number; the old numbers of the equal and delete
    changes run 1, 2, ..., m in order and the new numbers of the equal
    and insert changes run 1, 2, ..., n. *)
Theorem diffLines_numbered (oldLines newLines : list string) :
  Forall (numbered oldLines newLines) (diffLines oldLines newLines) /\
  old_numbers (diffLines oldLines newLines)
  = map Z.of_nat (seq 1 (length oldLines)) /\
  new_numbers (diffLines oldLines newLines)
  = map Z.of_nat (seq 1 (length newLines)).
Proof.
  unfold diffLines. split.
  - apply List.Forall_rev. apply backtrack_numbered; lia.
  - apply backtrack_numbers.
Qed.

End DiffMore.

(** ** Hunks *)

Section HunkFacts.
Import diff diffspec diffmore.

Lemma hunk_loop_equal (changes : list Change) (context : Z) (rest : list Change) :
  Forall (fun c => Type_ c = ChangeEqual) rest ->
  forall (i : Z) (st : hunkState), hunk_loop changes context i rest st = st.
Proof.
  induction 1 as [|c rest Hc _ IH]; intros i st; [reflexivity|].
  cbn [hunk_loop]. unfold hunk_step. rewrite Hc. cbn. apply IH.
Qed.

(** X9. A change list without insert or delete has no hunk, whatever the
    context, and is rendered as the two name lines alone. *)
Theorem equal_changes_no_hunk (changes : list Change) :
  Forall (fun c => Type_ c = ChangeEqual) changes ->
  (forall context : Z, groupIntoHunks changes context = []) /\
  (forall oldName newName : string,
      Format oldName newName changes
      = "--- a/" +:+ oldName +:+ eol +:+ "+++ b/" +:+ newName +:+ eol).
Proof.
  intros Heq.
  assert (Hnone : forall context : Z, groupIntoHunks changes context = []).
  { intros context. unfold groupIntoHunks.
    destruct (length changes =? 0)%nat; [reflexivity|].
    now rewrite hunk_loop_equal. }
  split; [exact Hnone|].
  intros oldName newName. unfold Format. rewrite Hnone. cbn [fold_left].
  unfold WriteString. rewrite !append_assoc. reflexivity.
Qed.



Section Grouping.
Variable changes : list Change.
Variable context : Z.
Hypothesis context_nonneg : 0 <= context.





End Grouping.


Lemma first_positive_nonneg (f : Change -> Z) (hunk : list Change) :
  0 <= first_positive f hunk.
Proof.
  induction hunk as [|c hunk IH]; cbn; [lia|].
  destruct (Z.gtb_spec (f c) 0); lia.
Qed.

Lemma count_step_fold (hunk : list Change) :
  forall a b : Z,
    fold_left count_step hunk (a, b)
    = (a + Z.of_nat (length (old_side hunk)),
       b + Z.of_nat (length (new_side hunk))).
Proof.
  unfold old_side, new_side.
  induction hunk as [|c hunk IH]; intros a b.
  - cbn. f_equal; lia.
  - cbn [fold_left flat_map]. unfold count_step at 2.
    destruct (Type_ c); rewrite IH, !length_app; cbn [length app];
      f_equal; lia.
Qed.

(** X11. The range header of a hunk counts its lines: the old count is
    the number of its equal and delete changes, the new count the number
    of its equal and insert changes, and both start lines are at least
    1, also for a hunk that has no line on one side. *)
Theorem hunkHeader_counts (hunk : list Change) :
  let '(oldStart, oldCount, newStart, newCount) := hunkHeader hunk in
  1 <= oldStart /\ 1 <= newStart /\
  oldCount = Z.of_nat (length (old_side hunk)) /\
  newCount = Z.of_nat (length (new_side hunk)).
Proof.
  unfold hunkHeader. destruct (length hunk =? 0)%nat eqn:Hlen.
  - apply Nat.eqb_eq in Hlen. destruct hunk; [|discriminate]. cbn. lia.
  - rewrite count_step_fold.
    pose proof (first_positive_nonneg OldLine hunk) as Ho.
    pose proof (first_positive_nonneg NewLine hunk) as Hn.
    destruct (Z.eqb_spec (first_positive OldLine hunk) 0),
             (Z.eqb_spec (first_positive NewLine hunk) 0);
      repeat split; lia.
Qed.

End HunkFacts.

(** ** Hexadecimal *)

Section HexFacts.

Lemma hex_byte (b : byte) :
  DecodeString (EncodeToString [b]) = [b].
Proof. destruct b; vm_compute; reflexivity. Qed.

Lemma DecodeString_EncodeToString (data : list byte) :
  DecodeString (EncodeToString data) = data.
Proof.
  induction data as [|b data IH]; [reflexivity|].
  pose proof (hex_byte b) as Hb.
  cbn [EncodeToString DecodeString] in *.
  destruct (fromHexChar (hex_digit (Z.shiftr (Z_of_byte b) 4))) as [hi|];
    [|discriminate].
  destruct (fromHexChar (hex_digit (Z.land (Z_of_byte b) 15))) as [lo|];
    [|discriminate].
  injection Hb as Hb. now rewrite Hb, IH.
Qed.

(** X12. Writing bytes in hexadecimal and reading them back gives the
    bytes. *)
Theorem HexToBytes_BytesToHex (data : list byte) :
  utils.HexToBytes (utils.BytesToHex data) = data.
Proof. apply DecodeString_EncodeToString. Qed.

Lemma lower_hex_pair (c1 c2 : ascii) :
  lower_hex c1 = true -> lower_hex c2 = true ->
  EncodeToString (DecodeString (String c1 (String c2 ""))) = String c1 (String c2 "").
Proof.
  destruct c1 as [[] [] [] [] [] [] [] []]; try discriminate; intros _;
    destruct c2 as [[] [] [] [] [] [] [] []]; try discriminate; intros _;
    vm_compute; reflexivity.
Qed.

Lemma hex_pairs_ind (P : string -> Prop) :
  P "" ->
  (forall c1 c2 rest,
      lower_hex c1 = true -> lower_hex c2 = true -> hex_pairs rest = true ->
      P rest -> P (String c1 (String c2 rest))) ->
  forall s, hex_pairs s = true -> P s.
Proof.
  intros H0 H2.
  fix IH 1. intros [|c1 [|c2 rest]] Hs; [exact H0|discriminate|].
  cbn [hex_pairs] in Hs.
  apply andb_true_iff in Hs as [Hs Hr]. apply andb_true_iff in Hs as [H1 H2'].
  apply H2; auto.
Qed.

Lemma EncodeToString_DecodeString (s : string) :
  hex_pairs s = true -> EncodeToString (DecodeString s) = s.
Proof.
  revert s. apply hex_pairs_ind; [reflexivity|].
  intros c1 c2 rest H1 H2 _ IH.
  pose proof (lower_hex_pair c1 c2 H1 H2) as Hp.
  cbn [DecodeString] in *.
  destruct (fromHexChar c1) as [hi|]; [|discriminate].
  destruct (fromHexChar c2) as [lo|]; [|discriminate].
  cbn [EncodeToString] in *. rewrite IH.
  injection Hp as -> ->. reflexivity.
Qed.

Lemma DecodeString_length (s : string) :
  hex_pairs s = true -> String.length s = (2 * length (DecodeString s))%nat.
Proof.
  revert s. apply hex_pairs_ind; [reflexivity|].
  intros c1 c2 rest H1 H2 _ IH.
  pose proof (lower_hex_pair c1 c2 H1 H2) as Hp.
  cbn [DecodeString] in *.
  destruct (fromHexChar c1) as [hi|]; [|discriminate].
  destruct (fromHexChar c2) as [lo|]; [|discriminate].
  cbn [length String.length]. lia.
Qed.

(** X13. Reading a string of an even number of lower-case hexadecimal
    digits and writing the bytes back gives the string, and there is one
    byte for every two digits. *)
Theorem BytesToHex_HexToBytes (s : string) :
  hex_pairs s = true ->
  utils.BytesToHex (utils.HexToBytes s) = s /\
  String.length s = (2 * length (utils.HexToBytes s))%nat.
Proof.
  intros Hs. split.
  - now apply EncodeToString_DecodeString.
  - now apply DecodeString_length.
Qed.

(** A hash string is made of lower-case hexadecimal digits. *)
Lemma hex_pairs_EncodeToString (data : list byte) :
  hex_pairs (EncodeToString data) = true.
Proof.
  induction data as [|b data IH]; [reflexivity|].
  cbn [EncodeToString hex_pairs]. rewrite IH.
  destruct b; vm_compute; reflexivity.
Qed.

End HexFacts.

(** ** Trees *)

Section TreeFacts.
Import object objectread.
Variable sort_Slice : sorter.
Hypothesis sort_ok : sort_contract sort_Slice.

Lemma skipn_at (pre X : list byte) (n : nat) :
  n = length pre -> skipn n (pre ++ X) = X.
Proof. intros ->. apply drop_app_length. Qed.

Lemma slice_at (pre X Y : list byte) (n m : nat) :
  n = length pre -> m = (n + length X)%nat ->
  index.slice (pre ++ X ++ Y) n m = X.
Proof.
  intros -> ->. unfold index.slice. rewrite drop_app_length.
  replace (length pre + length X - length pre)%nat with (length X) by lia.
  apply take_app_length.
Qed.

Lemma fold_write_tree_entry (es : list TreeEntry) :
  forall buf : list byte,
    fold_left write_tree_entry es buf = buf ++ flat_map tree_entry_bytes es.
Proof.
  induction es as [|e es IH]; intros buf; cbn [fold_left flat_map].
  - now rewrite app_nil_r.
  - rewrite IH. unfold tree_entry_bytes, write_tree_entry.
    cbn [app]. now rewrite <- !app_assoc.
Qed.

Lemma tree_entry_bytes_length (e : TreeEntry) :
  wf_TreeEntry e ->
  length (tree_entry_bytes e)
  = (String.length (Mode e) + String.length (Name e) + 22)%nat.
Proof.
  intros (_ & _ & Hhex & Hlen).
  apply DecodeString_length in Hhex. rewrite Hlen in Hhex.
  unfold tree_entry_bytes, write_tree_entry. cbn [app].
  repeat (rewrite ?length_app, ?list_byte_of_string_length; cbn [length]). lia.
Qed.

(** One turn of the loop over the bytes of one entry. *)
Lemma ParseTree_loop_entry (fuel : nat) (pre R : list byte) (e : TreeEntry)
    (tree : Tree) :
  wf_TreeEntry e ->
  ParseTree_loop (S fuel) (pre ++ tree_entry_bytes e ++ R) (length pre) tree
  = ParseTree_loop fuel (pre ++ tree_entry_bytes e ++ R)
      (length (pre ++ tree_entry_bytes e)) (mkTree (Entries tree ++ [e])).
Proof.
  intros We. pose proof (tree_entry_bytes_length e We) as Hlen.
  destruct We as (Hsp & Hnul & Hhex & H40).
  pose proof (DecodeString_length _ Hhex) as Hh. rewrite H40 in Hh.
  pose proof (EncodeToString_DecodeString _ Hhex) as Henc.
  rewrite length_app, Hlen.
  unfold tree_entry_bytes, write_tree_entry. cbn [app].
  rewrite <- (list_byte_of_string_length (Mode e)),
          <- (list_byte_of_string_length (Name e)).
  set (M := list_byte_of_string (Mode e)) in *.
  set (N := list_byte_of_string (Name e)) in *.
  set (H := DecodeString (Hash e)) in *.
  set (content := pre ++ (M ++ x20 :: N ++ x00 :: H) ++ R).
  assert (Hc : content = pre ++ M ++ x20 :: N ++ x00 :: H ++ R).
  { unfold content.
    repeat (rewrite <- app_assoc || rewrite <- app_comm_cons). reflexivity. }
  assert (Hcl : length content
                = (length pre + length M + length N + 22 + length R)%nat).
  { rewrite Hc. repeat (rewrite ?length_app; cbn [length]). lia. }
  assert (A1 : skipn (length pre) content = M ++ x20 :: N ++ x00 :: H ++ R).
  { rewrite Hc. now apply skipn_at. }
  assert (A2 : index.slice content (length pre) (length pre + length M) = M).
  { rewrite Hc. now apply slice_at. }
  assert (A3 : skipn (length pre + (length M + 1)) content = N ++ x00 :: H ++ R).
  { rewrite Hc. change (pre ++ M ++ x20 :: ?X) with (pre ++ M ++ [x20] ++ X).
    rewrite !app_assoc, <- app_assoc. apply skipn_at.
    rewrite !length_app. cbn [length]. lia. }
  assert (A4 : index.slice content (length pre + (length M + 1))
                 (length pre + (length M + 1) + length N) = N).
  { rewrite Hc. change (pre ++ M ++ x20 :: ?X) with (pre ++ M ++ [x20] ++ X).
    rewrite (app_assoc pre), (app_assoc (pre ++ M)).
    apply slice_at; [|reflexivity]. rewrite !length_app. cbn [length]. lia. }
  assert (A5 : index.slice content
                 (length pre + (length M + 1) + (length N + 1))
                 (length pre + (length M + 1) + (length N + 1) + 20) = H).
  { rewrite Hc.
    change (pre ++ M ++ x20 :: N ++ x00 :: H ++ R)
      with (pre ++ M ++ [x20] ++ N ++ [x00] ++ H ++ R).
    rewrite (app_assoc pre), (app_assoc (pre ++ M)), (app_assoc ((pre ++ M) ++ _)),
            (app_assoc (((pre ++ M) ++ _) ++ _)).
    apply slice_at; repeat (rewrite ?length_app; cbn [length]); lia. }
  cbn [ParseTree_loop]. cbv zeta.
  replace (length pre <? length content)%nat with true
    by (symmetry; apply Nat.ltb_lt; lia).
  rewrite A1, (IndexByte_first M _ x20 Hsp), A2, A3.
  rewrite (IndexByte_first N _ x00 Hnul), A4, A5.
  replace (length content <? _)%nat with false
    by (symmetry; apply Nat.ltb_ge; lia).
  unfold M, N. rewrite !string_of_list_byte_of_string, Henc.
  fold M N. f_equal; [lia|]. now destruct e.
Qed.

Lemma ParseTree_loop_entries (es : list TreeEntry) :
  Forall wf_TreeEntry es ->
  forall (fuel : nat) (pre : list byte) (tree : Tree),
    (length es <= fuel)%nat ->
    ParseTree_loop fuel (pre ++ flat_map tree_entry_bytes es) (length pre) tree
    = Some (Ok (mkTree (Entries tree ++ es))).
Proof.
  induction 1 as [|e es We _ IH]; intros fuel pre tree Hfuel.
  - cbn [flat_map]. rewrite !app_nil_r.
    destruct fuel; cbn [ParseTree_loop]; rewrite Nat.ltb_irrefl; now destruct tree.
  - destruct fuel as [|fuel]; [cbn in Hfuel; lia|].
    cbn [flat_map]. rewrite (ParseTree_loop_entry _ _ _ _ _ We).
    rewrite app_assoc, IH by (cbn in Hfuel; lia).
    cbn [Entries]. now rewrite <- app_assoc.
Qed.

Lemma ParseTree_sorted (t : Tree) :
  Forall wf_TreeEntry (Entries t) ->
  ParseTree (Tree_Content sort_Slice t)
  = Some (Ok (mkTree (sort_Slice TreeEntry (less_by Name) (Entries t)))).
Proof.
  intros Hwf. unfold ParseTree, Tree_Content.
  destruct (sort_ok TreeEntry Name (Entries t)) as [Hp _].
  set (es := sort_Slice TreeEntry (less_by Name) (Entries t)) in *.
  assert (Hes : Forall wf_TreeEntry es).
  { now rewrite Hp. }
  rewrite fold_write_tree_entry.
  apply (ParseTree_loop_entries es Hes _ [] NewTree).
  cbn [app]. clear Hp. induction Hes as [|e es' We _ IH]; [cbn; lia|].
  cbn [flat_map length]. rewrite length_app, (tree_entry_bytes_length e We). lia.
Qed.

(** X14. Parsing the content of a tree gives back its entries, sorted by
    name, when every entry has a mode without a space, a name without a
    zero byte and a hash of 40 lower-case hexadecimal digits. *)
Theorem ParseTree_Content (t : Tree) :
  Forall wf_TreeEntry (Entries t) ->
  ParseTree (Tree_Content sort_Slice t)
  = Some (Ok (mkTree (sort_Slice TreeEntry (less_by Name) (Entries t)))).
Proof. apply ParseTree_sorted. Qed.

(** X15. The content of a tree, and so its id, does not depend on the
    order in which entries of distinct names were added. *)
Theorem Tree_Content_order (t1 t2 : Tree) :
  Permutation (Entries t1) (Entries t2) ->
  List.NoDup (map Name (Entries t1)) ->
  Tree_Content sort_Slice t1 = Tree_Content sort_Slice t2 /\
  utils.HashObject TypeTree (Tree_Content sort_Slice t1)
  = utils.HashObject TypeTree (Tree_Content sort_Slice t2).
Proof.
  intros Hp Hnd.
  assert (H : Tree_Content sort_Slice t1 = Tree_Content sort_Slice t2).
  { unfold Tree_Content.
    now rewrite (sort_Slice_perm_eq sort_Slice Name _ _ sort_ok Hp Hnd). }
  split; [exact H|now rewrite H].
Qed.

Lemma IndexByte_take (l : list byte) (c : byte) (n : nat) :
  index.IndexByte l c = Some n -> firstn (n + 1) l = firstn n l ++ [c].
Proof.
  revert n. induction l as [|x l IH]; intros n; cbn [index.IndexByte];
    [discriminate|].
  destruct (Byte.eqb x c) eqn:Hx.
  - intros [= <-]. apply Byte.byte_dec_bl in Hx. now subst.
  - destruct (index.IndexByte l c) as [i|]; [|discriminate].
    intros [= <-]. cbn [firstn Nat.add app]. f_equal. now apply IH.
Qed.

Lemma firstn_plus (a b : nat) (l : list byte) :
  firstn (a + b) l = firstn a l ++ firstn b (skipn a l).
Proof.
  revert l. induction a as [|a IH]; intros [|x l]; cbn;
    rewrite ?firstn_nil; try reflexivity.
  now rewrite IH.
Qed.

Lemma ParseTree_loop_lossless (fuel : nat) :
  forall (content : list byte) (pos : nat) (tree t : Tree),
    ParseTree_loop fuel content pos tree = Some (Ok t) ->
    (pos <= length content)%nat ->
    flat_map tree_entry_bytes (Entries tree) = firstn pos content ->
    flat_map tree_entry_bytes (Entries t) = content.
Proof.
  assert (Hend : forall (content : list byte) (pos : nat) (tree t : Tree),
             (length content <= pos)%nat -> Some (Ok tree) = Some (@Ok tree_error _ t) ->
             (pos <= length content)%nat ->
             flat_map tree_entry_bytes (Entries tree) = firstn pos content ->
             flat_map tree_entry_bytes (Entries t) = content).
  { intros content pos tree t Hge [= <-] Hle Hinv. rewrite Hinv.
    apply firstn_all2. lia. }
  induction fuel as [|fuel IH]; intros content pos tree t; cbn [ParseTree_loop].
  - destruct (Nat.ltb_spec pos (length content)); [discriminate|]. now apply Hend.
  - destruct (Nat.ltb_spec pos (length content)) as [Hlt|Hge]; [|now apply Hend].
    destruct (index.IndexByte (skipn pos content) x20) as [sp|] eqn:Hsp;
      [|discriminate].
    cbv zeta.
    destruct (index.IndexByte (skipn (pos + (sp + 1)) content) x00) as [nl|] eqn:Hnl;
      [|discriminate].
    destruct (Nat.ltb_spec (length content) (pos + (sp + 1) + (nl + 1) + 20))
      as [|Hfit]; [discriminate|].
    intros Hrun Hle Hinv.
    apply IH in Hrun; [assumption|lia|].
    cbn [Entries]. rewrite flat_map_app, Hinv. cbn [flat_map]. rewrite app_nil_r.
    unfold tree_entry_bytes, write_tree_entry. cbn [Mode Name Hash app].
    rewrite !list_byte_of_string_of_list_byte, DecodeString_EncodeToString.
    unfold index.slice.
    replace (pos + sp - pos)%nat with sp by lia.
    replace (pos + (sp + 1) + nl - (pos + (sp + 1)))%nat with nl by lia.
    replace (pos + (sp + 1) + (nl + 1) + 20 - (pos + (sp + 1) + (nl + 1)))%nat
      with 20%nat by lia.
    rewrite (firstn_plus _ 20), (firstn_plus _ (nl + 1)), (firstn_plus pos (sp + 1)).
    rewrite (IndexByte_take _ _ _ Hsp), (IndexByte_take _ _ _ Hnl).
    repeat (rewrite <- app_assoc || rewrite <- app_comm_cons). reflexivity.
Qed.

Lemma ParseTree_loop_returns (fuel : nat) :
  forall (content : list byte) (pos : nat) (tree : Tree),
    (length content - pos <= fuel)%nat ->
    ParseTree_loop fuel content pos tree <> None.
Proof.
  induction fuel as [|fuel IH]; intros content pos tree Hfuel;
    cbn [ParseTree_loop].
  - destruct (Nat.ltb_spec pos (length content)); [lia|discriminate].
  - destruct (Nat.ltb_spec pos (length content)); [|discriminate].
    destruct (index.IndexByte _ x20); [|discriminate]. cbv zeta.
    destruct (index.IndexByte _ x00); [|discriminate].
    destruct (_ <? _)%nat; [discriminate|].
    apply IH. lia.
Qed.

(** X16. [ParseTree] returns on every content, and a tree it returns
    holds the whole content: writing its entries in their order, each as
    [Content] writes an entry, gives the content back byte for byte. *)
Theorem ParseTree_lossless (content : list byte) :
  ParseTree content <> None /\
  (forall t : Tree,
      ParseTree content = Some (Ok t) ->
      fold_left write_tree_entry (Entries t) [] = content).
Proof.
  split.
  - apply ParseTree_loop_returns. lia.
  - intros t Ht. rewrite fold_write_tree_entry. cbn [app].
    apply (ParseTree_loop_lossless _ content 0%nat NewTree t Ht); [lia|reflexivity].
Qed.

End TreeFacts.

(** ** Raw objects *)

Section ObjectReadFacts.
Import object objectread.
Variable inflate : list byte -> option (list byte).
Variable Commit : Type.
Variable commit_error : Type.
Variable ParseCommit : list byte -> result commit_error Commit.

Lemma list_byte_of_string_app (a b : string) :
  list_byte_of_string (a +:+ b) = list_byte_of_string a ++ list_byte_of_string b.
Proof.
  induction a as [|c a IH]; [reflexivity|].
  change (String c a +:+ b) with (String c (a +:+ b)).
  unfold list_byte_of_string in *. cbn [list_ascii_of_string map app].
  now rewrite IH.
Qed.

Lemma string_of_uint_digits (d : Decimal.uint) :
  Forall (fun b => b <> x00 /\ b <> x20)
         (list_byte_of_string (NilEmpty.string_of_uint d)).
Proof.
  assert (step : forall (c : ascii) (s : string),
             byte_of_ascii c <> x00 /\ byte_of_ascii c <> x20 ->
             Forall (fun b => b <> x00 /\ b <> x20) (list_byte_of_string s) ->
             Forall (fun b => b <> x00 /\ b <> x20)
                    (list_byte_of_string (String c s))).
  { intros c s Hc Hs.
    change (list_byte_of_string (String c s))
      with (byte_of_ascii c :: list_byte_of_string s).
    now constructor. }
  induction d as [|d IH|d IH|d IH|d IH|d IH|d IH|d IH|d IH|d IH|d IH];
    cbn [NilEmpty.string_of_uint]; [constructor|..];
    (apply step; [split; intros Hx; vm_compute in Hx; discriminate|exact IH]).
Qed.

Lemma fmt_d_digits (n : Z) :
  0 <= n -> Forall (fun b => b <> x00 /\ b <> x20) (list_byte_of_string (fmt_d n)).
Proof.
  intros Hn. unfold fmt_d. destruct n as [|p|p]; [| |lia];
    cbn [Z.to_int NilZero.string_of_int]; unfold NilZero.string_of_uint.
  - apply (string_of_uint_digits (Decimal.D0 Decimal.Nil)).
  - destruct (Pos.to_uint p); try apply string_of_uint_digits.
    apply (string_of_uint_digits (Decimal.D0 Decimal.Nil)).
Qed.

Lemma Atoi_fmt_d (n : Z) :
  0 <= n < 2 ^ 63 -> strconv.Atoi (fmt_d n) = Some n.
Proof.
  intros Hn. destruct n as [|p|p]; [reflexivity| |lia].
  unfold fmt_d, strconv.Atoi. cbn [Z.to_int NilZero.string_of_int].
  pose proof (DecimalPos.Unsigned.of_to p) as Hof.
  assert (Hnil : Pos.to_uint p <> Decimal.Nil).
  { intros E. rewrite E in Hof. discriminate. }
  pose proof (NilZero.usu _ Hnil) as Hus.
  assert (Hval : Z.of_N (N.of_uint (Pos.to_uint p)) = Z.pos p).
  { unfold N.of_uint. now rewrite Hof. }
  assert (Hin : (- 2 ^ 63 <=? Z.pos p) && (Z.pos p <? 2 ^ 63) = true).
  { apply andb_true_iff. split; [apply Z.leb_le|apply Z.ltb_lt]; lia. }
  destruct (Pos.to_uint p) eqn:E; [congruence| | | | | | | | | |];
    cbn [NilZero.string_of_uint NilEmpty.string_of_uint] in *;
    match goal with
    | |- context [String ?c ?s] =>
        change (match String c s with
                | String "+"%char rest => (false, rest)
                | String "-"%char rest => (true, rest)
                | _ => (false, String c s)
                end) with (false, String c s)
    end;
    cbn [String.eqb Ascii.eqb]; rewrite Hus, Hval, Hin; reflexivity.
Qed.

Lemma header_bytes (ty : string) (n : Z) :
  list_byte_of_string (utils.header ty n)
  = (list_byte_of_string ty ++ x20 :: list_byte_of_string (fmt_d n)) ++ [x00].
Proof.
  unfold utils.header. rewrite !list_byte_of_string_app.
  change (list_byte_of_string " ") with [x20].
  change (list_byte_of_string (String NUL "")) with [x00].
  cbn [app]. now rewrite <- app_assoc.
Qed.

Lemma parse_header_frame (ty : string) (n : Z) :
  ~ In x20 (list_byte_of_string ty) -> 0 <= n < 2 ^ 63 ->
  parse_header (commit_error := commit_error)
    (list_byte_of_string ty ++ x20 :: list_byte_of_string (fmt_d n))
  = Ok (ty, n).
Proof.
  intros Hsp Hn. unfold parse_header.
  rewrite (IndexByte_first _ _ x20 Hsp), take_app_length.
  change (list_byte_of_string ty ++ x20 :: ?X)
    with (list_byte_of_string ty ++ [x20] ++ X).
  rewrite app_assoc, (skipn_at (_ ++ [x20])) by (rewrite length_app; reflexivity).
  now rewrite !string_of_list_byte_of_string, Atoi_fmt_d.
Qed.

(** The raw object that [WriteObject] stores for a type and a content:
    the null byte is found after the header, and what follows it is the
    content. *)
Lemma frame_split (ty : string) (content : list byte) :
  index.nul_free ty ->
  let n := Z.of_nat (length content) in
  let data := list_byte_of_string (utils.header ty n) ++ content in
  let header := list_byte_of_string ty ++ x20 :: list_byte_of_string (fmt_d n) in
  index.IndexByte data x00 = Some (length header) /\
  firstn (length header) data = header /\
  skipn (length header + 1) data = content.
Proof.
  intros Hnul. cbv zeta. rewrite header_bytes.
  set (header := list_byte_of_string ty ++ x20 :: _).
  assert (Hfree : ~ In x00 header).
  { unfold header. rewrite in_app_iff. intros [Hin|[Hin|Hin]].
    - now apply Hnul.
    - discriminate.
    - pose proof (fmt_d_digits (Z.of_nat (length content)) ltac:(lia)) as Hd.
      rewrite List.Forall_forall in Hd. now destruct (Hd _ Hin). }
  rewrite <- !app_assoc. cbn [app]. repeat split.
  - now apply IndexByte_first.
  - apply take_app_length.
  - change (header ++ x00 :: content) with (header ++ [x00] ++ content).
    rewrite app_assoc. apply skipn_at. rewrite length_app. reflexivity.
Qed.

Lemma blob_frame_parses (content : list byte) :
  Z.of_nat (length content) < 2 ^ 63 ->
  ParseObject ParseCommit
    (list_byte_of_string (utils.header TypeBlob (Z.of_nat (length content)))
     ++ content)
  = Some (Ok (ParsedBlob (NewBlob content))).
Proof.
  intros Hlen. unfold ParseObject.
  destruct (frame_split TypeBlob content) as (-> & -> & ->).
  { intros [H|[H|[H|[H|[]]]]]; discriminate. }
  rewrite parse_header_frame; [| intros [H|[H|[H|[H|[]]]]]; discriminate | lia].
  now rewrite Z.eqb_refl.
Qed.

(** X17. Parsing the raw object of a blob, as [WriteObject] frames it,
    gives the blob back. *)
Theorem ParseObject_blob (content : list byte) :
  Z.of_nat (length content) < 2 ^ 63 ->
  ParseObject ParseCommit
    (list_byte_of_string (utils.header TypeBlob (Z.of_nat (length content)))
     ++ content)
  = Some (Ok (ParsedBlob (NewBlob content))).
Proof. apply blob_frame_parses. Qed.

(** X18. A raw object whose type is none of blob, tree and commit, a
    tag for one, is refused as of unknown type whatever its content. *)
Theorem ParseObject_unknown_type (ty : string) (content : list byte) :
  index.nul_free ty -> ~ In x20 (list_byte_of_string ty) ->
  ty <> TypeBlob -> ty <> TypeTree -> ty <> TypeCommit ->
  Z.of_nat (length content) < 2 ^ 63 ->
  ParseObject ParseCommit
    (list_byte_of_string (utils.header ty (Z.of_nat (length content))) ++ content)
  = Some (Err (ErrUnknownType ty)).
Proof.
  intros Hnul Hsp Hb Ht Hc Hlen. unfold ParseObject.
  destruct (frame_split ty content Hnul) as (-> & -> & ->).
  rewrite parse_header_frame; [|assumption|lia].
  rewrite Z.eqb_refl. cbn [negb].
  apply String.eqb_neq in Hb, Ht, Hc. now rewrite Hb, Ht, Hc.
Qed.

Lemma next_fault_none (w : os.World) :
  os.faults w = [] -> os.next_fault w = (w, false).
Proof. intros H. unfold os.next_fault. now rewrite H. Qed.

(** X19. Reading an object whose file holds the compressed raw object of
    a blob returns the blob and leaves the world as it is, whatever the
    hash asked for: the hash only names the file and is not compared
    with the content. *)
Theorem ReadObject_blob (w : os.World) (repoPath hash : string)
    (zlib : list byte -> list byte) (content : list byte) :
  let store := list_byte_of_string
                 (utils.header TypeBlob (Z.of_nat (length content))) ++ content in
  (4 <= String.length hash)%nat ->
  os.faults w = [] ->
  os.files w !! objPath repoPath hash = Some (zlib store) ->
  inflate (zlib store) = Some store ->
  Z.of_nat (length content) < 2 ^ 63 ->
  ReadObject inflate ParseCommit w repoPath hash
  = (w, Some (Ok (ParsedBlob (NewBlob content)))).
Proof.
  cbv zeta. intros Hhash Hfaults Hfile Hinf Hlen. unfold ReadObject.
  replace (String.length hash <? 4)%nat with false
    by (symmetry; apply Nat.ltb_ge; lia).
  unfold osread.ReadFile. rewrite (next_fault_none w Hfaults), Hfile, Hinf.
  now rewrite blob_frame_parses.
Qed.

(** X20. Whenever [ReadObject] returns an object, [GetObjectInfo] on the
    same world and hash returns the type of that object, and for a blob
    the size it returns is the length of the blob's content. *)
Theorem GetObjectInfo_ReadObject (w w' : os.World) (repoPath hash : string)
    (obj : parsed Commit) :
  ReadObject inflate ParseCommit w repoPath hash = (w', Some (Ok obj)) ->
  exists size : Z,
    GetObjectInfo inflate (commit_error := commit_error) w repoPath hash
    = (w', Some (Ok (type_of obj, size))) /\
    (forall b : Blob, obj = ParsedBlob b -> size = Z.of_nat (length (content b))).
Proof.
  unfold ReadObject, GetObjectInfo.
  destruct (Nat.ltb_spec (String.length hash) 4) as [|H4]; [discriminate|].
  replace (String.length hash <? 2)%nat with false
    by (symmetry; apply Nat.ltb_ge; lia).
  destruct (osread.ReadFile w (objPath repoPath hash)) as [w1 [compressed|e]];
    [|discriminate].
  destruct (inflate compressed) as [data|]; [|discriminate].
  unfold ParseObject.
  destruct (index.IndexByte data x00) as [nullIdx|]; [|discriminate].
  destruct (parse_header (firstn nullIdx data)) as [[objType size]|e];
    [|discriminate].
  destruct (Z.eqb_spec (Z.of_nat (length (skipn (nullIdx + 1) data))) size)
    as [Hsize|]; [|discriminate]. cbn [negb].
  intros Hrun. exists size. revert Hrun.
  destruct (String.eqb_spec objType TypeBlob) as [->|_].
  { intros [= <- <-]. split; [reflexivity|]. now intros b [= <-]. }
  destruct (String.eqb_spec objType TypeTree) as [->|_].
  { destruct (ParseTree _) as [[t|e]|]; [|discriminate..].
    intros [= <- <-]. split; [reflexivity|discriminate]. }
  destruct (String.eqb_spec objType TypeCommit) as [->|_]; [|discriminate].
  destruct (ParseCommit _) as [c|e]; [|discriminate].
  intros [= <- <-]. split; [reflexivity|discriminate].
Qed.

End ObjectReadFacts.

Section TreeObjectFacts.
Import object objectread.
Variable sort_Slice : sorter.
Hypothesis sort_ok : sort_contract sort_Slice.
Variable Commit : Type.
Variable commit_error : Type.
Variable ParseCommit : list byte -> result commit_error Commit.

(** X21. Parsing the raw object of a tree, as [WriteObject] frames it,
    gives the tree with its entries sorted by name, for entries that the
    format can hold. *)
Theorem ParseObject_tree (t : Tree) :
  Forall wf_TreeEntry (Entries t) ->
  Z.of_nat (length (Tree_Content sort_Slice t)) < 2 ^ 63 ->
  ParseObject ParseCommit
    (list_byte_of_string
       (utils.header TypeTree (Z.of_nat (length (Tree_Content sort_Slice t))))
     ++ Tree_Content sort_Slice t)
  = Some (Ok (ParsedTree
                (mkTree (sort_Slice TreeEntry (less_by Name) (Entries t))))).
Proof.
  intros Hwf Hlen. unfold ParseObject.
  destruct (frame_split TypeTree (Tree_Content sort_Slice t)) as (-> & -> & ->).
  { intros [H|[H|[H|[H|[]]]]]; discriminate. }
  rewrite parse_header_frame; [| intros [H|[H|[H|[H|[]]]]]; discriminate | lia].
  rewrite Z.eqb_refl. cbn [negb].
  change (String.eqb TypeTree TypeBlob) with false.
  change (String.eqb TypeTree TypeTree) with true. cbv iota.
  now rewrite (ParseTree_sorted sort_Slice sort_ok t Hwf).
Qed.

End TreeObjectFacts.

(** ** The index file *)

Section IndexFileFacts.
Import index indexfile.
Variable sort_Slice : sorter.
Hypothesis sort_ok : sort_contract sort_Slice.

(** X22. After the index has been written, with no storage fault, it is
    read back as the call left it: the entries sorted by path. *)
Theorem ReadIndex_WriteFile (w : os.World) (idx : Index) (repoPath : string) :
  os.faults w = [] ->
  Forall wf_Entry (Entries idx) ->
  Forall (fun e => nul_free (Path e)) (Entries idx) ->
  Z.of_nat (length (Entries idx)) < 2 ^ 32 ->
  exists w1 : os.World,
    let sorted := mkIndex (sort_Slice Entry (less_by Path) (Entries idx)) in
    WriteFile sort_Slice w idx repoPath = (w1, sorted, true) /\
    ReadIndex w1 repoPath = (w1, Ok sorted).
Proof.
  intros Hfaults Hwf Hnul Hlen.
  destruct (sort_ok Entry Path (Entries idx)) as [Hp _].
  unfold WriteFile, Write, os.WriteFile.
  set (es := sort_Slice Entry (less_by Path) (Entries idx)) in *.
  rewrite (next_fault_none w Hfaults).
  eexists. cbv zeta. split; [reflexivity|].
  unfold ReadIndex, osread.ReadFile.
  rewrite next_fault_none by assumption.
  cbn [os.files]. rewrite lookup_insert_eq.
  unfold parseIndex. rewrite parseIndex_pos_body; [reflexivity|..].
  - now rewrite Hp.
  - now rewrite Hp.
  - now rewrite (Permutation_length Hp).
Qed.


End IndexFileFacts.

(** ** Paths and the tree builder *)

Section SplitFacts.
Import repository.

Lemma Split_chars_sep_free (l : list ascii) :
  forallb (fun c => negb (filepath.isSep c)) l = true ->
  filepath.Split_chars l = ([], l).
Proof.
  induction l as [|c l IH]; [reflexivity|].
  cbn [forallb filepath.Split_chars]. intros H.
  apply andb_true_iff in H as [Hc Hl]. rewrite (IH Hl).
  apply negb_true_iff in Hc. now rewrite Hc.
Qed.

Lemma Split_name (name : string) :
  sep_free name = true -> filepath.Split name = ("", name).
Proof.
  intros H. unfold filepath.Split.
  rewrite (Split_chars_sep_free _ H). cbn [string_of_list_ascii].
  now rewrite string_of_list_ascii_of_string.
Qed.

Lemma Split_rooted (name : string) :
  sep_free name = true -> filepath.Split (String "/" name) = ("/", name).
Proof.
  intros H. unfold filepath.Split.
  cbn [list_ascii_of_string filepath.Split_chars].
  rewrite (Split_chars_sep_free _ H).
  change (filepath.isSep "/") with true. cbv iota.
  cbn [string_of_list_ascii]. now rewrite string_of_list_ascii_of_string.
Qed.

Lemma splitPath_loop_root (fuel : nat) :
  forall parts : list string, splitPath_loop fuel "/" parts = None.
Proof.
  induction fuel as [|fuel IH]; intros parts; [reflexivity|].
  change (splitPath_loop (S fuel) "/" parts) with (splitPath_loop fuel "/" parts).
  apply IH.
Qed.

Lemma splitPath_plain (name : string) :
  sep_free name = true -> name <> "" -> splitPath name = Some [name].
Proof.
  intros Hfree Hne. unfold splitPath. cbn [splitPath_loop].
  apply String.eqb_neq in Hne. rewrite Hne, (Split_name name Hfree), Hne.
  reflexivity.
Qed.

(** X24. [splitPath] does not return on a name directly under the root:
    after the name it is left with the path [/], which [Split] and
    [Clean] give back unchanged, so its loop goes on for any number of
    turns. A name without separator and not empty is its own one part. *)
Theorem splitPath_rooted (name : string) :
  sep_free name = true ->
  (forall (fuel : nat) (parts : list string),
      splitPath_loop fuel (String "/" name) parts = None) /\
  (name <> "" -> splitPath name = Some [name]).
Proof.
  intros Hfree. split; [|now apply splitPath_plain].
  intros [|fuel] parts; [reflexivity|].
  cbn [splitPath_loop]. change (String.eqb (String "/" name) "") with false.
  cbv iota. rewrite (Split_rooted name Hfree).
  change (String.eqb "/" "") with false. cbv iota.
  change (filepath.Clean "/") with "/". change (String.eqb "/" ".") with false.
  cbv iota. apply splitPath_loop_root.
Qed.

End SplitFacts.

Section RootStored.
Import repository object.
Variable sort_Slice : sorter.
Variable zlib : list byte -> list byte.
Variable repoPath : string.

(** X25. When [BuildTreeRecursive] returns an id, with or without
    storage faults on the way, the id is that of a tree and the object
    file of the root tree is in the store. *)
Theorem BuildTreeRecursive_stored (w w' : os.World) (idx : index.Index)
    (id : string) :
  BuildTreeRecursive sort_Slice zlib repoPath w idx = (w', Ok id) ->
  os.Stat w' (objPath_of repoPath id) = true /\
  exists tree : Tree,
    id = utils.HashObject TypeTree (Tree_Content sort_Slice tree).
Proof.
  unfold BuildTreeRecursive.
  destruct (buildDir (index.Entries idx)) as [root|e]; [|discriminate].
  destruct (buildTreeFromDir sort_Slice zlib repoPath root w) as [w1 r] eqn:Hb.
  destruct r as [hash|e]; [|discriminate]. intros [= <- <-].
  assert (Hw : exists (w0 : os.World) (tree : Tree),
             WriteObject (H := Tree_Object sort_Slice) zlib w0 repoPath tree
             = (w1, Ok hash)).
  { destruct root as [mode name h|name entries]; cbn [buildTreeFromDir] in Hb;
      destruct (os.next_order w _) as [wa names];
      destruct (visit_all _ _ _) as [wb [tree|e]]; [|discriminate| |discriminate];
      eauto. }
  destruct Hw as (w0 & tree & Hw).
  apply WriteObject_files in Hw. cbv zeta in Hw.
  destruct Hw as (Hid & _ & Hstat). split; [assumption|].
  exists tree. exact Hid.
Qed.

End RootStored.

Section FlatTree.
Import repository object treespec.
Variable sort_Slice : sorter.
Hypothesis sort_ok : sort_contract sort_Slice.
Variable zlib : list byte -> list byte.
Variable repoPath : string.

Lemma BuildTree_entries (idx : index.Index) :
  Entries (BuildTree idx) = map tree_entry_of (index.Entries idx).
Proof.
  unfold BuildTree.
  assert (H : forall (es : list index.Entry) (t : Tree),
             Entries (fold_left
                        (fun tree entry =>
                           AddEntry tree (fmt_o (index.Mode entry))
                                    (index.Path entry) (index.HashString entry))
                        es t)
             = Entries t ++ map tree_entry_of es).
  { induction es as [|e es IH]; intros t; cbn [fold_left map].
    - now rewrite app_nil_r.
    - rewrite IH. cbn [AddEntry Entries]. now rewrite <- app_assoc. }
  now rewrite H.
Qed.

(** The directory structure of an index of plain names: one file node
    for every entry, under its path. *)
Lemma buildDir_flat (es : list index.Entry) :
  Forall (fun e => sep_free (index.Path e) = true /\ index.Path e <> "") es ->
  forall m : gmap string dirEntry,
    fold_left insertEntry es (Ok (DirNode "" m))
    = Ok (DirNode "" (fold_left (fun m e => <[index.Path e := file_node_of e]> m)
                                es m)).
Proof.
  induction 1 as [|e es [Hfree Hne] _ IH]; intros m; [reflexivity|].
  cbn [fold_left]. unfold insertEntry at 2.
  rewrite (splitPath_plain _ Hfree Hne). cbn [insertParts]. apply IH.
Qed.

Lemma flat_map_to_list (es : list index.Entry) :
  List.NoDup (map index.Path es) ->
  forall m : gmap string dirEntry,
    (forall e, In e es -> m !! index.Path e = None) ->
    map_to_list (fold_left (fun m e => <[index.Path e := file_node_of e]> m) es m)
    ≡ₚ map (fun e => (index.Path e, file_node_of e)) es ++ map_to_list m.
Proof.
  induction es as [|e es IH]; intros Hnd m Hfresh; [reflexivity|].
  cbn [map] in Hnd. apply List.NoDup_cons_iff in Hnd as [Hnotin Hnd].
  cbn [fold_left map app]. rewrite IH; [|assumption|].
  - rewrite map_to_list_insert by (apply Hfresh; now left).
    symmetry. apply Permutation_middle.
  - intros e' He'. rewrite lookup_insert_ne; [apply Hfresh; now right|].
    intros Heq. apply Hnotin. rewrite Heq. now apply in_map.
Qed.

(** X26. For an index of plain names, pairwise distinct, the root tree
    that [BuildTreeRecursive] stores in a world without storage fault is
    the flat tree of [BuildTree]: the id it returns is the id of that
    tree. *)
Theorem BuildTreeRecursive_flat (w : os.World) (idx : index.Index) :
  os.quiet w ->
  Forall (fun e => sep_free (index.Path e) = true /\ index.Path e <> "")
         (index.Entries idx) ->
  List.NoDup (map index.Path (index.Entries idx)) ->
  snd (BuildTreeRecursive sort_Slice zlib repoPath w idx)
  = Ok (utils.HashObject TypeTree (Tree_Content sort_Slice (BuildTree idx))).
Proof.
  intros Hq Hflat Hnd. unfold BuildTreeRecursive, buildDir.
  rewrite (buildDir_flat _ Hflat).
  set (M := fold_left _ (index.Entries idx) ∅).
  destruct (buildTreeFromDir_quiet sort_Slice sort_ok zlib repoPath
              (DirNode "" M) w Hq) as (w' & -> & _).
  cbn [snd]. f_equal. cbn [treeId]. f_equal.
  unfold Tree_Content. cbn [Entries]. f_equal.
  rewrite BuildTree_entries. symmetry.
  apply (sort_Slice_perm_eq sort_Slice Name); [assumption| |].
  - rewrite map_to_list_fmap.
    change (map ?g (prod_map id ?f <$> ?l)) with (map g (map (prod_map id f) l)).
    rewrite map_map.
    pose proof (flat_map_to_list _ Hnd ∅ (fun e _ => lookup_empty _)) as Hp.
    fold M in Hp. rewrite map_to_list_empty, app_nil_r in Hp.
    rewrite Hp, map_map. reflexivity.
  - rewrite map_map. exact Hnd.
Qed.

End FlatTree.

(** ** The diff keeps a longest common subsequence *)

Section LcsFacts.
Import diff diffspec diffmore.
Variables oldLines newLines : list string.
Local Abbreviation m := (length oldLines).
Local Abbreviation n := (length newLines).
Local Abbreviation L := (lcs_len oldLines newLines).

Lemma nth_insert {A : Type} (l : list A) (i k : nat) (v d : A) :
  (i < length l)%nat ->
  nth k (<[i := v]> l) d = if (k =? i)%nat then v else nth k l d.
Proof.
  intros Hi. rewrite !nth_lookup. destruct (Nat.eqb_spec k i) as [->|Hne].
  - now rewrite list_lookup_insert_eq.
  - now rewrite list_lookup_insert_ne by congruence.
Qed.

Lemma at2_set2 (lcs : table) (i j a b : nat) (v : Z) :
  (i < length lcs)%nat -> (j < length (nth i lcs []))%nat ->
  at2 (set2 lcs i j v) a b
  = if ((a =? i) && (b =? j))%nat then v else at2 lcs a b.
Proof.
  intros Hi Hj. unfold at2, set2, table in *.
  rewrite (nth_insert lcs) by assumption.
  destruct (Nat.eqb_spec a i) as [->|]; [|reflexivity].
  now rewrite nth_insert.
Qed.

Lemma set2_shape (lcs : table) (i j : nat) (v : Z) :
  (i < length lcs)%nat ->
  length (set2 lcs i j v) = length lcs /\
  forall a : nat, length (nth a (set2 lcs i j v) []) = length (nth a lcs []).
Proof.
  intros Hi. unfold set2, table in *. split; [apply length_insert|].
  intros a. rewrite nth_insert by assumption.
  destruct (Nat.eqb_spec a i) as [->|]; [apply length_insert|reflexivity].
Qed.

Lemma lcs_len_cell (i j : nat) :
  L (S i) (S j)
  = if String.eqb (line oldLines i) (line newLines j)
    then L i j + 1 else max (L i (S j)) (L (S i) j).
Proof. reflexivity. Qed.

Lemma lcs_len_col0 (i : nat) : L i 0 = 0.
Proof. now destruct i. Qed.

Lemma fill_cell_filled (lcs : table) (i j : nat) :
  (1 <= i <= m)%nat -> (1 <= j <= n)%nat ->
  filled oldLines newLines lcs i j ->
  filled oldLines newLines (fill_cell oldLines newLines lcs i j) i (S j).
Proof.
  intros Hi Hj (Hrows & Hcols & Hcells).
  assert (Hv : fill_cell oldLines newLines lcs i j = set2 lcs i j (L i j)).
  { unfold fill_cell. destruct i as [|i]; [lia|]. destruct j as [|j]; [lia|].
    rewrite lcs_len_cell. cbn [Nat.sub]. rewrite !Nat.sub_0_r.
    rewrite !Hcells by lia. now destruct (String.eqb _ _). }
  rewrite Hv.
  destruct (set2_shape lcs i j (L i j)) as [Hlen Hrow]; [lia|].
  split; [congruence|]. split; [intros a Ha; rewrite Hrow; now apply Hcols|].
  intros a b Ha Hb Hdone. rewrite at2_set2 by (rewrite ?Hcols; lia).
  destruct (Nat.eqb_spec a i) as [->|]; cbn [andb].
  - destruct (Nat.eqb_spec b j) as [->|]; [reflexivity|]. apply Hcells; lia.
  - apply Hcells; lia.
Qed.

Lemma fill_row_filled (i : nat) :
  (1 <= i <= m)%nat ->
  forall (len j : nat) (lcs : table),
    (1 <= j)%nat -> (j + len = S n)%nat ->
    filled oldLines newLines lcs i j ->
    filled oldLines newLines
      (fold_left (fun lcs j => fill_cell oldLines newLines lcs i j) (seq j len) lcs)
      i (S n).
Proof.
  intros Hi. induction len as [|len IH]; intros j lcs Hj Hlen Hf; cbn [seq fold_left].
  - now replace (S n) with j by lia.
  - apply IH; [lia..|]. apply fill_cell_filled; [assumption|lia|assumption].
Qed.

Lemma fill_rows_filled :
  forall (len i : nat) (lcs : table),
    (1 <= i)%nat -> (i + len = S m)%nat ->
    filled oldLines newLines lcs i 1 ->
    filled oldLines newLines
      (fold_left
         (fun lcs i => fold_left (fun lcs j => fill_cell oldLines newLines lcs i j)
                                 (seq 1 n) lcs)
         (seq i len) lcs)
      (S m) 1.
Proof.
  induction len as [|len IH]; intros i lcs Hi Hlen Hf; cbn [seq fold_left].
  - now replace (S m) with i by lia.
  - apply IH; [lia..|].
    destruct (fill_row_filled i ltac:(lia) n 1%nat lcs) as (Hrows & Hcols & Hcells);
      [lia|lia|assumption|].
    split; [assumption|]. split; [assumption|].
    intros a b Ha Hb Hdone. apply Hcells; lia.
Qed.

Lemma nth_repeat_lt {A : Type} (x d : A) (k a : nat) :
  (a < k)%nat -> nth a (repeat x k) d = x.
Proof.
  revert a. induction k as [|k IH]; intros a Ha; [lia|].
  destruct a as [|a]; [reflexivity|]. cbn. apply IH. lia.
Qed.

(** The table that [diffLines] fills holds the recurrence in every
    cell. *)
Lemma fill_table_cells (a b : nat) :
  (a <= m)%nat -> (b <= n)%nat ->
  at2 (fill_table oldLines newLines) a b = L a b.
Proof.
  intros Ha Hb. unfold fill_table.
  destruct (fill_rows_filled m 1%nat
              (repeat (repeat 0 (n + 1)%nat) (m + 1)%nat)) as (_ & _ & Hcells);
    [lia|lia| |apply Hcells; lia].
  split; [rewrite repeat_length; lia|].
  split.
  - intros a' Ha'. rewrite nth_repeat_lt by lia. rewrite repeat_length. lia.
  - intros a' b' Ha' Hb' Hdone. unfold at2.
    rewrite nth_repeat_lt by lia. rewrite nth_repeat_lt by lia.
    destruct Hdone as [Hd|[[Hd Hd']|Hd]].
    + now replace a' with 0%nat by lia.
    + replace b' with 0%nat by lia. now rewrite lcs_len_col0.
    + subst b'. now rewrite lcs_len_col0.
Qed.

Lemma kept_cons (c : Change) (cs : list Change) :
  kept (c :: cs)
  = match Type_ c with
    | ChangeEqual => Text c :: kept cs
    | _ => kept cs
    end.
Proof. unfold kept. cbn [List.filter]. now destruct (Type_ c). Qed.

(** Backtracking through a table that holds the recurrence keeps as many
    lines as the cell it starts from says. *)
Lemma backtrack_kept (lcs : table) :
  (forall a b : nat, (a <= m)%nat -> (b <= n)%nat -> at2 lcs a b = L a b) ->
  forall i j : nat,
    (i <= m)%nat -> (j <= n)%nat ->
    Z.of_nat (length (kept (backtrack lcs oldLines newLines i j))) = L i j.
Proof.
  intros Hcells. induction i as [|i IHi].
  - induction j as [|j IHj]; intros Hi Hj; [reflexivity|].
    cbn [backtrack] in *. rewrite kept_cons. cbn [Type_]. apply IHj; lia.
  - induction j as [|j IHj]; intros Hi Hj.
    + cbn [backtrack]. rewrite kept_cons. cbn [Type_].
      rewrite IHi by lia. now rewrite !lcs_len_col0.
    + cbn [backtrack] in *. rewrite lcs_len_cell.
      destruct (String.eqb (line oldLines i) (line newLines j)).
      * rewrite kept_cons. cbn [Type_ length]. rewrite <- IHi by lia. lia.
      * rewrite !Hcells by lia. unfold max.
        destruct (Z.geb_spec (L (S i) j) (L i (S j))) as [Hge|Hlt].
        -- rewrite kept_cons. cbn [Type_]. rewrite IHj by lia.
           destruct (Z.gtb_spec (L i (S j)) (L (S i) j)); [lia|reflexivity].
        -- rewrite kept_cons. cbn [Type_]. rewrite IHi by lia.
           destruct (Z.gtb_spec (L i (S j)) (L (S i) j)); [reflexivity|lia].
Qed.

Lemma sublist_snoc (s xs : list string) (a : string) :
  s `sublist_of` xs ++ [a] ->
  s `sublist_of` xs \/ exists s', s = s' ++ [a] /\ s' `sublist_of` xs.
Proof.
  intros H. apply sublist_app_r in H as (s1 & s2 & -> & H1 & H2).
  apply sublist_cons_r in H2 as [H2|(s' & -> & H2)];
    apply sublist_nil_r in H2; subst.
  - left. now rewrite app_nil_r.
  - right. eauto.
Qed.

Lemma sublist_drop_last (s' xs : list string) (a : string) :
  s' ++ [a] `sublist_of` xs -> s' `sublist_of` xs.
Proof.
  intros H. transitivity (s' ++ [a]); [|assumption].
  now apply sublist_inserts_r.
Qed.

(** No common subsequence of the first [i] old and the first [j] new
    lines is longer than the recurrence says. *)
Lemma lcs_len_upper :
  forall i j : nat,
    (i <= m)%nat -> (j <= n)%nat ->
    forall s : list string,
      s `sublist_of` firstn i oldLines -> s `sublist_of` firstn j newLines ->
      Z.of_nat (length s) <= L i j.
Proof.
  induction i as [|i IHi].
  - intros j _ _ s Hs _. apply sublist_nil_r in Hs. now subst.
  - induction j as [|j IHj]; intros Hi Hj s Ho Hn.
    + apply sublist_nil_r in Hn. now subst.
    + rewrite lcs_len_cell.
      pose proof Ho as Ho'. pose proof Hn as Hn'.
      rewrite (take_S_line oldLines) in Ho by lia.
      rewrite (take_S_line newLines) in Hn by lia.
      apply sublist_snoc in Ho as [Ho|(so & Hso & Ho)];
        apply sublist_snoc in Hn as [Hn|(sn & Hsn & Hn)].
      * pose proof (IHi j ltac:(lia) ltac:(lia) s Ho Hn) as Hle.
        pose proof (IHi (S j) ltac:(lia) ltac:(lia) s Ho Hn') as Hle'.
        destruct (String.eqb _ _); [lia|]. unfold max.
        destruct (Z.gtb_spec (L i (S j)) (L (S i) j)); lia.
      * pose proof (IHi (S j) ltac:(lia) ltac:(lia) s Ho Hn') as Hle'.
        destruct (String.eqb _ _).
        -- subst s. apply sublist_drop_last in Ho.
           pose proof (IHi j ltac:(lia) ltac:(lia) sn Ho Hn) as Hle.
           rewrite length_app. cbn [length]. lia.
        -- unfold max. destruct (Z.gtb_spec (L i (S j)) (L (S i) j)); lia.
      * pose proof (IHj ltac:(lia) ltac:(lia) s Ho' Hn) as Hle'.
        destruct (String.eqb _ _).
        -- subst s. apply sublist_drop_last in Hn.
           pose proof (IHi j ltac:(lia) ltac:(lia) so Ho Hn) as Hle.
           rewrite length_app. cbn [length]. lia.
        -- unfold max. destruct (Z.gtb_spec (L i (S j)) (L (S i) j)); lia.
      * rewrite Hso in Hsn. apply app_inj_tail in Hsn as [<- Heq].
        rewrite Heq, String.eqb_refl.
        pose proof (IHi j ltac:(lia) ltac:(lia) so Ho Hn) as Hle.
        subst s. rewrite length_app. cbn [length]. lia.
Qed.

Lemma kept_app (xs ys : list Change) : kept (xs ++ ys) = kept xs ++ kept ys.
Proof. unfold kept. now rewrite List.filter_app, map_app. Qed.

Lemma kept_rev (cs : list Change) : kept (rev cs) = rev (kept cs).
Proof.
  induction cs as [|c cs IH]; [reflexivity|].
  cbn [rev]. rewrite kept_app, IH, !kept_cons.
  destruct (Type_ c); cbn [rev kept map List.filter]; now rewrite ?app_nil_r.
Qed.

Lemma kept_sides (cs : list Change) :
  kept cs `sublist_of` old_side cs /\ kept cs `sublist_of` new_side cs.
Proof.
  unfold old_side, new_side.
  induction cs as [|c cs [IHo IHn]]; [split; constructor|].
  rewrite kept_cons. cbn [flat_map].
  destruct (Type_ c); cbn [app]; split;
    try (now apply sublist_skip); try (now apply sublist_cons); assumption.
Qed.

(** X27. The diff is as short as a diff can be: the lines it keeps, in
    order, are a common subsequence of the old and the new lines, and no
    common subsequence is longer. *)
Theorem diffLines_longest :
  kept (diffLines oldLines newLines) `sublist_of` oldLines /\
  kept (diffLines oldLines newLines) `sublist_of` newLines /\
  forall s : list string,
    s `sublist_of` oldLines -> s `sublist_of` newLines ->
    (length s <= length (kept (diffLines oldLines newLines)))%nat.
Proof.
  destruct (kept_sides (diffLines oldLines newLines)) as [Ho Hn].
  destruct (diffLines_sides oldLines newLines) as [Eo En].
  rewrite Eo in Ho. rewrite En in Hn.
  split; [assumption|]. split; [assumption|].
  intros s Hso Hsn. unfold diffLines.
  rewrite kept_rev, length_rev.
  pose proof (backtrack_kept (fill_table oldLines newLines) fill_table_cells
                m n (le_n _) (le_n _)) as Hlen.
  pose proof (lcs_len_upper m n (le_n _) (le_n _) s) as Hup.
  rewrite !firstn_all in Hup. specialize (Hup Hso Hsn). lia.
Qed.

End LcsFacts.

(** ** A write that fails *)

Section StoreFailure.
Import os object.
Variable zlib : list byte -> list byte.


End StoreFailure.

(** ** Looking up a tree entry *)

Section TreeLookup.
Import object objectread.

Lemma GetEntryByName_in_Some (entries : list TreeEntry) (name : string)
    (e : TreeEntry) :
  GetEntryByName_in entries name = Some e -> In e entries /\ Name e = name.
Proof.
  induction entries as [|x entries IH]; cbn [GetEntryByName_in]; [discriminate|].
  destruct (String.eqb_spec (Name x) name) as [Hx|Hx].
  - intros [= <-]. split; [now left|assumption].
  - intros Hfind. destruct (IH Hfind). split; [now right|assumption].
Qed.

Lemma GetEntryByName_in_None (entries : list TreeEntry) (name : string) :
  GetEntryByName_in entries name = None <-> ~ In name (map Name entries).
Proof.
  induction entries as [|x entries IH]; cbn [GetEntryByName_in map].
  - split; [intros _ []|reflexivity].
  - destruct (String.eqb_spec (Name x) name) as [Hx|Hx].
    + split; [discriminate|]. intros Hnot. exfalso. apply Hnot. now left.
    + rewrite IH. cbn [In]. tauto.
Qed.

Lemma GetEntryByName_in_NoDup (entries : list TreeEntry) (e : TreeEntry) :
  List.NoDup (map Name entries) -> In e entries ->
  GetEntryByName_in entries (Name e) = Some e.
Proof.
  induction entries as [|x entries IH]; intros Hnd Hin; [destruct Hin|].
  cbn [map] in Hnd. apply List.NoDup_cons_iff in Hnd as [Hnotin Hnd].
  cbn [GetEntryByName_in]. destruct Hin as [->|Hin].
  - now rewrite String.eqb_refl.
  - destruct (String.eqb_spec (Name x) (Name e)) as [Hx|Hx]; [|now apply IH].
    exfalso. apply Hnotin. rewrite Hx. now apply in_map.
Qed.

(** X29. [GetEntryByName] finds an entry of the tree that has the name,
    finds nothing exactly when no entry has it, and in a tree of
    distinct names finds every entry under its own name. *)
Theorem GetEntryByName_finds (t : Tree) :
  (forall (name : string) (e : TreeEntry),
      GetEntryByName t name = Some e -> In e (Entries t) /\ Name e = name) /\
  (forall name : string,
      GetEntryByName t name = None <-> ~ In name (map Name (Entries t))) /\
  (List.NoDup (map Name (Entries t)) ->
   forall e : TreeEntry, In e (Entries t) -> GetEntryByName t (Name e) = Some e).
Proof.
  unfold GetEntryByName. split; [|split].
  - intros name e. apply GetEntryByName_in_Some.
  - intros name. apply GetEntryByName_in_None.
  - intros Hnd e. now apply GetEntryByName_in_NoDup.
Qed.

End TreeLookup.

(** ** Instances *)

Section Instances.
Import index os object objectread indexfile repository diff diffspec diffmore.
Import examples samples.

Lemma sample_tree_wf : Forall wf_TreeEntry (Entries sample_tree).
Proof.
  repeat (constructor;
          [repeat split;
           try (intros Hin; vm_compute in Hin; intuition discriminate);
           reflexivity|]).
  constructor.
Qed.

Lemma sample_tree_names : List.NoDup (map Name (Entries sample_tree)).
Proof. repeat constructor; cbn; intuition discriminate. Qed.

Lemma examples_hashes :
  Forall (fun e => length (index.Hash e) = 20%nat) (index.Entries a_then_b).
Proof. repeat (constructor; [vm_compute; reflexivity|]). constructor. Qed.

Lemma examples_plain :
  Forall (fun e => sep_free (Path e) = true /\ Path e <> "") (index.Entries a_then_b).
Proof. repeat (constructor; [split; [reflexivity|discriminate]|]). constructor. Qed.

Lemma RemoveEntry_gone_witness :
  GetEntry (RemoveEntry a_then_b "a.txt") "a.txt" = None.
Proof. apply (RemoveEntry_gone a_then_b "a.txt"). exact examples_paths. Defined.

Lemma Write_layout_witness :
  Forall (fun e => length (write_entry e) = entry_size e /\
                   (entry_size e mod 8 = 0)%nat /\
                   (63 + String.length (Path e) <= entry_size e
                    < 71 + String.length (Path e))%nat) (index.Entries a_then_b) /\
  length (snd (Write insertion_sort a_then_b))
  = (12 + list_sum (map entry_size (index.Entries a_then_b)) + 20)%nat /\
  (list_sum (map entry_size (index.Entries a_then_b)) mod 8 = 0)%nat.
Proof.
  apply (Write_layout insertion_sort a_then_b insertion_sort_contract).
  exact examples_hashes.
Defined.

Lemma parseIndex_well_formed_witness :
  length (index.Entries a_then_b)
  = Z.to_nat (Uint32 (slice (snd (Write insertion_sort a_then_b)) 8 12)) /\
  Forall wf_Entry (index.Entries a_then_b) /\
  Forall (fun e => nul_free (Path e)) (index.Entries a_then_b).
Proof.
  apply (parseIndex_well_formed (snd (Write insertion_sort a_then_b)) a_then_b).
  vm_compute. reflexivity.
Defined.

Lemma parseIndex_accepts_witness :
  firstn 4 (snd (Write insertion_sort a_then_b)) = list_byte_of_string "DIRC" /\
  Uint32 (slice (snd (Write insertion_sort a_then_b)) 4 8) = 2 /\
  (12 + list_sum (map entry_size (index.Entries a_then_b))
   <= length (snd (Write insertion_sort a_then_b)) + 7)%nat.
Proof.
  apply (parseIndex_accepts (snd (Write insertion_sort a_then_b)) a_then_b).
  vm_compute. reflexivity.
Defined.

Lemma equal_changes_no_hunk_witness :
  (forall context : Z, groupIntoHunks (Diff "a" "a") context = []) /\
  (forall oldName newName : string,
      Format oldName newName (Diff "a" "a")
      = "--- a/" +:+ oldName +:+ eol +:+ "+++ b/" +:+ newName +:+ eol).
Proof.
  apply (equal_changes_no_hunk (Diff "a" "a")).
  vm_compute. repeat constructor.
Defined.


Lemma BytesToHex_HexToBytes_witness :
  utils.BytesToHex (utils.HexToBytes "00ff") = "00ff" /\
  String.length "00ff" = (2 * length (utils.HexToBytes "00ff"))%nat.
Proof. apply (BytesToHex_HexToBytes "00ff"). reflexivity. Defined.

Lemma ParseTree_Content_witness :
  ParseTree (Tree_Content insertion_sort sample_tree)
  = Some (Ok (mkTree (insertion_sort TreeEntry (less_by Name) (Entries sample_tree)))).
Proof.
  apply (ParseTree_Content insertion_sort insertion_sort_contract sample_tree).
  exact sample_tree_wf.
Defined.

Lemma Tree_Content_order_witness :
  Tree_Content insertion_sort sample_tree
  = Tree_Content insertion_sort (mkTree (rev (Entries sample_tree))) /\
  utils.HashObject TypeTree (Tree_Content insertion_sort sample_tree)
  = utils.HashObject TypeTree
      (Tree_Content insertion_sort (mkTree (rev (Entries sample_tree)))).
Proof.
  apply (Tree_Content_order insertion_sort insertion_sort_contract sample_tree
           (mkTree (rev (Entries sample_tree)))).
  - apply Permutation_rev.
  - exact sample_tree_names.
Defined.

Lemma ParseObject_blob_witness :
  ParseObject parse_none
    (list_byte_of_string
       (utils.header TypeBlob (Z.of_nat (length (content test_blob))))
     ++ content test_blob)
  = Some (Ok (ParsedBlob (NewBlob (content test_blob)))).
Proof.
  apply (ParseObject_blob unit unit parse_none (content test_blob)).
  vm_compute. reflexivity.
Defined.

Lemma ParseObject_unknown_type_witness :
  ParseObject parse_none
    (list_byte_of_string
       (utils.header TypeTag (Z.of_nat (length (content test_blob))))
     ++ content test_blob)
  = Some (Err (ErrUnknownType TypeTag)).
Proof.
  apply (ParseObject_unknown_type unit unit parse_none TypeTag (content test_blob));
    try (intros Hin; vm_compute in Hin; intuition discriminate).
  vm_compute. reflexivity.
Defined.

Lemma ReadObject_blob_witness :
  ReadObject Some parse_none written "repo" test_id
  = (written, Some (Ok (ParsedBlob (NewBlob (content test_blob))))).
Proof.
  apply (ReadObject_blob Some unit unit parse_none written "repo" test_id stored
           (content test_blob)).
  - cbn. lia.
  - vm_compute. reflexivity.
  - vm_compute. reflexivity.
  - reflexivity.
  - vm_compute. reflexivity.
Defined.

Lemma GetObjectInfo_ReadObject_witness :
  exists size : Z,
    GetObjectInfo Some (commit_error := unit) written "repo" test_id
    = (written, Some (Ok (type_of (Commit := unit) (ParsedBlob test_blob), size))) /\
    (forall b : Blob,
        ParsedBlob (Commit := unit) test_blob = ParsedBlob b ->
        size = Z.of_nat (length (content b))).
Proof.
  apply (GetObjectInfo_ReadObject Some unit unit parse_none written written
           "repo" test_id (ParsedBlob test_blob)).
  vm_compute. reflexivity.
Defined.

Lemma ParseObject_tree_witness :
  ParseObject parse_none
    (list_byte_of_string
       (utils.header TypeTree
          (Z.of_nat (length (Tree_Content insertion_sort sample_tree))))
     ++ Tree_Content insertion_sort sample_tree)
  = Some (Ok (ParsedTree
                (mkTree (insertion_sort TreeEntry (less_by Name)
                           (Entries sample_tree))))).
Proof.
  apply (ParseObject_tree insertion_sort insertion_sort_contract unit unit
           parse_none sample_tree).
  - exact sample_tree_wf.
  - vm_compute. reflexivity.
Defined.

Lemma ReadIndex_WriteFile_witness :
  exists w1 : World,
    let sorted := mkIndex (insertion_sort Entry (less_by Path)
                             (index.Entries b_then_a)) in
    indexfile.WriteFile insertion_sort empty_world b_then_a "repo"
    = (w1, sorted, true) /\
    ReadIndex w1 "repo" = (w1, Ok sorted).
Proof.
  apply (ReadIndex_WriteFile insertion_sort insertion_sort_contract empty_world
           b_then_a "repo").
  - reflexivity.
  - eapply Permutation_Forall; [apply perm_swap|exact examples_wf].
  - eapply Permutation_Forall; [apply perm_swap|exact examples_nul_free].
  - cbn. lia.
Defined.


Lemma splitPath_rooted_witness :
  (forall (fuel : nat) (parts : list string),
      splitPath_loop fuel (String "/" "a.txt") parts = None) /\
  ("a.txt" <> "" -> splitPath "a.txt" = Some ["a.txt"]).
Proof. apply (splitPath_rooted "a.txt"). reflexivity. Defined.

Lemma BuildTreeRecursive_stored_witness :
  let id := "4e2fd0b481a785eb99cab80ec1c582e1caf6cb44" in
  let w' := fst (BuildTreeRecursive insertion_sort stored "repo" empty_world
                   a_then_b) in
  Stat w' (objPath_of "repo" id) = true /\
  exists tree : Tree,
    id = utils.HashObject TypeTree (Tree_Content insertion_sort tree).
Proof.
  cbv zeta.
  apply (BuildTreeRecursive_stored insertion_sort stored "repo" empty_world
           (fst (BuildTreeRecursive insertion_sort stored "repo" empty_world
                   a_then_b))
           a_then_b "4e2fd0b481a785eb99cab80ec1c582e1caf6cb44").
  vm_compute. reflexivity.
Defined.

Lemma BuildTreeRecursive_flat_witness :
  snd (BuildTreeRecursive insertion_sort stored "repo" empty_world a_then_b)
  = Ok (utils.HashObject TypeTree
          (Tree_Content insertion_sort (BuildTree a_then_b))).
Proof.
  apply (BuildTreeRecursive_flat insertion_sort insertion_sort_contract stored
           "repo" empty_world a_then_b).
  - split; constructor.
  - exact examples_plain.
  - exact examples_paths.
Defined.


End Instances.
